(** * xsar: Sentinel-1 XML mappings (sentinel1_xml_mappings.py)

    A shallow embedding of the compound-variable composers and of the noise
    lookup-table evaluator of [src/xsar/sentinel1_xml_mappings.py], with the
    properties of the specification stated and proved over it.

    Conventions.
    - A numpy 1-D array is a [list]; a 2-D array is a list of rows.
    - A Python exception is a [Raise e] result; [Ok v] is a normal return.
    - Pixel coordinates (along-track / cross-track line and sample numbers)
      are integers ([Z]); shapely coordinates are rationals ([Q]), exact for
      the half-integers the code builds.
    - Noise values are floats: their arithmetic is kept abstract in the class
      [FloatOps], so that nothing proved here depends on rounding. *)

From Stdlib Require Import String Ascii DecimalString ZArith QArith Qround Bool Lia
  Lqa Permutation Sorted List.
Import ListNotations.

Set Implicit Arguments.

(** ** Python exceptions and the error monad *)

Inductive exn : Set :=
| IndexError
| ValueError
| ZeroDivisionError
| AssertionError
| InvalidIndexError.

Inductive result (A : Type) : Type :=
| Ok (a : A)
| Raise (e : exn).

Arguments Ok {A} a.
Arguments Raise {A} e.

Definition bind {A B : Type} (m : result A) (k : A -> result B) : result B :=
  match m with
  | Ok a => k a
  | Raise e => Raise e
  end.

Notation "x <- m ;; k" := (bind m (fun x => k))
  (at level 61, m at next level, right associativity).
Notation "' p <- m ;; k" := (bind m (fun x => let p := x in k))
  (at level 61, p pattern, m at next level, right associativity).

Fixpoint mapM {A B : Type} (f : A -> result B) (l : list A) : result (list B) :=
  match l with
  | [] => Ok []
  | a :: l' => b <- f a ;; bs <- mapM f l' ;; Ok (b :: bs)
  end.

(** ** Python and numpy list primitives *)

(** [l[0]] and [l[-1]]: [IndexError] on an empty sequence. *)
Definition first {A : Type} (l : list A) : result A :=
  match l with
  | [] => Raise IndexError
  | a :: _ => Ok a
  end.

Fixpoint last_item {A : Type} (l : list A) : result A :=
  match l with
  | [] => Raise IndexError
  | [a] => Ok a
  | _ :: l' => last_item l'
  end.

(** [l[i]] for [0 <= i]. *)
Definition item {A : Type} (l : list A) (i : nat) : result A :=
  match nth_error l i with
  | Some a => Ok a
  | None => Raise IndexError
  end.

(** Element-wise combination of two arrays. *)
Fixpoint map2 {A B C : Type} (f : A -> B -> C) (l1 : list A) (l2 : list B) : list C :=
  match l1, l2 with
  | a :: l1', b :: l2' => f a b :: map2 f l1' l2'
  | _, _ => []
  end.

(** [np.reshape(values, (r, c))], row-major (C order): the rows are
    consecutive runs of [c] elements. *)
Fixpoint rows_of {A : Type} (r c : nat) (l : list A) : list (list A) :=
  match r with
  | O => []
  | S r' => firstn c l :: rows_of r' c (skipn c l)
  end.

Definition np_reshape {A : Type} (values : list A) (shape : nat * nat)
  : result (list (list A)) :=
  let '(r, c) := shape in
  if (length values =? r * c)%nat then Ok (rows_of r c values)
  else Raise ValueError.

(** Row-major flattening ([ndarray.ravel()] / [ndarray.flatten()]). *)
Definition ravel {A : Type} (a : list (list A)) : list A := concat a.

(** [np.stack(arrays, axis=1)] of 1-D arrays: all the arrays must have the
    same shape, and row [i] of the result collects the [i]-th elements. *)
Fixpoint columns {A : Type} (n : nat) (arrays : list (list A)) : list (list A) :=
  match n with
  | O => []
  | S n' => flat_map (firstn 1) arrays :: columns n' (map (@tl A) arrays)
  end.

Definition np_stack_axis1 {A : Type} (arrays : list (list A))
  : result (list (list A)) :=
  match arrays with
  | [] => Raise ValueError
  | a :: rest =>
      if forallb (fun b => (length b =? length a)%nat) rest
      then Ok (columns (length a) arrays)
      else Raise ValueError
  end.

(** [ndarray.size] of a 2-D array. *)
Definition np_size2 {A : Type} (a : list (list A)) : nat := length (concat a).

(** ** geolocation_grid *)

Record DataArray (C A : Type) : Type := mkDataArray {
  da_values : list (list A);
  da_dims : list string;
  da_atrack : list C;
  da_xtrack : list C
}.

Definition geolocation_grid {C A : Type} (atrack xtrack : list C) (values : list A)
  : result (DataArray C A) :=
  let shape := (length atrack, length xtrack) in
  values <- np_reshape values shape ;;
  Ok (mkDataArray values ["atrack"; "xtrack"]%string atrack xtrack).

(** ** azimuth_fmrate *)

Section AzimuthFmRate.

(** [T]: the numeric time [strtime2numtime] returns (netCDF4.date2num);
    [C]: the type of a polynomial coefficient; [R]: the type of [t0]. *)
Variables T C R : Type.

(** [strtime2numtime] relies on [datetime.strptime] and [netCDF4.date2num];
    it is taken as a parameter, failing on a malformed date. *)
Variable strtime2numtime : string -> result T.

(** [numpy.polynomial.Polynomial(p)]: keeps the coefficients as given, and
    refuses an empty coefficient array. *)
Record Polynomial : Type := mkPolynomial { coef : list C }.

Definition new_Polynomial (p : list C) : result Polynomial :=
  match p with
  | [] => Raise ValueError
  | _ => Ok (mkPolynomial p)
  end.

Record FmRateFrame : Type := mkFmRateFrame {
  fm_t0 : list R;
  fm_polynomial : list Polynomial;
  fm_azimuth_time : list T;
  fm_index : list T
}.

(** [pd.DataFrame({...}, index=...)]: every column must have the length of
    the index. *)
Definition new_FmRateFrame (t0 : list R) (polynomial : list Polynomial)
    (azimuth_time index : list T) : result FmRateFrame :=
  if ((length t0 =? length index) && (length polynomial =? length index)
      && (length azimuth_time =? length index))%nat
  then Ok (mkFmRateFrame t0 polynomial azimuth_time index)
  else Raise ValueError.

Definition azimuth_fmrate (azimuthtime : list string) (t0 : list R)
    (c0 c1 c2 : list C) (polynomial : list (list C)) : result FmRateFrame :=
  azimuthtime <- mapM strtime2numtime azimuthtime ;;
  polynomial <-
    (if negb (list_sum (map (@length C) [c0; c1; c2]) =? 0)%nat
        && (np_size2 polynomial =? 0)%nat
     then np_stack_axis1 [c0; c1; c1]   (* old annotation *)
     else Ok polynomial) ;;
  polys <- mapM new_Polynomial polynomial ;;
  new_FmRateFrame t0 polys azimuthtime azimuthtime.

End AzimuthFmRate.

(** ** bursts *)

(** The valid-sample arrays are float arrays holding sample indices, with
    [-1] for a missing entry; after the conversion the missing entries are
    NaN.  A float of these arrays is [Some z] or NaN ([None]). *)
Definition sample : Type := option Z.

Definition isfinite (v : sample) : bool :=
  match v with
  | Some _ => true
  | None => false
  end.

(** [a = a.astype(float); a[a == -1] = np.nan], on one row. *)
Definition mask_missing (row : list Z) : list sample :=
  map (fun v => if (v =? -1)%Z then None else Some v) row.

(** numpy broadcasting of a binary operation on two 1-D arrays. *)
Definition np_broadcast2 {A B C : Type} (f : A -> B -> C) (l1 : list A) (l2 : list B)
  : result (list C) :=
  if (length l1 =? length l2)%nat then Ok (map2 f l1 l2)
  else match l1, l2 with
       | [a], _ => Ok (map (f a) l2)
       | _, [b] => Ok (map (fun a => f a b) l1)
       | _, _ => Raise ValueError
       end.

(** [np.where(mask)[0]]: the positions of the true entries, ascending. *)
Fixpoint where_from (i : nat) (mask : list bool) : list nat :=
  match mask with
  | [] => []
  | b :: mask' => if b then i :: where_from (S i) mask' else where_from (S i) mask'
  end.

Definition np_where (mask : list bool) : list nat := where_from 0 mask.

(** [ndarray.min()] and [ndarray.max()]: [ValueError] on an empty array;
    on floats a NaN operand makes the result NaN. *)
Definition reduce {A : Type} (f : A -> A -> A) (l : list A) : result A :=
  match l with
  | [] => Raise ValueError
  | a :: l' => Ok (fold_left f l' a)
  end.

Definition lift_nan (f : Z -> Z -> Z) (a b : sample) : sample :=
  match a, b with
  | Some x, Some y => Some (f x y)
  | _, _ => None
  end.

Definition np_min_nat : list nat -> result nat := reduce Nat.min.
Definition np_max_nat : list nat -> result nat := reduce Nat.max.
Definition np_min_float : list sample -> result sample := reduce (lift_nan Z.min).
Definition np_max_float : list sample -> result sample := reduce (lift_nan Z.max).

(** Integer-array indexing [a[idx]]. *)
Definition take {A : Type} (a : list A) (idx : list nat) : result (list A) :=
  mapM (item a) idx.

Section Bursts.

(** Payload columns, copied to the dataset unchanged. *)
Variables TimeT AnxT OffT : Type.

(** Storing [valloc], a list of numpy scalars, into a row of the [int32]
    array [valid_locations] converts each of them.  A NaN, or a value
    outside the [int32] range, has no defined conversion: numpy either
    casts it to a platform-defined integer or raises, according to its
    release; both are parameters. *)
Variable nan_to_int32 : result Z.
Variable overflow_to_int32 : Z -> result Z.

Definition to_int32 (v : sample) : result Z :=
  match v with
  | None => nan_to_int32
  | Some z =>
      if ((- 2147483648 <=? z) && (z <=? 2147483647))%Z then Ok z
      else overflow_to_int32 z
  end.

Record BurstDataset : Type := mkBurstDataset {
  azimuthTime : list TimeT;
  azimuthAnxTime : list AnxT;
  sensingTime : list TimeT;
  byteOffset : list OffT;
  firstValidSample : list (list sample);
  lastValidSample : list (list sample);
  valid_location : list (list Z);
  attrs_lines_per_burst : Z
}.

(** The number of columns of a 2-D array given by its rows. *)
Definition ncols {A : Type} (a : list (list A)) : nat :=
  match a with
  | [] => 0%nat
  | row :: _ => length row
  end.

(** [xr.Dataset({...})]: the variables sharing a dimension must agree on
    its size (here 'burst' and 'xtrack'). *)
Definition new_BurstDataset (azt : list TimeT) (anx : list AnxT) (sens : list TimeT)
    (off : list OffT) (fvs lvs : list (list sample)) (vloc : list (list Z))
    (lines_per_burst : Z) : result BurstDataset :=
  let n := length azt in
  if ((length anx =? n) && (length sens =? n) && (length off =? n)
      && (length fvs =? n) && (length lvs =? n) && (length vloc =? n)
      && (ncols fvs =? ncols lvs))%nat
  then Ok (mkBurstDataset azt anx sens off fvs lvs vloc lines_per_burst)
  else Raise ValueError.

(** The body of the loop over the bursts: the bounding box of burst [ibur]. *)
Definition valloc (lines_per_burst : Z) (burst_firstValidSample burst_lastValidSample
    : list (list sample)) (ibur : nat) : result (list Z) :=
  fvs <- item burst_firstValidSample ibur ;;
  lvs <- item burst_lastValidSample ibur ;;
  mask <- np_broadcast2 orb (map isfinite fvs) (map isfinite lvs) ;;
  let valind := np_where mask in
  imin <- np_min_nat valind ;;
  fsel <- take fvs valind ;;
  fmin <- np_min_float fsel ;;
  imax <- np_max_nat valind ;;
  lsel <- take lvs valind ;;
  lmax <- np_max_float lsel ;;
  mapM to_int32
       [Some (Z.of_nat ibur * lines_per_burst + Z.of_nat imin)%Z; fmin;
        Some (Z.of_nat ibur * lines_per_burst + Z.of_nat imax)%Z; lmax].

(** [bursts]: [Ok None] is the Python [return None]. *)
Definition bursts (lines_per_burst samples_per_burst : Z)
    (burst_azimuthTime : list TimeT) (burst_azimuthAnxTime : list AnxT)
    (burst_sensingTime : list TimeT) (burst_byteOffset : list OffT)
    (burst_firstValidSample burst_lastValidSample : list (list Z))
  : result (option BurstDataset) :=
  if ((lines_per_burst =? 0) && (samples_per_burst =? 0))%Z then Ok None
  else
    let burst_firstValidSample := map mask_missing burst_firstValidSample in
    let burst_lastValidSample := map mask_missing burst_lastValidSample in
    let nbursts := length burst_azimuthTime in
    valid_locations <-
      mapM (valloc lines_per_burst burst_firstValidSample burst_lastValidSample)
           (seq 0 nbursts) ;;
    da <- new_BurstDataset burst_azimuthTime burst_azimuthAnxTime burst_sensingTime
            burst_byteOffset burst_firstValidSample burst_lastValidSample
            valid_locations lines_per_burst ;;
    Ok (Some da).

End Bursts.

(** ** df_files *)

(** *** The string operations of the file-name parsing *)

(** [s.split(sep)] on a one-character separator: never empty. *)
Fixpoint split_on (sep : ascii) (s : string) : list string :=
  match s with
  | EmptyString => [EmptyString]
  | String c s' =>
      if Ascii.eqb c sep then EmptyString :: split_on sep s'
      else match split_on sep s' with
           | w :: ws => String c w :: ws
           | [] => [String c EmptyString]
           end
  end.

(** [os.path.basename] (posix): what follows the last slash. *)
Definition basename (p : string) : string :=
  last (split_on "/"%char p) EmptyString.

(** [s.rfind(c)]: the last position of [c], counted from [i]. *)
Fixpoint rfind_from (c : ascii) (s : string) (i : nat) : option nat :=
  match s with
  | EmptyString => None
  | String d s' =>
      match rfind_from c s' (S i) with
      | Some k => Some k
      | None => if Ascii.eqb d c then Some i else None
      end
  end.

Definition rfind (c : ascii) (s : string) : option nat := rfind_from c s 0.

(** [os.path.splitext]: the extension starts at the last dot of the last
    path component, unless only dots precede it in that component. *)
Definition splitext (p : string) : string * string :=
  let filenameIndex :=
    match rfind "/"%char p with
    | Some k => S k
    | None => 0%nat
    end in
  match rfind "."%char p with
  | Some dotIndex =>
      if existsb
           (fun k => match String.get k p with
                     | Some c => negb (Ascii.eqb c "."%char)
                     | None => false
                     end)
           (seq filenameIndex (dotIndex - filenameIndex))
      then (String.substring 0 dotIndex p,
            String.substring dotIndex (String.length p - dotIndex) p)
      else (p, EmptyString)
  | None => (p, EmptyString)
  end.

(** [s.upper()], on the ASCII letters. *)
Definition upper_char (c : ascii) : ascii :=
  let n := nat_of_ascii c in
  if ((97 <=? n) && (n <=? 122))%nat then ascii_of_nat (n - 32) else c.

Fixpoint upper (s : string) : string :=
  match s with
  | EmptyString => EmptyString
  | String c s' => String (upper_char c) (upper s')
  end.

(** [s[:-1]]. *)
Fixpoint drop_last (s : string) : string :=
  match s with
  | EmptyString => EmptyString
  | String c EmptyString => EmptyString
  | String c s' => String c (drop_last s')
  end.

(** [int(s)] on a decimal literal, a sign followed by digits.  (Python also
    accepts blanks around the literal and underscores between digits; file
    sequence numbers have neither, and such literals are refused here.) *)
Definition digit_of (c : ascii) : option Z :=
  let n := nat_of_ascii c in
  if ((48 <=? n) && (n <=? 57))%nat then Some (Z.of_nat (n - 48)) else None.

Fixpoint parse_digits (s : string) (acc : Z) : option Z :=
  match s with
  | EmptyString => Some acc
  | String c s' =>
      match digit_of c with
      | Some d => parse_digits s' (10 * acc + d)%Z
      | None => None
      end
  end.

Definition parse_unsigned (s : string) : result Z :=
  match s with
  | EmptyString => Raise ValueError
  | _ => match parse_digits s 0%Z with
         | Some v => Ok v
         | None => Raise ValueError
         end
  end.

Definition py_int (s : string) : result Z :=
  match s with
  | String "-"%char s' => v <- parse_unsigned s' ;; Ok (- v)%Z
  | String "+"%char s' => parse_unsigned s'
  | _ => parse_unsigned s
  end.

(** ["%03d" % n]: decimal, zero-padded to three characters, sign included. *)
Fixpoint zeros (n : nat) : string :=
  match n with
  | O => EmptyString
  | S n' => String "0"%char (zeros n')
  end.

Definition format_03d (n : Z) : string :=
  let digits := NilZero.string_of_uint (N.to_uint (Z.abs_N n)) in
  if (n <? 0)%Z
  then String "-"%char (zeros (2 - String.length digits) ++ digits)%string
  else (zeros (3 - String.length digits) ++ digits)%string.

(** [len(set(l))]. *)
Definition count_distinct (l : list string) : nat :=
  length (nodup string_dec l).

(** [a // b] on non-negative integers. *)
Definition floordiv (a b : nat) : result nat :=
  match b with
  | O => Raise ZeroDivisionError
  | _ => Ok (a / b)%nat
  end.

(** *** The file-manifest table *)

Record FilesFrame : Type := mkFilesFrame {
  polarization : list string;
  dsid : list string;
  annotation : list string;
  measurement : list string;
  noise : list string;
  calibration : list string;
  files_index : list Z
}.

(** [pd.DataFrame({...}, index=num)]: every column has the index's length. *)
Definition new_FilesFrame (pols dsid annotation measurement noise calibration
    : list string) (num : list Z) : result FilesFrame :=
  let n := length num in
  if ((length pols =? n) && (length dsid =? n) && (length annotation =? n)
      && (length measurement =? n) && (length noise =? n)
      && (length calibration =? n))%nat
  then Ok (mkFilesFrame pols dsid annotation measurement noise calibration num)
  else Raise ValueError.

(** The three fields read from an annotation file name. *)
Definition file_pol (f : string) : result string :=
  w <- item (split_on "-"%char (basename f)) 3 ;; Ok (upper w).

Definition file_num (f : string) : result Z :=
  w <- item (split_on "-"%char (fst (splitext (basename f)))) 8 ;; py_int w.

Definition file_dsid (f : string) : result string :=
  w <- item (split_on "-"%char (basename f)) 1 ;; Ok (upper w).

Definition df_files (annotation_files measurement_files noise_files
    calibration_files : list string) : result FilesFrame :=
  pols <- mapM file_pol annotation_files ;;
  num <- mapM file_num annotation_files ;;
  dsid <- mapM file_dsid annotation_files ;;
  let pols_count := count_distinct pols in
  subds_count <- floordiv (length annotation_files) pols_count ;;
  let dsid_count := count_distinct dsid in
  dsid <-
    (if negb (dsid_count =? subds_count)%nat then
       d0 <- first dsid ;;
       let dsid_rad := drop_last d0 in
       let dsid :=
         map (fun n => (dsid_rad ++ "_" ++ format_03d n)%string) num in
       if (count_distinct dsid =? subds_count)%nat then Ok dsid
       else Raise AssertionError
     else Ok dsid) ;;
  new_FilesFrame pols dsid annotation_files measurement_files noise_files
    calibration_files num.


(** ** Floats and shapely geometry *)

(** The arithmetic of the noise values (float64).  [of_Z] converts an
    integer, [nan] is [np.nan]. *)
Class FloatOps (F : Type) : Type := {
  nan : F;
  of_Z : Z -> F;
  fadd : F -> F -> F;
  fsub : F -> F -> F;
  fmul : F -> F -> F;
  fdiv : F -> F -> F
}.

(** Exact rational arithmetic with a NaN is one implementation. *)
Definition Qlift (f : Q -> Q -> Q) (a b : option Q) : option Q :=
  match a, b with
  | Some x, Some y => Some (f x y)
  | _, _ => None
  end.

#[export] Instance Q_FloatOps : FloatOps (option Q) := {
  nan := None;
  of_Z := fun z => Some (inject_Z z);
  fadd := Qlift Qplus;
  fsub := Qlift Qminus;
  fmul := Qlift Qmult;
  fdiv := fun a b =>
    match b with
    | Some y => if Qeq_bool y 0 then None else Qlift Qdiv a b
    | None => None
    end
}.

(** Python's [max(a, b)] and [min(a, b)] on coordinates. *)
Definition qmax (a b : Q) : Q := if Qle_bool b a then a else b.
Definition qmin (a b : Q) : Q := if Qle_bool a b then a else b.

(** [int(v)] and [ndarray.astype(int)]: truncation toward zero. *)
Definition Qtrunc (q : Q) : Z := Z.quot (Qnum q) (Zpos (Qden q)).

Definition half : Q := 1 # 2.

(** An axis-aligned rectangle, closed: x is along-track, y is cross-track. *)
Record box : Type := mkbox {
  minx : Q;
  miny : Q;
  maxx : Q;
  maxy : Q
}.

(** [shapely.geometry.box(x1, y1, x2, y2)]: the rectangle with these two
    opposite corners. *)
Definition shapely_box (x1 y1 x2 y2 : Q) : box :=
  mkbox (qmin x1 x2) (qmin y1 y2) (qmax x1 x2) (qmax y1 y2).

(** [g.intersection(h)] of two rectangles: [None] is the empty geometry
    ([is_empty]); rectangles that only touch meet in a segment or a point,
    which is not empty. *)
Definition intersection (g h : box) : option box :=
  let b := mkbox (qmax (minx g) (minx h)) (qmax (miny g) (miny h))
                 (qmin (maxx g) (maxx h)) (qmin (maxy g) (maxy h)) in
  if Qle_bool (minx b) (maxx b) && Qle_bool (miny b) (maxy b)
  then Some b else None.

(** [map(int, g.bounds)]. *)
Definition int_bounds (g : box) : Z * Z * Z * Z :=
  (Qtrunc (minx g), Qtrunc (miny g), Qtrunc (maxx g), Qtrunc (maxy g)).

(** ** scipy.interpolate.interp1d, kind='linear', assume_sorted=True *)

Section Interp1d.

Context {F : Type} {ops : FloatOps F}.

(** [extrapolate] is [fill_value='extrapolate']; otherwise the fill value
    is NaN and [bounds_error] is false. *)
Record interp1d : Type := mkinterp1d {
  interp_x : list Z;
  interp_y : list F;
  extrapolate : bool
}.

(** The constructor refuses arrays of different lengths, and fewer than two
    samples (the scipy releases the code was written against). *)
Definition new_interp1d (x : list Z) (y : list F) (extrap : bool) : result interp1d :=
  if negb (length x =? length y)%nat then Raise ValueError
  else if (length x <? 2)%nat then Raise ValueError
  else Ok (mkinterp1d x y extrap).

(** [np.searchsorted(x, q)] on an ascending [x]: the number of samples
    strictly below [q]. *)
Fixpoint searchsorted (x : list Z) (q : Z) : nat :=
  match x with
  | [] => 0%nat
  | v :: x' => if (v <? q)%Z then S (searchsorted x' q) else 0%nat
  end.

Definition clip (i lo hi : nat) : nat := Nat.min (Nat.max i lo) hi.

(** The straight line through [(x_lo, y_lo)] and [(x_hi, y_hi)], at [q]. *)
Definition line_through (x_lo : Z) (y_lo : F) (x_hi : Z) (y_hi : F) (q : Z) : F :=
  let slope := fdiv (fsub y_hi y_lo) (of_Z (x_hi - x_lo)) in
  fadd (fmul slope (of_Z (q - x_lo))) y_lo.

Definition call_linear (x : list Z) (y : list F) (q : Z) : F :=
  let hi := clip (searchsorted x q) 1 (length x - 1) in
  let lo := (hi - 1)%nat in
  line_through (nth lo x 0%Z) (nth lo y nan) (nth hi x 0%Z) (nth hi y nan) q.

Definition interp1d_call (f : interp1d) (q : Z) : F :=
  let y_new := call_linear (interp_x f) (interp_y f) q in
  if extrapolate f then y_new
  else if ((q <? hd 0 (interp_x f)) || (last (interp_x f) 0 <? q))%Z then nan
  else y_new.

End Interp1d.

Arguments interp1d F : clear implicits.

(** ** The noise lookup table: blocks and their evaluation *)

Section NoiseLut.

Context {F : Type} {ops : FloatOps F}.

(** What a block's [lut_f(atracks, xtracks)] returns: a 2-D array, or a
    scalar (the synthetic block of [noise_lut_azi]). *)
Inductive ndvalue : Type :=
| Scalar (v : F)
| Array2 (rows : list (list F)).

(** A row of the blocks table: the callable [lut_f] and the [geometry]
    where it is defined. *)
Record block : Type := mkblock {
  lut_f : list Z -> list Z -> result ndvalue;
  geometry : box
}.

Record NoiseLut : Type := mkNoiseLut { blocks : list block }.

(** What evaluating a [_NoiseLut] returns: the Python integer [1], or the
    values of the noise array. *)
Inductive lut_output : Type :=
| PyInt (n : Z)
| Values (rows : list (list F)).

(** numpy broadcasting of a value to the shape [(ka, kx)] of the selection
    it is assigned to. *)
Definition broadcast_row (kx : nat) (row : list F) : result (list F) :=
  if (length row =? kx)%nat then Ok row
  else match row with
       | [v] => Ok (repeat v kx)
       | _ => Raise ValueError
       end.

Definition broadcast_to (ka kx : nat) (v : ndvalue) : result (list (list F)) :=
  match v with
  | Scalar s => Ok (repeat (repeat s kx) ka)
  | Array2 rows =>
      rows <- mapM (broadcast_row kx) rows ;;
      if (length rows =? ka)%nat then Ok rows
      else match rows with
           | [r] => Ok (repeat r ka)
           | _ => Raise ValueError
           end
  end.

(** Writing [vals] at the selected positions of a row, in order. *)
Fixpoint write_row (mask : list bool) (row vals : list F) : list F :=
  match mask, row with
  | b :: mask', old :: row' =>
      if b then
        match vals with
        | v :: vals' => v :: write_row mask' row' vals'
        | [] => old :: write_row mask' row' []
        end
      else old :: write_row mask' row' vals
  | _, _ => row
  end.

Fixpoint write_rows (mask_a mask_x : list bool) (noise vals : list (list F))
  : list (list F) :=
  match mask_a, noise with
  | b :: mask_a', old :: noise' =>
      if b then
        match vals with
        | v :: vals' => write_row mask_x old v :: write_rows mask_a' mask_x noise' vals'
        | [] => old :: write_rows mask_a' mask_x noise' []
        end
      else old :: write_rows mask_a' mask_x noise' vals
  | _, _ => noise
  end.

(** [(coords >= lo) & (coords <= hi)]. *)
Definition between (lo hi : Z) (coords : list Z) : list bool :=
  map (fun v => ((lo <=? v) && (v <=? hi))%Z) coords.

(** [coords[mask]]. *)
Fixpoint select {A : Type} (mask : list bool) (l : list A) : list A :=
  match mask, l with
  | b :: mask', a :: l' => if b then a :: select mask' l' else select mask' l'
  | _, _ => []
  end.

Definition unique (labels : list Z) : bool :=
  (length (nodup Z.eq_dec labels) =? length labels)%nat.

(** [noise.loc[dict(atrack=sub_a, xtrack=sub_x)] = value]: the labels
    [sub_a] and [sub_x] are looked up in the coordinates of [noise] (pandas
    refuses the lookup in an index with repeated labels), the value is
    broadcast to the selection and written there. *)
Definition loc_assign (noise : list (list F)) (atracks xtracks : list Z)
    (mask_a mask_x : list bool) (value : ndvalue) : result (list (list F)) :=
  if negb (unique atracks && unique xtracks) then Raise InvalidIndexError
  else
    vals <- broadcast_to (length (select mask_a atracks))
                         (length (select mask_x xtracks)) value ;;
    Ok (write_rows mask_a mask_x noise vals).

(** The box of the returned array. *)
Definition asked_box (atracks xtracks : list Z) : result box :=
  a0 <- first atracks ;;
  x0 <- first xtracks ;;
  a1 <- last_item atracks ;;
  x1 <- last_item xtracks ;;
  Ok (shapely_box (qmax 0 (inject_Z a0 - half)) (qmax 0 (inject_Z x0 - half))
                  (inject_Z a1 + half) (inject_Z x1 + half)).

(** The blocks whose geometry meets [asked], with the intersection. *)
Definition match_blocks (bs : list block) (asked : box) : list (block * box) :=
  flat_map (fun b => match intersection (geometry b) asked with
                     | Some g => [(b, g)]
                     | None => []
                     end) bs.

(** One iteration of the loop over the matching blocks. *)
Definition eval_block (atracks xtracks : list Z) (noise : list (list F))
    (bg : block * box) : result (list (list F)) :=
  let '(sub_a_min, sub_x_min, sub_a_max, sub_x_max) := int_bounds (snd bg) in
  let mask_a := between sub_a_min sub_a_max atracks in
  let mask_x := between sub_x_min sub_x_max xtracks in
  let sub_a := select mask_a atracks in
  let sub_x := select mask_x xtracks in
  value <- lut_f (fst bg) sub_a sub_x ;;
  loc_assign noise atracks xtracks mask_a mask_x value.

Fixpoint eval_blocks (atracks xtracks : list Z) (noise : list (list F))
    (bgs : list (block * box)) : result (list (list F)) :=
  match bgs with
  | [] => Ok noise
  | bg :: bgs' =>
      noise <- eval_block atracks xtracks noise bg ;;
      eval_blocks atracks xtracks noise bgs'
  end.

(** [_NoiseLut.__call__]. *)
Definition NoiseLut_call (self : NoiseLut) (atracks xtracks : list Z)
  : result lut_output :=
  if (length (blocks self) =? 0)%nat then
    Ok (PyInt 1)    (* no noise (ie no azi noise for ipf < 2.9) *)
  else
    let noise := repeat (repeat nan (length xtracks)) (length atracks) in
    asked <- asked_box atracks xtracks ;;
    noise <- eval_blocks atracks xtracks noise (match_blocks (blocks self) asked) ;;
    Ok (Values noise).

(** [pd.concat(blocks, axis=1).T] then [gpd.GeoDataFrame]: one row per
    block; nothing to concatenate is an error. *)
Definition blocks_frame (bs : list block) : result (list block) :=
  match bs with
  | [] => Raise ValueError
  | _ => Ok bs
  end.

(** *** noise_lut_range *)

(** [np.diff(a, prepend=p)] and [np.diff(a, append=p)]. *)
Fixpoint diff (l : list Z) : list Z :=
  match l with
  | a :: ((b :: _) as l') => (b - a)%Z :: diff l'
  | _ => []
  end.

Definition diff_prepend (p : Z) (a : list Z) : list Z := diff (p :: a).
Definition diff_append (a : list Z) (p : Z) : list Z := diff (a ++ [p]).

(** [a[-1] = v]. *)
Fixpoint set_last (l : list Z) (v : Z) : list Z :=
  match l with
  | [] => []
  | [_] => [v]
  | a :: l' => a :: set_last l' v
  end.

(** [(atracks - np.diff(atracks, prepend=0) / 2).astype(int)]. *)
Definition atracks_start (atracks : list Z) : list Z :=
  map2 (fun a d => Qtrunc (inject_Z a - inject_Z d / 2))
       atracks (diff_prepend 0 atracks).

(** [np.ceil(atracks + np.diff(atracks, append=atracks[-1] + 1) / 2).astype(int)],
    then [atracks_stop[-1] = 65535]. *)
Definition atracks_stop (atracks : list Z) : result (list Z) :=
  a_last <- last_item atracks ;;
  let stop :=
    map2 (fun a d => Qceiling (inject_Z a + inject_Z d / 2))
         atracks (diff_append atracks (a_last + 1)) in
  Ok (set_last stop 65535).

(** The class [Lut_box_range]; its attribute [atracks],
    [np.arange(a_start, a_stop)], is kept as the two bounds. *)
Record Lut_box_range : Type := mkLut_box_range {
  lbr_a_start : Z;
  lbr_a_stop : Z;
  lbr_xtracks : list Z;
  lbr_area : box;
  lbr_lut_f : interp1d F
}.

Definition new_Lut_box_range (a_start a_stop : Z) (x : list Z) (l : list F)
  : result Lut_box_range :=
  x_first <- first x ;;
  x_last <- last_item x ;;
  let area := shapely_box (inject_Z a_start) (inject_Z x_first)
                          (inject_Z a_stop) (inject_Z x_last) in
  f <- new_interp1d x l false ;;
  Ok (mkLut_box_range a_start a_stop x area f).

(** [np.tile(self.lut_f(xtracks), (atracks.size, 1))]. *)
Definition Lut_box_range_call (self : Lut_box_range) (atracks xtracks : list Z)
  : ndvalue :=
  Array2 (repeat (map (interp1d_call (lbr_lut_f self)) xtracks) (length atracks)).

(** [zip] of four sequences stops at the shortest. *)
Fixpoint zip4 {A B C D : Type} (la : list A) (lb : list B) (lc : list C) (ld : list D)
  : list (A * B * C * D) :=
  match la, lb, lc, ld with
  | a :: la', b :: lb', c :: lc', d :: ld' => (a, b, c, d) :: zip4 la' lb' lc' ld'
  | _, _, _, _ => []
  end.

Definition range_block (p : Z * Z * list Z * list F) : result block :=
  let '(a_start, a_stop, x, l) := p in
  lut_f <- new_Lut_box_range a_start a_stop x l ;;
  Ok (mkblock (fun a x => Ok (Lut_box_range_call lut_f a x)) (lbr_area lut_f)).

Definition noise_lut_range (atracks : list Z) (xtracks : list (list Z))
    (noiseLuts : list (list F)) : result NoiseLut :=
  let starts := atracks_start atracks in
  stops <- atracks_stop atracks ;;
  bs <- mapM range_block (zip4 starts stops xtracks noiseLuts) ;;
  bs <- blocks_frame bs ;;
  Ok (mkNoiseLut bs).

(** *** noise_lut_azi *)

(** The attribute [lut_f] of [Lut_box_azi]: an interpolator, or the
    constant function [lambda _a: lut]. *)
Inductive azi_lut_f : Type :=
| Interpolated (f : interp1d F)
| Constant (lut : list F).

Record Lut_box_azi : Type := mkLut_box_azi {
  lba_atracks : list Z;
  lba_x_start : Z;
  lba_x_stop : Z;
  lba_area : box;
  lba_lut_f : azi_lut_f
}.

Definition new_Lut_box_azi {S : Type} (sw : S) (a : list Z)
    (a_start a_stop x_start x_stop : Z) (lut : list F) : result Lut_box_azi :=
  let area := shapely_box (qmax 0 (inject_Z a_start - half))
                          (qmax 0 (inject_Z x_start - half))
                          (inject_Z a_stop + half) (inject_Z x_stop + half) in
  lut_f <-
    (if (1 <? length lut)%nat then
       f <- new_interp1d a lut true ;; Ok (Interpolated f)
     else
       (* not enough values to do interpolation: noise is constant *)
       Ok (Constant lut)) ;;
  Ok (mkLut_box_azi a x_start x_stop area lut_f).

(** [self.lut_f(atracks)]. *)
Definition azi_lut_f_call (f : azi_lut_f) (atracks : list Z) : list F :=
  match f with
  | Interpolated f => map (interp1d_call f) atracks
  | Constant lut => lut
  end.

(** [np.tile(self.lut_f(atracks), (xtracks.size, 1)).T]. *)
Definition Lut_box_azi_call (self : Lut_box_azi) (atracks xtracks : list Z)
  : ndvalue :=
  Array2 (map (fun v => repeat v (length xtracks))
              (azi_lut_f_call (lba_lut_f self) atracks)).

Fixpoint zip7 {A B C D E G H : Type} (la : list A) (lb : list B) (lc : list C)
    (ld : list D) (le : list E) (lg : list G) (lh : list H)
  : list (A * B * C * D * E * G * H) :=
  match la, lb, lc, ld, le, lg, lh with
  | a :: la', b :: lb', c :: lc', d :: ld', e :: le', g :: lg', h :: lh' =>
      (a, b, c, d, e, g, h) :: zip7 la' lb' lc' ld' le' lg' lh'
  | _, _, _, _, _, _, _ => []
  end.

Definition azi_block {S : Type} (p : S * list Z * Z * Z * Z * Z * list F)
  : result block :=
  let '(sw, a, a_start, a_stop, x_start, x_stop, lut) := p in
  lut_f <- new_Lut_box_azi sw a a_start a_stop x_start x_stop lut ;;
  Ok (mkblock (fun a x => Ok (Lut_box_azi_call lut_f a x)) (lba_area lut_f)).

(** The block installed when there is no azimuth noise record: the
    function [lambda a, x: 1] on an arbitrary large box. *)
Definition no_azi_block : block :=
  mkblock (fun _ _ => Ok (Scalar (of_Z 1))) (shapely_box 0 0 65535 65535).

Definition noise_lut_azi {S : Type} (atrack_azi : list (list Z))
    (atrack_azi_start atrack_azi_stop xtrack_azi_start xtrack_azi_stop : list Z)
    (noise_azi_lut : list (list F)) (swath : list S) : result NoiseLut :=
  bs <- mapM azi_block
          (zip7 swath atrack_azi atrack_azi_start atrack_azi_stop
                xtrack_azi_start xtrack_azi_stop noise_azi_lut) ;;
  let bs := if (length bs =? 0)%nat then bs ++ [no_azi_block] else bs in
  bs <- blocks_frame bs ;;
  Ok (mkNoiseLut bs).

End NoiseLut.

Arguments ndvalue F : clear implicits.
Arguments block F : clear implicits.
Arguments NoiseLut F : clear implicits.
Arguments lut_output F : clear implicits.
Arguments Lut_box_range F : clear implicits.
Arguments Lut_box_azi F : clear implicits.
Arguments azi_lut_f F : clear implicits.

(** ** Notions used to state the properties *)

(** The midpoint between two sample positions. *)
Definition midpoint (a b : Z) : Q := inject_Z (a + b) / 2.

(** A strictly increasing array. *)
Definition strictly_increasing (l : list Z) : Prop :=
  forall i, (S i < length l)%nat -> (nth i l 0 < nth (S i) l 0)%Z.

(** The along-track intervals of [noise_lut_range] abutting exactly: the
    first starts at 0, each of the others starts where the one before it
    stops, and the last stops at 65535. *)
Definition range_intervals_abut (atracks : list Z) : Prop :=
  exists stops,
    atracks_stop atracks = Ok stops
    /\ nth 0 (atracks_start atracks) 0%Z = 0%Z
    /\ (forall i, (0 < i < length atracks)%nat ->
          nth i (atracks_start atracks) 0%Z = nth (i - 1) stops 0%Z)
    /\ last stops 0%Z = 65535%Z.

(** The shape of a 2-D array given by its rows. *)
Definition has_shape {A : Type} (a : list (list A)) (r c : nat) : Prop :=
  length a = r /\ Forall (fun row => length row = c) a.

(** The coordinate pair [(a, x)] lies in the sub-ranges the evaluator
    derives from the intersection [g] of a block with the asked box. *)
Definition in_int_bounds (g : box) (a x : Z) : Prop :=
  (Qtrunc (minx g) <= a <= Qtrunc (maxx g))%Z
  /\ (Qtrunc (miny g) <= x <= Qtrunc (maxy g))%Z.

(** A query position is covered when it lies in the sub-ranges of a block
    that intersects the asked box. *)
Definition covered {F : Type} (bs : list (block F)) (asked : box) (a x : Z) : Prop :=
  exists b g, In (b, g) (match_blocks bs asked) /\ in_int_bounds g a x.

(** A block whose interpolant returns, for every selection, a value that
    fits the selection (numpy can broadcast it to the selection's shape). *)
Definition well_behaved {F : Type} (b : block F) : Prop :=
  forall sub_a sub_x, exists v vals,
    lut_f b sub_a sub_x = Ok v
    /\ broadcast_to (length sub_a) (length sub_x) v = Ok vals.

(** A pixel coordinate inside the largest image the sentinel box covers. *)
Definition in_image (v : Z) : Prop := (0 <= v <= 65535)%Z.

(** ** Example inputs *)


(** ** The bounding box of a burst, as the specification describes it *)

(** Column [j] is valid in a burst when one of the two rows has a real
    index there ([-1] is the missing entry). *)
Definition valid_index (frow lrow : list Z) (j : nat) : Prop :=
  (j < length frow)%nat /\ (nth j frow 0%Z <> (-1)%Z \/ nth j lrow 0%Z <> (-1)%Z).

(** [m] is the least (resp. greatest) value [f] takes on the indices
    satisfying [P]. *)
Definition least_over {A : Type} (P : A -> Prop) (f : A -> Z) (m : Z) : Prop :=
  (exists j, P j /\ f j = m) /\ forall j, P j -> (m <= f j)%Z.

Definition in_int32 (z : Z) : Prop := (- 2147483648 <= z <= 2147483647)%Z.

Definition greatest_over {A : Type} (P : A -> Prop) (f : A -> Z) (m : Z) : Prop :=
  (exists j, P j /\ f j = m) /\ forall j, P j -> (f j <= m)%Z.

(** ** Points and rectangles *)

(** The pixel [(a, x)] lies in the closed rectangle [g]. *)
Definition in_box (g : box) (a x : Z) : Prop :=
  (minx g <= inject_Z a /\ inject_Z a <= maxx g
   /\ miny g <= inject_Z x /\ inject_Z x <= maxy g)%Q.

(** The pixel lies within one pixel below, or within the non-negative
    part above, of the rectangle: the slack the truncation of the bounds
    leaves. *)
Definition near_box (g : box) (a x : Z) : Prop :=
  (minx g - 1 < inject_Z a /\ inject_Z a <= qmax 0 (maxx g)
   /\ miny g - 1 < inject_Z x /\ inject_Z x <= qmax 0 (maxy g))%Q.

(** A block whose values are given position by position: on every
    selection, what its interpolant returns is broadcast to the array of the
    values [g a x]. *)
Definition pointwise {F : Type} (b : block F) (g : Z -> Z -> F) : Prop :=
  forall sub_a sub_x, exists v,
    lut_f b sub_a sub_x = Ok v
    /\ broadcast_to (length sub_a) (length sub_x) v
       = Ok (map (fun a => map (g a) sub_x) sub_a).

(** ** or_ipf28 *)

(** [s.replace(old, new)]: the occurrences of [old] are replaced from the
    left, without overlap; [skip] counts the characters of a replaced
    occurrence still to drop.  With an empty [old], [new] is inserted
    before every character and at the end. *)
Fixpoint replace_from (skip : nat) (old new s : string) : string :=
  match s with
  | EmptyString => EmptyString
  | String c s' =>
      match skip with
      | S k => replace_from k old new s'
      | O =>
          if String.prefix old s
          then (new ++ replace_from (String.length old - 1) old new s')%string
          else String c (replace_from 0 old new s')
      end
  end.

Fixpoint intersperse (new s : string) : string :=
  match s with
  | EmptyString => new
  | String c s' => (new ++ String c (intersperse new s'))%string
  end.

Definition str_replace (old new s : string) : string :=
  match old with
  | EmptyString => intersperse new s
  | _ => replace_from 0 old new s
  end.

(** Change xpath to match ipf <2.8 or >2.9 (for noise range). *)
Definition or_ipf28 (xpath : string) : string :=
  let xpath28 :=
    str_replace "noiseAzimuth" "noise" (str_replace "noiseRange" "noise" xpath) in
  if negb (String.eqb xpath28 xpath) then (xpath ++ " | " ++ xpath28)%string
  else xpath.

(** [sub in s]. *)
Fixpoint contains (sub s : string) : bool :=
  String.prefix sub s
  || match s with
     | EmptyString => false
     | String _ s' => contains sub s'
     end.

(** ** uniq_sorted *)

Section UniqSorted.

(** The elements, their equality and their order [<]. *)
Variable A : Type.
Variable A_eq_dec : forall x y : A, {x = y} + {x <> y}.
Variable ltb : A -> A -> bool.

(** [sorted(l)], written as an insertion sort: on a total order every
    comparison sort returns the same list. *)
Fixpoint insert_sorted (x : A) (l : list A) : list A :=
  match l with
  | [] => [x]
  | y :: l' => if ltb x y then x :: l else y :: insert_sorted x l'
  end.

Definition sorted (l : list A) : list A := fold_right insert_sorted [] l.

(** [np.array(sorted(set(x)))]: the distinct elements, in order. *)
Definition uniq_sorted (x : list A) : list A := sorted (nodup A_eq_dec x).

End UniqSorted.

(** ** list_poly_from_list_string_coords *)

(** [c in s] for a character, and [sep.join(l)]. *)
Fixpoint has_char (c : ascii) (s : string) : bool :=
  match s with
  | EmptyString => false
  | String a s' => Ascii.eqb a c || has_char c s'
  end.

Fixpoint join (sep : string) (l : list string) : string :=
  match l with
  | [] => EmptyString
  | [s] => s
  | s :: l' => (s ++ sep ++ join sep l')%string
  end.

Section Footprints.

(** [float(s)] and the test shapely applies to the vertices of a polygon
    (it refuses a ring of too few vertices with [ValueError]) are
    parameters. *)
Variable Fl : Type.
Variable py_float : string -> result Fl.
Variable polygon_ok : list (Fl * Fl) -> bool.

Record Polygon_xy : Type := mkPolygon_xy { exterior : list (Fl * Fl) }.

Definition new_Polygon_xy (pts : list (Fl * Fl)) : result Polygon_xy :=
  if polygon_ok pts then Ok (mkPolygon_xy pts) else Raise ValueError.

(** [lat, lon = parts]. *)
Definition unpack2 (parts : list string) : result (string * string) :=
  match parts with
  | [lat; lon] => Ok (lat, lon)
  | _ => Raise ValueError
  end.

Definition vertex (parts : list string) : result (Fl * Fl) :=
  latlon <- unpack2 parts ;;
  x <- py_float (snd latlon) ;;
  y <- py_float (fst latlon) ;;
  Ok (x, y).

Definition footprint (gmlpoly : string) : result Polygon_xy :=
  pts <- mapM vertex (map (split_on ","%char) (split_on " "%char gmlpoly)) ;;
  new_Polygon_xy pts.

Definition list_poly_from_list_string_coords (str_coords_list : list string)
  : result (list Polygon_xy) :=
  mapM footprint str_coords_list.

End Footprints.

(** ** orbit *)

(** [np.vstack(arrays)] of 1-D arrays, and [a.T]. *)
Definition np_vstack {A : Type} (arrays : list (list A)) : result (list (list A)) :=
  match arrays with
  | [] => Raise ValueError
  | a :: rest =>
      if forallb (fun b => (length b =? length a)%nat) rest then Ok arrays
      else Raise ValueError
  end.

Definition np_transpose {A : Type} (a : list (list A)) : list (list A) :=
  columns (ncols a) a.

Section Orbit.

Variables TimeT FrameT Fl PassT HeadT : Type.

Record OrbitDataset : Type := mkOrbitDataset {
  orb_time : list TimeT;
  orb_frame : list FrameT;
  orb_pos_x : list Fl;
  orb_pos_y : list Fl;
  orb_pos_z : list Fl;
  orb_vel_x : list Fl;
  orb_vel_y : list Fl;
  orb_vel_z : list Fl;
  orb_velocity : list (list Fl);
  orb_position : list (list Fl);
  orb_orbit_pass : PassT;
  orb_platform_heading : HeadT
}.

(** [xr.DataArray(data, dims=['time'], coords={'time': time})], and the
    same with a second dimension 'xyz': the first dimension has the size of
    the coordinate. *)
Definition along_time {A : Type} (time : list TimeT) (data : list A)
  : result (list A) :=
  if (length data =? length time)%nat then Ok data else Raise ValueError.

Definition orbit (time : list TimeT) (frame : list FrameT)
    (pos_x pos_y pos_z vel_x vel_y vel_z : list Fl)
    (orbit_pass : PassT) (platform_heading : HeadT) : result OrbitDataset :=
  frame <- along_time time frame ;;
  px <- along_time time pos_x ;;
  py <- along_time time pos_y ;;
  pz <- along_time time pos_z ;;
  vx <- along_time time vel_x ;;
  vy <- along_time time vel_y ;;
  vz <- along_time time vel_z ;;
  v <- np_vstack [vel_x; vel_y; vel_z] ;;
  velocity <- along_time time (np_transpose v) ;;
  p <- np_vstack [pos_x; pos_y; pos_z] ;;
  position <- along_time time (np_transpose p) ;;
  Ok (mkOrbitDataset time frame px py pz vx vy vz velocity position
        orbit_pass platform_heading).

End Orbit.

(** ** doppler_centroid_estimates *)

Section Doppler.

(** [T]: numeric times; [Fl]: floats; [strtime2numtime] and the conversion
    [astype(float)] of a string are parameters. *)
Variables T Fl : Type.
Variable strtime2numtime : string -> result T.
Variable to_float : string -> result Fl.

Record DopplerDataset : Type := mkDopplerDataset {
  dop_t0 : list Fl;
  dop_geo_polynom : list (list Fl);
  dop_data_polynom : list (list Fl);
  dop_azimuth_time : list (list T);
  dop_azimuth_time_start : list T;
  dop_azimuth_time_stop : list T;
  dop_data_rms : list Fl;
  dop_slant_range_time : list (list Fl);
  dop_frequency : list (list Fl);
  dop_data_rms_threshold : list bool
}.

(** [np.empty(dims)]: no negative dimension. *)
Definition np_empty_dims (r c : Z) : result (nat * nat) :=
  if ((r <? 0) || (c <? 0))%Z then Raise ValueError
  else Ok (Z.to_nat r, Z.to_nat c).

(** Adding to the dataset a variable whose first dimension is
    'n_estimates': it must have the size the dimension already has. *)
Definition along_estimates {A : Type} (n : nat) (data : list A) : result (list A) :=
  if (length data =? n)%nat then Ok data else Raise ValueError.

(** One iteration of the loop over the estimates. *)
Definition estimate_times (c : nat) (dc_azimuth_time dc_azstarttime dc_azstoptime
    : list string) (iline : nat) : result (list T * T * T) :=
  strtime <- item dc_azimuth_time iline ;;
  t <- strtime2numtime strtime ;;
  strtime <- item dc_azstarttime iline ;;
  t_start <- strtime2numtime strtime ;;
  strtime <- item dc_azstoptime iline ;;
  t_stop <- strtime2numtime strtime ;;
  Ok (repeat t c, t_start, t_stop).

Definition doppler_centroid_estimates
    (nb_dcestimate nb_geoDcPoly nb_dataDcPoly nb_fineDce : Z)
    (dc_azimuth_time dc_t0 : list string)
    (dc_geoDcPoly dc_dataDcPoly : list (list Fl))
    (dc_rmserr : list string) (dc_rmserrAboveThres : list bool)
    (dc_azstarttime dc_azstoptime : list string)
    (dc_slantRangeTime dc_frequency : list Fl) : result DopplerDataset :=
  t0 <- mapM to_float dc_t0 ;;
  let n_estimates := length t0 in
  geo <- along_estimates n_estimates dc_geoDcPoly ;;
  data <- along_estimates n_estimates dc_dataDcPoly ;;
  dims <- np_empty_dims nb_dcestimate nb_fineDce ;;
  _ <- (if (fst dims =? n_estimates)%nat then Ok tt else Raise ValueError) ;;
  rms <- mapM to_float dc_rmserr ;;
  rms <- along_estimates n_estimates rms ;;
  srt <- np_reshape dc_slantRangeTime dims ;;
  freq <- np_reshape dc_frequency dims ;;
  thres <- along_estimates n_estimates dc_rmserrAboveThres ;;
  times <- mapM (estimate_times (snd dims) dc_azimuth_time dc_azstarttime
                   dc_azstoptime) (seq 0 (fst dims)) ;;
  Ok (mkDopplerDataset t0 geo data
        (map (fun x => fst (fst x)) times)
        (map (fun x => snd (fst x)) times)
        (map (fun x => snd x) times)
        rms srt freq thres).

(** The conditions under which the inputs describe [r] estimates of [c]
    fine estimates each. *)
Definition doppler_inputs_ok (nb_dcestimate nb_fineDce : Z)
    (dc_azimuth_time dc_t0 : list string)
    (dc_geoDcPoly dc_dataDcPoly : list (list Fl))
    (dc_rmserr : list string) (dc_rmserrAboveThres : list bool)
    (dc_azstarttime dc_azstoptime : list string)
    (dc_slantRangeTime dc_frequency : list Fl) : Prop :=
  let r := Z.to_nat nb_dcestimate in
  let c := Z.to_nat nb_fineDce in
  (0 <= nb_dcestimate)%Z /\ (0 <= nb_fineDce)%Z /\
  length dc_t0 = r /\ length dc_geoDcPoly = r /\ length dc_dataDcPoly = r /\
  length dc_rmserr = r /\ length dc_rmserrAboveThres = r /\
  length dc_slantRangeTime = (r * c)%nat /\ length dc_frequency = (r * c)%nat /\
  Forall (fun s => exists x, to_float s = Ok x) dc_t0 /\
  Forall (fun s => exists x, to_float s = Ok x) dc_rmserr /\
  forall i, (i < r)%nat ->
    (exists s t, nth_error dc_azimuth_time i = Some s /\ strtime2numtime s = Ok t) /\
    (exists s t, nth_error dc_azstarttime i = Some s /\ strtime2numtime s = Ok t) /\
    (exists s t, nth_error dc_azstoptime i = Some s /\ strtime2numtime s = Ok t).

End Doppler.

(** * Properties *)

(** ** The error monad *)

Lemma bind_Ok_inv {A B : Type} (m : result A) (k : A -> result B) (b : B) :
  bind m k = Ok b -> exists a, m = Ok a /\ k a = Ok b.
Proof. destruct m as [a|e]; simpl; intros H; [eauto | discriminate]. Qed.

Ltac inv_bind H :=
  let a := fresh "v" in
  let Ha := fresh "Hv" in
  apply bind_Ok_inv in H; destruct H as [a [Ha H]].

Ltac inv_Ok H := inversion H; subst; clear H.

Lemma mapM_length {A B : Type} (f : A -> result B) (l : list A) (bs : list B) :
  mapM f l = Ok bs -> length bs = length l.
Proof.
  revert bs; induction l as [|a l IH]; simpl; intros bs H.
  - now inv_Ok H.
  - inv_bind H. inv_bind H. inv_Ok H. simpl.
    f_equal. now apply IH.
Qed.

Lemma mapM_total {A B : Type} (f : A -> result B) (l : list A) :
  Forall (fun a => exists b, f a = Ok b) l -> exists bs, mapM f l = Ok bs.
Proof.
  induction 1 as [|a l [b Hb] _ [bs Hbs]]; simpl.
  - now exists [].
  - exists (b :: bs). now rewrite Hb, Hbs.
Qed.

Lemma mapM_Ok_map {A B : Type} (f : A -> result B) (g : A -> B) (l : list A) :
  Forall (fun a => f a = Ok (g a)) l -> mapM f l = Ok (map g l).
Proof.
  induction 1 as [|a l Ha _ IH]; simpl; [reflexivity|].
  now rewrite Ha, IH.
Qed.

Lemma mapM_nth {A B : Type} (f : A -> result B) (l : list A) (bs : list B)
    (i : nat) (da : A) (db : B) :
  mapM f l = Ok bs -> (i < length l)%nat -> f (nth i l da) = Ok (nth i bs db).
Proof.
  revert bs i; induction l as [|a l IH]; simpl; intros bs i H Hi; [lia|].
  inv_bind H. inv_bind H. inv_Ok H.
  destruct i as [|i]; simpl; [assumption|].
  apply IH; [assumption | lia].
Qed.

(** ** geolocation_grid: reshaping is inverted by flattening *)

Section Reshape.

Context {A : Type}.

Lemma rows_of_length (r c : nat) (l : list A) : length (rows_of r c l) = r.
Proof. revert l; induction r as [|r IH]; simpl; intros l; [|rewrite IH]; reflexivity. Qed.

Lemma rows_of_ravel (r c : nat) (l : list A) :
  length l = (r * c)%nat -> ravel (rows_of r c l) = l.
Proof.
  unfold ravel. revert l; induction r as [|r IH]; simpl; intros l Hl.
  - now destruct l.
  - rewrite IH; [apply firstn_skipn|].
    rewrite length_skipn; lia.
Qed.

Lemma rows_of_width (r c : nat) (l : list A) :
  length l = (r * c)%nat -> Forall (fun row => length row = c) (rows_of r c l).
Proof.
  revert l; induction r as [|r IH]; simpl; intros l Hl; constructor.
  - rewrite length_firstn; lia.
  - apply IH. rewrite length_skipn; lia.
Qed.

Lemma rows_of_nth (r c : nat) (l : list A) (i j : nat) (d : A) :
  (i < r)%nat -> (j < c)%nat ->
  nth j (nth i (rows_of r c l) []) d = nth (i * c + j) l d.
Proof.
  revert l i; induction r as [|r IH]; simpl; intros l i Hi Hj; [lia|].
  destruct i as [|i]; simpl.
  - rewrite nth_firstn. destruct (Nat.ltb_spec j c); [reflexivity | lia].
  - rewrite IH by lia. rewrite nth_skipn. f_equal; lia.
Qed.

End Reshape.

(** C6. For [len(values) == len(atrack) * len(xtrack)], [geolocation_grid]
    returns the 2-D array of that shape whose entry [(i, j)] is
    [values[i * len(xtrack) + j]] (row-major, along-track the slower axis),
    so that flattening it row-major gives back [values]. *)
Theorem geolocation_grid_roundtrip {C A : Type} (atrack xtrack : list C)
    (values : list A) :
  length values = (length atrack * length xtrack)%nat ->
  exists da,
    geolocation_grid atrack xtrack values = Ok da
    /\ ravel (da_values da) = values
    /\ length (da_values da) = length atrack
    /\ Forall (fun row => length row = length xtrack) (da_values da)
    /\ (forall i j d, (i < length atrack)%nat -> (j < length xtrack)%nat ->
          nth j (nth i (da_values da) []) d = nth (i * length xtrack + j) values d)
    /\ da_atrack da = atrack /\ da_xtrack da = xtrack.
Proof.
  intros Hlen. unfold geolocation_grid, np_reshape.
  rewrite (proj2 (Nat.eqb_eq _ _) Hlen). simpl.
  eexists; split; [reflexivity|]. simpl.
  repeat split.
  - now apply rows_of_ravel.
  - apply rows_of_length.
  - now apply rows_of_width.
  - intros i j d Hi Hj. now apply rows_of_nth.
Qed.

Lemma geolocation_grid_roundtrip_witness :
  length [1; 2; 3; 4; 5; 6]%Z = (length [10; 20]%Z * length [0; 1; 2]%Z)%nat
  /\ exists da,
       geolocation_grid [10; 20]%Z [0; 1; 2]%Z [1; 2; 3; 4; 5; 6]%Z = Ok da
       /\ ravel (da_values da) = [1; 2; 3; 4; 5; 6]%Z
       /\ da_values da = [[1; 2; 3]; [4; 5; 6]]%Z.
Proof.
  split; [reflexivity|].
  destruct (@geolocation_grid_roundtrip Z Z [10; 20]%Z [0; 1; 2]%Z
              [1; 2; 3; 4; 5; 6]%Z eq_refl) as [da [Hda [Hr _]]].
  exists da. split; [exact Hda|]. split; [exact Hr|].
  simpl in Hda. injection Hda as <-. reflexivity.
Defined.

(** A values sequence of any other length is refused. *)
Lemma geolocation_grid_shape_mismatch {C A : Type} (atrack xtrack : list C)
    (values : list A) :
  length values <> (length atrack * length xtrack)%nat ->
  geolocation_grid atrack xtrack values = Raise ValueError.
Proof.
  intros Hlen. unfold geolocation_grid, np_reshape.
  now rewrite (proj2 (Nat.eqb_neq _ _) Hlen).
Qed.

(** ** azimuth_fmrate: the legacy polynomial *)




(** The coefficients [c2] only count in the test for legacy fields. *)
Lemma azimuth_fmrate_ignores_c2 {T C R : Type}
    (strtime2numtime : string -> result T)
    (azimuthtime : list string) (t0 : list R) (c0 c1 c2 c2' : list C) :
  (length c0 + length c1 <> 0)%nat ->
  azimuth_fmrate strtime2numtime azimuthtime t0 c0 c1 c2 []
  = azimuth_fmrate strtime2numtime azimuthtime t0 c0 c1 c2' [].
Proof.
  intros Hne. unfold azimuth_fmrate.
  assert (Hc : forall c : list C,
            (list_sum (map (@length C) [c0; c1; c]) =? 0)%nat = false).
  { intros c. apply Nat.eqb_neq. simpl. lia. }
  now rewrite !Hc.
Qed.

(** Legacy arrays [c0] and [c1] of different lengths cannot be stacked. *)
Lemma azimuth_fmrate_length_mismatch {T C R : Type}
    (strtime2numtime : string -> result T)
    (azimuthtime : list string) (t0 : list R) (c0 c1 c2 : list C)
    (times : list T) :
  mapM strtime2numtime azimuthtime = Ok times ->
  length c1 <> length c0 ->
  azimuth_fmrate strtime2numtime azimuthtime t0 c0 c1 c2 [] = Raise ValueError.
Proof.
  intros Htimes Hlen. unfold azimuth_fmrate. rewrite Htimes. cbn [bind].
  assert (Hc : (list_sum (map (@length C) [c0; c1; c2]) =? 0)%nat = false).
  { apply Nat.eqb_neq. simpl. lia. }
  rewrite Hc. cbn [negb andb np_size2 concat length Nat.eqb].
  unfold np_stack_axis1. cbn [forallb].
  now rewrite (proj2 (Nat.eqb_neq _ _) Hlen).
Qed.


(** ** noise_lut_range: the along-track validity intervals *)

Section RangeIntervals.

Local Open Scope Z_scope.

Lemma map2_length {A B C : Type} (f : A -> B -> C) (l1 : list A) (l2 : list B) :
  length (map2 f l1 l2) = Nat.min (length l1) (length l2).
Proof.
  revert l2; induction l1 as [|a l1 IH]; intros [|b l2]; simpl; auto.
Qed.

Lemma map2_nth {A B C : Type} (f : A -> B -> C) (l1 : list A) (l2 : list B)
    (i : nat) (da : A) (db : B) (dc : C) :
  (i < length l1)%nat -> (i < length l2)%nat ->
  nth i (map2 f l1 l2) dc = f (nth i l1 da) (nth i l2 db).
Proof.
  revert l2 i; induction l1 as [|a l1 IH]; intros [|b l2] [|i]; simpl;
    intros H1 H2; try lia; [reflexivity|].
  apply IH; lia.
Qed.

Lemma Qtrunc_start (a p : Z) :
  Qtrunc (inject_Z a - inject_Z (a - p) / 2) = Qtrunc (midpoint p a).
Proof.
  unfold Qtrunc, midpoint. cbn -[Z.mul Z.add Z.sub Z.opp Z.quot].
  f_equal. lia.
Qed.

Lemma Qceiling_stop (a nx : Z) :
  Qceiling (inject_Z a + inject_Z (nx - a) / 2) = Qceiling (midpoint a nx).
Proof.
  unfold Qceiling, Qfloor, midpoint. cbn -[Z.mul Z.add Z.sub Z.opp Z.div].
  f_equal. f_equal. lia.
Qed.

Lemma Qtrunc_midpoint (a b : Z) : Qtrunc (midpoint a b) = Z.quot (a + b) 2.
Proof.
  unfold Qtrunc, midpoint. cbn -[Z.mul Z.add Z.sub Z.opp Z.quot].
  f_equal. lia.
Qed.

Lemma Qceiling_midpoint (a b : Z) : Qceiling (midpoint a b) = - ((- (a + b)) / 2).
Proof.
  unfold Qceiling, Qfloor, midpoint. cbn -[Z.mul Z.add Z.sub Z.opp Z.div].
  f_equal. f_equal. lia.
Qed.

(** The two roundings of one midpoint differ by at most one. *)
Lemma trunc_le_ceiling (a b : Z) :
  Qtrunc (midpoint a b) <= Qceiling (midpoint a b) <= Qtrunc (midpoint a b) + 1.
Proof.
  rewrite Qtrunc_midpoint, Qceiling_midpoint.
  Z.to_euclidean_division_equations. lia.
Qed.

Lemma trunc_eq_ceiling_even (a b : Z) :
  Z.even (a + b) = true -> Qtrunc (midpoint a b) = Qceiling (midpoint a b).
Proof.
  intros He. rewrite Qtrunc_midpoint, Qceiling_midpoint.
  apply Z.even_spec in He. destruct He as [k Hk]. rewrite Hk.
  Z.to_euclidean_division_equations. lia.
Qed.

Lemma trunc_lt_ceiling_odd (a b : Z) :
  Z.odd (a + b) = true -> 0 <= a + b ->
  Qceiling (midpoint a b) = Qtrunc (midpoint a b) + 1.
Proof.
  intros Ho Hpos. rewrite Qtrunc_midpoint, Qceiling_midpoint.
  apply Z.odd_spec in Ho. destruct Ho as [k Hk]. rewrite Hk in *.
  Z.to_euclidean_division_equations. lia.
Qed.

Lemma midpoint_bounds (a b : Z) :
  a < b -> Qtrunc (midpoint a b) <= b /\ a < Qceiling (midpoint a b).
Proof.
  intros Hab. rewrite Qtrunc_midpoint, Qceiling_midpoint.
  Z.to_euclidean_division_equations. lia.
Qed.

Lemma diff_prepend_map2 (p : Z) (l : list Z) :
  map2 (fun a d => Qtrunc (inject_Z a - inject_Z d / 2)) l (diff (p :: l))
  = map2 (fun a q => Qtrunc (midpoint q a)) l (p :: l).
Proof.
  revert p; induction l as [|a l IH]; intros p; [reflexivity|].
  change (diff (p :: a :: l)) with ((a - p) :: diff (a :: l)).
  cbn [map2]. rewrite Qtrunc_start. f_equal. apply IH.
Qed.

(** The start of interval [i] is the truncated midpoint between sample
    [i] and the one before it, the sample before the first being 0. *)
Lemma atracks_start_map2 (atracks : list Z) :
  atracks_start atracks
  = map2 (fun a p => Qtrunc (midpoint p a)) atracks (0 :: atracks).
Proof. apply diff_prepend_map2. Qed.

Lemma diff_append_map2 (x e : Z) (l : list Z) :
  map2 (fun a d => Qceiling (inject_Z a + inject_Z d / 2))
       (x :: l) (diff (x :: l ++ [e]))
  = map2 (fun a nx => Qceiling (midpoint a nx)) (x :: l) (l ++ [e]).
Proof.
  revert x; induction l as [|y l IH]; intros x.
  - cbn [app diff map2]. now rewrite Qceiling_stop.
  - change (diff (x :: (y :: l) ++ [e])) with ((y - x) :: diff (y :: l ++ [e])).
    cbn [app map2]. rewrite Qceiling_stop. f_equal. apply IH.
Qed.

Lemma last_item_last {A : Type} (l : list A) (d : A) :
  l <> [] -> last_item l = Ok (last l d).
Proof.
  induction l as [|a l IH]; intros Hne; [congruence|].
  destruct l as [|b l]; [reflexivity|].
  change (last_item (a :: b :: l)) with (last_item (b :: l)).
  change (last (a :: b :: l) d) with (last (b :: l) d).
  apply IH. discriminate.
Qed.

Lemma atracks_stop_map2 (atracks : list Z) :
  atracks <> [] ->
  atracks_stop atracks
  = Ok (set_last (map2 (fun a nx => Qceiling (midpoint a nx)) atracks
                       (tl atracks ++ [last atracks 0 + 1])) 65535).
Proof.
  intros Hne. unfold atracks_stop, diff_append.
  rewrite (last_item_last 0 Hne). cbn [bind].
  destruct atracks as [|x l]; [congruence|].
  change ((x :: l) ++ [last (x :: l) 0 + 1]) with (x :: l ++ [last (x :: l) 0 + 1]).
  now rewrite diff_append_map2.
Qed.

Lemma set_last_length (l : list Z) (v : Z) : length (set_last l v) = length l.
Proof.
  induction l as [|a l IH]; [reflexivity|].
  destruct l as [|b l]; [reflexivity|].
  change (set_last (a :: b :: l) v) with (a :: set_last (b :: l) v).
  simpl length in *. now rewrite IH.
Qed.

Lemma set_last_nth (l : list Z) (v : Z) (i : nat) (d : Z) :
  (S i < length l)%nat -> nth i (set_last l v) d = nth i l d.
Proof.
  revert i; induction l as [|a l IH]; intros i Hi; [simpl in Hi; lia|].
  destruct l as [|b l]; [simpl in Hi; lia|].
  change (set_last (a :: b :: l) v) with (a :: set_last (b :: l) v).
  destruct i as [|i]; [reflexivity|].
  cbn [nth]. apply IH. simpl in *. lia.
Qed.

Lemma set_last_last (l : list Z) (v d : Z) :
  l <> [] -> last (set_last l v) d = v.
Proof.
  induction l as [|a l IH]; intros Hne; [congruence|].
  destruct l as [|b l]; [reflexivity|].
  change (set_last (a :: b :: l) v) with (a :: set_last (b :: l) v).
  assert (Hs : set_last (b :: l) v <> []).
  { intros E. apply (f_equal (@length Z)) in E.
    rewrite set_last_length in E. discriminate. }
  destruct (set_last (b :: l) v) as [|c r] eqn:E; [congruence|].
  change (last (a :: c :: r) d) with (last (c :: r) d).
  apply IH. discriminate.
Qed.

Lemma nth_tl_app (l : list Z) (e : Z) (i : nat) :
  (S i < length l)%nat -> nth i (tl l ++ [e]) 0 = nth (S i) l 0.
Proof.
  intros Hi. destruct l as [|a l]; [simpl in Hi; lia|].
  cbn [tl nth]. apply app_nth1. simpl in Hi. lia.
Qed.

(** The intervals, position by position. *)
Lemma atracks_start_nth (atracks : list Z) (i : nat) :
  (i < length atracks)%nat ->
  nth i (atracks_start atracks) 0
  = Qtrunc (midpoint (nth i (0 :: atracks) 0) (nth i atracks 0)).
Proof.
  intros Hi. rewrite atracks_start_map2.
  apply (map2_nth (fun a p => Qtrunc (midpoint p a))); simpl; lia.
Qed.

Lemma atracks_stop_nth (atracks stops : list Z) (i : nat) :
  atracks_stop atracks = Ok stops ->
  (S i < length atracks)%nat ->
  nth i stops 0 = Qceiling (midpoint (nth i atracks 0) (nth (S i) atracks 0)).
Proof.
  intros Hs Hi.
  assert (Hne : atracks <> []) by (destruct atracks; [simpl in Hi; lia | discriminate]).
  rewrite (atracks_stop_map2 Hne) in Hs. inv_Ok Hs.
  assert (Hlen : length (tl atracks ++ [last atracks 0 + 1]) = length atracks).
  { rewrite length_app. destruct atracks; simpl in *; lia. }
  rewrite set_last_nth by (rewrite map2_length; lia).
  rewrite (map2_nth (fun a nx => Qceiling (midpoint a nx)) _ _ 0 0) by lia.
  now rewrite nth_tl_app.
Qed.

Lemma atracks_stop_total (atracks : list Z) :
  atracks <> [] ->
  exists stops, atracks_stop atracks = Ok stops
                /\ length stops = length atracks
                /\ last stops 0 = 65535.
Proof.
  intros Hne. rewrite (atracks_stop_map2 Hne). eexists; split; [reflexivity|].
  assert (Hlen : length (tl atracks ++ [last atracks 0 + 1]) = length atracks).
  { rewrite length_app. destruct atracks; simpl in *; [congruence | lia]. }
  split.
  - rewrite set_last_length, map2_length. lia.
  - apply set_last_last. intros E. apply (f_equal (@length Z)) in E.
    rewrite map2_length, Hlen in E. destruct atracks; [congruence | discriminate].
Qed.

Lemma atracks_start_length (atracks : list Z) :
  length (atracks_start atracks) = length atracks.
Proof. rewrite atracks_start_map2, map2_length. simpl. lia. Qed.

End RangeIntervals.

Section RangeCoverage.

Local Open Scope Z_scope.

Lemma last_as_nth (l : list Z) (d : Z) : last l d = nth (length l - 1) l d.
Proof.
  induction l as [|a l IH]; [reflexivity|].
  destruct l as [|b l]; [reflexivity|].
  change (last (a :: b :: l) d) with (last (b :: l) d).
  rewrite IH. simpl. now rewrite Nat.sub_0_r.
Qed.

(** Intervals [[s_i, e_i)] each starting no later than the one before it
    stops leave no gap up to the last stop. *)
Lemma chained_intervals_cover (starts stops : list Z) (n : nat) (E L : Z) :
  (forall i, (S i < n)%nat -> nth (S i) starts 0 <= nth i stops 0) ->
  nth (n - 1) stops 0 = E ->
  forall d k, (k + d = n - 1)%nat -> (0 < n)%nat ->
    nth k starts 0 <= L < E ->
    exists i, (i < n)%nat /\ nth i starts 0 <= L < nth i stops 0.
Proof.
  intros Hchain Hlast. induction d as [|d IH]; intros k Hk Hn HL.
  - exists k. replace k with (n - 1)%nat in * by lia. split; [lia|].
    rewrite Hlast. lia.
  - destruct (Z_lt_le_dec L (nth k stops 0)) as [Hlt|Hge].
    + exists k. split; [lia | lia].
    + apply (IH (S k)); [lia | lia |].
      specialize (Hchain k ltac:(lia)). lia.
Qed.

(** C2, as the code has it.  For a strictly increasing, non-empty array of
    along-track samples, the derived intervals [[start_i, stop_i)] are
    chained: the lower bound of interval [i] is the midpoint between samples
    [i-1] and [i] truncated toward zero, the upper bound of interval [i-1]
    is the same midpoint rounded up, so that the two bounds are equal when
    the two samples have an even sum and the lower bound is at most one
    less (a one-line overlap) otherwise; the last upper bound is 65535;
    the first interval starts at 0 when the first sample is at line 0 or 1;
    every sample lies in its own interval (for samples from line 0 and
    below line 65535); and no line between the first lower bound and 65535
    is left out. *)
Theorem noise_lut_range_intervals (atracks : list Z) :
  atracks <> [] ->
  strictly_increasing atracks ->
  exists stops,
    let starts := atracks_start atracks in
    atracks_stop atracks = Ok stops
    /\ length starts = length atracks
    /\ length stops = length atracks
    /\ (0 <= nth 0 atracks 0 <= 1 -> nth 0 starts 0 = 0)
    /\ (forall i, (0 < i < length atracks)%nat ->
          let m := midpoint (nth (i - 1) atracks 0) (nth i atracks 0) in
          nth i starts 0 = Qtrunc m
          /\ nth (i - 1) stops 0 = Qceiling m
          /\ nth i starts 0 <= nth (i - 1) stops 0 <= nth i starts 0 + 1
          /\ (Z.even (nth (i - 1) atracks 0 + nth i atracks 0) = true ->
              nth i starts 0 = nth (i - 1) stops 0)
          /\ nth i starts 0 <= nth i atracks 0
          /\ nth (i - 1) atracks 0 < nth (i - 1) stops 0)
    /\ last stops 0 = 65535
    /\ (0 <= nth 0 atracks 0 -> last atracks 0 < 65535 ->
        forall i, (i < length atracks)%nat ->
          nth i starts 0 <= nth i atracks 0 < nth i stops 0)
    /\ (forall L, nth 0 starts 0 <= L < 65535 ->
          exists i, (i < length atracks)%nat
                    /\ nth i starts 0 <= L < nth i stops 0).
Proof.
  intros Hne Hinc.
  destruct (atracks_stop_total Hne) as [stops [Hs [Hlen Hlast]]].
  exists stops. cbv zeta.
  assert (Hmid : forall i, (0 < i < length atracks)%nat ->
            nth i (atracks_start atracks) 0
            = Qtrunc (midpoint (nth (i - 1) atracks 0) (nth i atracks 0))
            /\ nth (i - 1) stops 0
               = Qceiling (midpoint (nth (i - 1) atracks 0) (nth i atracks 0))).
  { intros i Hi. split.
    - rewrite atracks_start_nth by lia.
      destruct i as [|i]; [lia|]. cbn [nth]. now rewrite Nat.sub_succ, Nat.sub_0_r.
    - rewrite (atracks_stop_nth _ Hs) by lia.
      now replace (S (i - 1)) with i by lia. }
  split; [exact Hs|].
  split; [apply atracks_start_length|].
  split; [exact Hlen|].
  split.
  { intros H0. rewrite atracks_start_nth by (destruct atracks; simpl; [congruence | lia]).
    cbn [nth]. rewrite Qtrunc_midpoint.
    Z.to_euclidean_division_equations. lia. }
  split.
  { intros i Hi. destruct (Hmid i Hi) as [Hst Hsp].
    rewrite Hst, Hsp.
    assert (Hlt : nth (i - 1) atracks 0 < nth i atracks 0).
    { specialize (Hinc (i - 1)%nat). replace (S (i - 1)) with i in Hinc by lia.
      apply Hinc. lia. }
    split; [reflexivity|]. split; [reflexivity|].
    split; [apply trunc_le_ceiling|].
    split; [apply trunc_eq_ceiling_even|].
    apply (midpoint_bounds Hlt). }
  split; [exact Hlast|].
  assert (Hn : (0 < length atracks)%nat)
    by (destruct atracks; simpl; [congruence | lia]).
  split.
  { intros H0 Hl i Hi. split.
    - destruct i as [|i].
      + rewrite atracks_start_nth by lia. cbn [nth]. rewrite Qtrunc_midpoint.
        Z.to_euclidean_division_equations. lia.
      + destruct (Hmid (S i) ltac:(lia)) as [Hst _]. rewrite Hst.
        rewrite Nat.sub_succ, Nat.sub_0_r.
        apply midpoint_bounds. apply Hinc. lia.
    - destruct (Nat.eq_dec (S i) (length atracks)) as [E|N].
      + rewrite last_as_nth in Hlast, Hl. rewrite Hlen in Hlast.
        replace (length atracks - 1)%nat with i in Hlast, Hl by lia. lia.
      + destruct (Hmid (S i) ltac:(lia)) as [_ Hsp].
        rewrite Nat.sub_succ, Nat.sub_0_r in Hsp. rewrite Hsp.
        apply midpoint_bounds. apply Hinc. lia. }
  intros L HL.
  apply (@chained_intervals_cover (atracks_start atracks) stops
           (length atracks) 65535 L) with (d := (length atracks - 1)%nat) (k := 0%nat);
    try lia.
  - intros i Hi. destruct (Hmid (S i) ltac:(lia)) as [Hst Hsp].
    rewrite Nat.sub_succ, Nat.sub_0_r in Hst, Hsp. rewrite Hst, Hsp.
    apply trunc_le_ceiling.
  - rewrite <- Hlen, <- last_as_nth. exact Hlast.
Qed.

Lemma strictly_increasing_0_501_1002 : strictly_increasing [0; 501; 1002].
Proof.
  intros i Hi. simpl in Hi.
  destruct i as [|[|i]]; simpl; lia.
Defined.

Lemma noise_lut_range_intervals_witness :
  [0; 501; 1002] <> []
  /\ strictly_increasing [0; 501; 1002]
  /\ atracks_start [0; 501; 1002] = [0; 250; 751]
  /\ atracks_stop [0; 501; 1002] = Ok [251; 752; 65535]
  /\ exists i, (i < 3)%nat
       /\ nth i (atracks_start [0; 501; 1002]) 0 <= 250
          < nth i [251; 752; 65535] 0.
Proof.
  split; [discriminate|]. split; [exact strictly_increasing_0_501_1002|].
  split; [reflexivity|]. split; [reflexivity|].
  destruct (@noise_lut_range_intervals [0; 501; 1002] ltac:(discriminate)
              strictly_increasing_0_501_1002)
    as [stops [Hs [_ [_ [_ [_ [_ [_ Hcov]]]]]]]].
  injection Hs as <-.
  apply (Hcov 250). cbn. lia.
Defined.

(** C2 as worded fails: with samples at lines 0 and 501 the second
    interval starts at line 250 and the first stops at line 251. *)
Lemma range_intervals_abut_counterexample : ~ range_intervals_abut [0; 501].
Proof.
  intros [stops [Hs [_ [Hadj _]]]].
  injection Hs as <-.
  specialize (Hadj 1%nat ltac:(simpl; lia)).
  vm_compute in Hadj. discriminate.
Qed.

(** With a first sample above line 1 the first interval does not start
    at 0 either. *)
Lemma atracks_start_first_sample_10 : atracks_start [10; 20] = [5; 15].
Proof. reflexivity. Qed.

End RangeCoverage.

Section RangeBlocks.

Context {F : Type} {ops : FloatOps F}.

Lemma mapM_nth_error {A B : Type} (f : A -> result B) (l : list A) (bs : list B)
    (i : nat) (b : B) :
  mapM f l = Ok bs -> nth_error bs i = Some b ->
  exists a, nth_error l i = Some a /\ f a = Ok b.
Proof.
  revert bs i; induction l as [|a l IH]; intros bs i H Hi; cbn [mapM] in H.
  - inv_Ok H. now destruct i.
  - inv_bind H. inv_bind H. inv_Ok H. destruct i as [|i]; cbn in Hi.
    + inv_Ok Hi. exists a. now split.
    + now apply (IH v0).
Qed.

Lemma zip4_nth_error {A B C D : Type} (la : list A) (lb : list B) (lc : list C)
    (ld : list D) (i : nat) (a : A) (b : B) (c : C) (d : D) :
  nth_error (zip4 la lb lc ld) i = Some (a, b, c, d) ->
  nth_error la i = Some a /\ nth_error lb i = Some b
  /\ nth_error lc i = Some c /\ nth_error ld i = Some d.
Proof.
  revert lb lc ld i; induction la as [|a0 la IH];
    intros [|b0 lb] [|c0 lc] [|d0 ld] [|i]; cbn; try discriminate.
  - intros H. now inv_Ok H.
  - apply IH.
Qed.

Lemma first_hd (x : list Z) (v : Z) : first x = Ok v -> v = hd 0%Z x.
Proof. destruct x; simpl; intros H; [discriminate | now inv_Ok H]. Qed.

Lemma last_item_eq (x : list Z) (v : Z) : last_item x = Ok v -> v = last x 0%Z.
Proof.
  intros H. destruct x as [|a x]; [discriminate|].
  rewrite (@last_item_last Z (a :: x) 0%Z) in H by discriminate. now inv_Ok H.
Qed.

Lemma range_block_geometry (s e : Z) (x : list Z) (l : list F) (b : block F) :
  range_block (s, e, x, l) = Ok b ->
  geometry b = shapely_box (inject_Z s) (inject_Z (hd 0%Z x))
                           (inject_Z e) (inject_Z (last x 0%Z)).
Proof.
  unfold range_block, new_Lut_box_range. intros H.
  destruct (first x) as [xf|] eqn:Ef; [|discriminate].
  destruct (last_item x) as [xl|] eqn:El; [|discriminate].
  cbn [bind] in H.
  destruct (new_interp1d x l false) as [f|]; [|discriminate].
  cbn [bind] in H. inv_Ok H. cbn [geometry lbr_area].
  now rewrite (first_hd _ Ef), (last_item_eq _ El).
Qed.

(** X18. Block [i] of [noise_lut_range] spans, along-track, the interval
    [i], and cross-track the extent of its profile. *)
Lemma noise_lut_range_geometry (atracks : list Z) (xtracks : list (list Z))
    (noiseLuts : list (list F)) (lut : NoiseLut F) :
  noise_lut_range atracks xtracks noiseLuts = Ok lut ->
  exists stops,
    atracks_stop atracks = Ok stops
    /\ forall i b, nth_error (blocks lut) i = Some b ->
         exists s e x,
           nth_error (atracks_start atracks) i = Some s
           /\ nth_error stops i = Some e
           /\ nth_error xtracks i = Some x
           /\ geometry b = shapely_box (inject_Z s) (inject_Z (hd 0%Z x))
                                       (inject_Z e) (inject_Z (last x 0%Z)).
Proof.
  unfold noise_lut_range. intros H. inv_bind H. inv_bind H. inv_bind H. inv_Ok H.
  exists v. split; [exact Hv|]. cbn [blocks].
  unfold blocks_frame in Hv1. destruct v0 as [|b0 bs]; [discriminate|]. inv_Ok Hv1.
  intros i b Hb.
  destruct (mapM_nth_error _ _ _ Hv0 Hb) as [[[[s e] x] l] [Hz Hrb]].
  apply zip4_nth_error in Hz. destruct Hz as [Hs [He [Hx _]]].
  exists s, e, x. repeat split; try assumption.
  now apply range_block_geometry in Hrb.
Qed.

End RangeBlocks.

(** ** The evaluator [_NoiseLut.__call__] *)

Section Writes.

Context {F : Type}.

Lemma write_row_length (mask : list bool) (row vals : list F) :
  length (write_row mask row vals) = length row.
Proof.
  revert row vals; induction mask as [|b mask IH]; intros [|old row] vals;
    try reflexivity.
  destruct b; [destruct vals as [|v vals]|]; simpl; now rewrite IH.
Qed.

Lemma write_row_unchanged (mask : list bool) (row vals : list F) (j : nat) (d : F) :
  nth j mask false = false -> nth j (write_row mask row vals) d = nth j row d.
Proof.
  revert row vals j; induction mask as [|b mask IH]; intros [|old row] vals j Hj;
    try reflexivity.
  destruct j as [|j].
  - simpl in Hj. subst b. reflexivity.
  - simpl in Hj. destruct b; [destruct vals as [|v vals]|]; simpl; now apply IH.
Qed.

Lemma write_rows_length (mask_a mask_x : list bool) (noise vals : list (list F)) :
  length (write_rows mask_a mask_x noise vals) = length noise.
Proof.
  revert noise vals; induction mask_a as [|b mask_a IH]; intros [|old noise] vals;
    try reflexivity.
  destruct b; [destruct vals as [|v vals]|]; simpl; now rewrite IH.
Qed.

Lemma write_rows_width (mask_a mask_x : list bool) (noise vals : list (list F))
    (c : nat) :
  Forall (fun row => length row = c) noise ->
  Forall (fun row => length row = c) (write_rows mask_a mask_x noise vals).
Proof.
  revert noise vals; induction mask_a as [|b mask_a IH]; intros [|old noise] vals H;
    try assumption.
  inversion H as [|? ? Hold Hrest]; subst.
  destruct b; [destruct vals as [|v vals]|]; simpl; constructor;
    try (now apply IH); try reflexivity.
  apply write_row_length.
Qed.

Lemma write_rows_unchanged (mask_a mask_x : list bool) (noise vals : list (list F))
    (i j : nat) (d : F) :
  nth i mask_a false = false \/ nth j mask_x false = false ->
  nth j (nth i (write_rows mask_a mask_x noise vals) []) d
  = nth j (nth i noise []) d.
Proof.
  revert noise vals i; induction mask_a as [|b mask_a IH];
    intros [|old noise] vals i H; try reflexivity.
  destruct i as [|i].
  - destruct b; [destruct vals as [|v vals]|]; simpl; try reflexivity.
    destruct H as [H|H]; [discriminate|]. now apply write_row_unchanged.
  - destruct b; [destruct vals as [|v vals]|]; simpl; now apply IH.
Qed.

Lemma between_nth (lo hi : Z) (coords : list Z) (i : nat) :
  (i < length coords)%nat ->
  nth i (between lo hi coords) false
  = ((lo <=? nth i coords 0) && (nth i coords 0 <=? hi))%Z.
Proof.
  revert i; induction coords as [|v coords IH]; intros [|i] Hi;
    simpl in *; try lia; try reflexivity.
  apply IH. lia.
Qed.

End Writes.

Section Evaluator.

Context {F : Type} {ops : FloatOps F}.

Implicit Types (noise : list (list F)) (atracks xtracks : list Z).

(** One iteration keeps the shape of the array and changes no position
    outside the sub-ranges of its block. *)
Lemma eval_block_frame atracks xtracks noise noise' (bg : block F * box) (c : nat) :
  eval_block atracks xtracks noise bg = Ok noise' ->
  length noise' = length noise
  /\ (Forall (fun row => length row = c) noise ->
      Forall (fun row => length row = c) noise')
  /\ forall i j, (i < length atracks)%nat -> (j < length xtracks)%nat ->
       ~ in_int_bounds (snd bg) (nth i atracks 0%Z) (nth j xtracks 0%Z) ->
       nth j (nth i noise' []) nan = nth j (nth i noise []) nan.
Proof.
  unfold eval_block, int_bounds. intros H.
  inv_bind H. unfold loc_assign in H.
  destruct (negb _); [discriminate|]. inv_bind H. inv_Ok H.
  split; [apply write_rows_length|].
  split; [apply write_rows_width|].
  intros i j Hi Hj Hout. apply write_rows_unchanged.
  rewrite !between_nth by assumption.
  unfold in_int_bounds in Hout.
  destruct ((_ <=? nth i atracks 0) && (nth i atracks 0 <=? _))%Z eqn:Ea;
    [|now left].
  destruct ((_ <=? nth j xtracks 0) && (nth j xtracks 0 <=? _))%Z eqn:Ex;
    [|now right].
  exfalso. apply Hout.
  apply andb_prop in Ea, Ex. destruct Ea as [Ea1 Ea2], Ex as [Ex1 Ex2].
  apply Z.leb_le in Ea1, Ea2, Ex1, Ex2. lia.
Qed.

Lemma eval_blocks_frame atracks xtracks (bgs : list (block F * box)) noise noise'
    (c : nat) :
  eval_blocks atracks xtracks noise bgs = Ok noise' ->
  length noise' = length noise
  /\ (Forall (fun row => length row = c) noise ->
      Forall (fun row => length row = c) noise')
  /\ forall i j, (i < length atracks)%nat -> (j < length xtracks)%nat ->
       (forall bg, In bg bgs ->
          ~ in_int_bounds (snd bg) (nth i atracks 0%Z) (nth j xtracks 0%Z)) ->
       nth j (nth i noise' []) nan = nth j (nth i noise []) nan.
Proof.
  revert noise; induction bgs as [|bg bgs IH]; intros noise H.
  - inv_Ok H. auto.
  - cbn [eval_blocks] in H. inv_bind H.
    destruct (eval_block_frame _ _ _ _ c Hv) as [L1 [W1 U1]].
    destruct (IH _ H) as [L2 [W2 U2]].
    split; [congruence|]. split; [auto|].
    intros i j Hi Hj Hout.
    rewrite U2 by (auto; intros; apply Hout; now right).
    apply U1; auto. apply Hout. now left.
Qed.

(** Blocks that behave well are evaluated without error, provided the
    coordinates are usable as labels. *)
Lemma eval_blocks_total atracks xtracks (bgs : list (block F * box)) noise :
  unique atracks = true -> unique xtracks = true ->
  (forall bg, In bg bgs -> well_behaved (fst bg)) ->
  exists noise', eval_blocks atracks xtracks noise bgs = Ok noise'.
Proof.
  intros Ua Ux. revert noise; induction bgs as [|bg bgs IH]; intros noise Hwb.
  - now exists noise.
  - cbn [eval_blocks]. unfold eval_block at 1, int_bounds.
    destruct (Hwb bg (or_introl eq_refl)
                (select (between (Qtrunc (minx (snd bg))) (Qtrunc (maxx (snd bg))) atracks)
                        atracks)
                (select (between (Qtrunc (miny (snd bg))) (Qtrunc (maxy (snd bg))) xtracks)
                        xtracks))
      as [v [vals [Hv Hb]]].
    rewrite Hv. cbn [bind]. unfold loc_assign. rewrite Ua, Ux. cbn [andb negb].
    rewrite Hb. cbn [bind].
    apply IH. intros bg' Hin. apply Hwb. now right.
Qed.

Lemma asked_box_total atracks xtracks :
  atracks <> [] -> xtracks <> [] ->
  asked_box atracks xtracks
  = Ok (shapely_box (qmax 0 (inject_Z (hd 0%Z atracks) - half))
                    (qmax 0 (inject_Z (hd 0%Z xtracks) - half))
                    (inject_Z (last atracks 0%Z) + half)
                    (inject_Z (last xtracks 0%Z) + half)).
Proof.
  intros Ha Hx. unfold asked_box.
  rewrite (last_item_last 0%Z Ha), (last_item_last 0%Z Hx).
  destruct atracks; [congruence|]. destruct xtracks; [congruence|]. reflexivity.
Qed.

Lemma repeat_nan_shape (r c : nat) :
  has_shape (repeat (repeat (@nan F ops) c) r) r c.
Proof.
  split; [apply repeat_length|].
  apply Forall_forall. intros row Hrow. apply repeat_spec in Hrow. subst.
  apply repeat_length.
Qed.


(** With a block at least and non-empty queries, the evaluation is the
    loop over the matching blocks, started from the all-NaN array. *)
Lemma NoiseLut_call_loop (self : NoiseLut F) atracks xtracks :
  blocks self <> [] -> atracks <> [] -> xtracks <> [] ->
  exists asked,
    asked_box atracks xtracks = Ok asked
    /\ NoiseLut_call self atracks xtracks
       = (noise <- eval_blocks atracks xtracks
                     (repeat (repeat nan (length xtracks)) (length atracks))
                     (match_blocks (blocks self) asked) ;;
          Ok (Values noise)).
Proof.
  intros Hb Ha Hx. eexists. split; [apply (asked_box_total Ha Hx)|].
  unfold NoiseLut_call. destruct (blocks self); [congruence|].
  cbn [length Nat.eqb]. now rewrite (asked_box_total Ha Hx).
Qed.

(** C3. A [_NoiseLut] whose block collection is empty evaluates to the
    Python integer 1, and not to an array, whatever the query coordinates
    (empty or not). *)
Theorem NoiseLut_call_no_block (self : NoiseLut F) (atracks xtracks : list Z) :
  blocks self = [] ->
  NoiseLut_call self atracks xtracks = Ok (PyInt 1)
  /\ forall rows, NoiseLut_call self atracks xtracks <> Ok (Values rows).
Proof.
  intros Hb. unfold NoiseLut_call. rewrite Hb. cbn [length Nat.eqb].
  split; [reflexivity|]. intros rows H. discriminate.
Qed.

(** The integer is returned in that case only. *)
Lemma NoiseLut_call_PyInt (self : NoiseLut F) atracks xtracks (n : Z) :
  NoiseLut_call self atracks xtracks = Ok (PyInt n) -> blocks self = [] /\ n = 1%Z.
Proof.
  unfold NoiseLut_call. destruct (blocks self) as [|b bs]; simpl.
  - intros H. now inv_Ok H.
  - intros H. inv_bind H. inv_bind H. discriminate.
Qed.


End Evaluator.

(** ** Coordinates: order, rounding, increasing arrays *)

Section Coordinates.

Local Open Scope Q_scope.

Lemma qmax_l (a b : Q) : a <= qmax a b.
Proof.
  unfold qmax. destruct (Qle_bool b a) eqn:E; [apply Qle_refl|].
  apply Qlt_le_weak, Qnot_le_lt. intros H.
  apply Qle_bool_iff in H. congruence.
Qed.

Lemma qmax_r (a b : Q) : b <= qmax a b.
Proof.
  unfold qmax. destruct (Qle_bool b a) eqn:E; [|apply Qle_refl].
  now apply Qle_bool_iff.
Qed.

Lemma qmax_lub (a b c : Q) : a <= c -> b <= c -> qmax a b <= c.
Proof. unfold qmax. now destruct (Qle_bool b a). Qed.

Lemma qmin_l (a b : Q) : qmin a b <= a.
Proof.
  unfold qmin. destruct (Qle_bool a b) eqn:E; [apply Qle_refl|].
  apply Qlt_le_weak, Qnot_le_lt. intros H.
  apply Qle_bool_iff in H. congruence.
Qed.

Lemma qmin_r (a b : Q) : qmin a b <= b.
Proof.
  unfold qmin. destruct (Qle_bool a b) eqn:E; [|apply Qle_refl].
  now apply Qle_bool_iff.
Qed.

Lemma qmin_glb (a b c : Q) : c <= a -> c <= b -> c <= qmin a b.
Proof. unfold qmin. now destruct (Qle_bool a b). Qed.

Lemma Qtrunc_nonneg (q : Q) : 0 <= q -> Qtrunc q = Qfloor q.
Proof.
  intros Hq. unfold Qtrunc, Qfloor. destruct q as [n d].
  apply Z.quot_div_nonneg; [|reflexivity].
  unfold Qle in Hq. simpl in *. lia.
Qed.

Lemma Qtrunc_le (q : Q) (z : Z) : 0 <= q -> q <= inject_Z z -> (Qtrunc q <= z)%Z.
Proof.
  intros H0 Hq. rewrite (Qtrunc_nonneg H0), <- (Qfloor_Z z).
  now apply Qfloor_resp_le.
Qed.

Lemma Qtrunc_ge (q : Q) (z : Z) : (0 <= z)%Z -> inject_Z z <= q -> (z <= Qtrunc q)%Z.
Proof.
  intros H0 Hq.
  assert (Hq0 : 0 <= q).
  { apply Qle_trans with (inject_Z z); [|exact Hq].
    change 0 with (inject_Z 0). now rewrite <- Zle_Qle. }
  rewrite (Qtrunc_nonneg Hq0), <- (Qfloor_Z z). now apply Qfloor_resp_le.
Qed.

Lemma minus_half_le (z : Z) : inject_Z z - half <= inject_Z z.
Proof. unfold Qle, half. cbn -[Z.mul Z.add Z.opp]. lia. Qed.

Lemma le_plus_half (z : Z) : inject_Z z <= inject_Z z + half.
Proof. unfold Qle, half. cbn -[Z.mul Z.add Z.opp]. lia. Qed.

(** The lower and upper bounds of the asked box on one axis, clipped to
    the sentinel box, enclose every coordinate between the first and the
    last one of an in-image query. *)
Lemma axis_lower (a0 a1 : Z) :
  (0 <= a0)%Z ->
  let lo := qmax 0 (qmin (qmax 0 (inject_Z a0 - half)) (inject_Z a1 + half)) in
  0 <= lo /\ lo <= inject_Z a0.
Proof.
  intros H0 lo. split; [apply qmax_l|].
  assert (Hz : 0 <= inject_Z a0)
    by (change 0 with (inject_Z 0); now rewrite <- Zle_Qle).
  apply qmax_lub; [exact Hz|].
  eapply Qle_trans; [apply qmin_l|].
  apply qmax_lub; [exact Hz | apply minus_half_le].
Qed.

Lemma axis_upper (a0 a1 : Z) :
  (a1 <= 65535)%Z ->
  inject_Z a1
  <= qmin 65535 (qmax (qmax 0 (inject_Z a0 - half)) (inject_Z a1 + half)).
Proof.
  intros H1. apply qmin_glb.
  - change 65535 with (inject_Z 65535). now rewrite <- Zle_Qle.
  - eapply Qle_trans; [apply le_plus_half | apply qmax_r].
Qed.

End Coordinates.

Section Increasing.

Local Open Scope Z_scope.

Lemma strictly_increasing_lt (l : list Z) :
  strictly_increasing l ->
  forall j i, (i < j < length l)%nat -> nth i l 0 < nth j l 0.
Proof.
  intros Hinc. induction j as [|j IH]; intros i Hij; [lia|].
  specialize (Hinc j ltac:(lia)).
  destruct (Nat.eq_dec i j) as [->|Hne]; [exact Hinc|].
  specialize (IH i ltac:(lia)). lia.
Qed.

Lemma strictly_increasing_unique (l : list Z) :
  strictly_increasing l -> unique l = true.
Proof.
  intros Hinc. unfold unique. apply Nat.eqb_eq. f_equal.
  apply nodup_fixed_point. apply (proj2 (NoDup_nth l 0)).
  intros i j Hi Hj E.
  destruct (Nat.lt_trichotomy i j) as [H|[H|H]]; [|exact H|].
  - pose proof (strictly_increasing_lt Hinc (j := j) (i := i)). lia.
  - pose proof (strictly_increasing_lt Hinc (j := i) (i := j)). lia.
Qed.

Lemma strictly_increasing_span (l : list Z) (v : Z) :
  strictly_increasing l -> In v l -> hd 0 l <= v <= last l 0.
Proof.
  intros Hinc Hin. destruct (In_nth l v 0 Hin) as [i [Hi <-]].
  rewrite last_as_nth. replace (hd 0 l) with (nth 0 l 0) by (now destruct l).
  split.
  - destruct i as [|i]; [lia|].
    pose proof (strictly_increasing_lt Hinc (j := S i) (i := 0%nat)). lia.
  - destruct (Nat.eq_dec i (length l - 1)) as [->|Hne]; [lia|].
    pose proof (strictly_increasing_lt Hinc (j := (length l - 1)%nat) (i := i)). lia.
Qed.

End Increasing.

Section FullMasks.

Context {F : Type}.

Lemma between_all (lo hi : Z) (coords : list Z) :
  Forall (fun v => (lo <= v <= hi)%Z) coords ->
  between lo hi coords = repeat true (length coords).
Proof.
  induction 1 as [|v coords [H1 H2] _ IH]; [reflexivity|].
  simpl. rewrite IH.
  now rewrite (proj2 (Z.leb_le _ _) H1), (proj2 (Z.leb_le _ _) H2).
Qed.

Lemma select_all {A : Type} (l : list A) : select (repeat true (length l)) l = l.
Proof. induction l as [|a l IH]; simpl; [reflexivity | now rewrite IH]. Qed.

Lemma write_row_all (row vals : list F) :
  length vals = length row -> write_row (repeat true (length row)) row vals = vals.
Proof.
  revert vals; induction row as [|old row IH]; intros [|v vals] Hlen;
    simpl in *; try discriminate; [reflexivity|].
  f_equal. apply IH. lia.
Qed.

Lemma write_rows_all (c : nat) (noise vals : list (list F)) :
  length vals = length noise ->
  Forall (fun row => length row = c) noise ->
  Forall (fun row => length row = c) vals ->
  write_rows (repeat true (length noise)) (repeat true c) noise vals = vals.
Proof.
  revert vals; induction noise as [|old noise IH]; intros [|v vals] Hlen Hn Hv;
    simpl in *; try discriminate; [reflexivity|].
  pose proof (Forall_inv Hn) as Hold. pose proof (Forall_inv Hv) as Hv1.
  apply Forall_inv_tail in Hn, Hv. cbv beta in Hold, Hv1.
  f_equal.
  - rewrite <- Hold at 1. apply write_row_all. congruence.
  - apply IH; [lia | assumption | assumption].
Qed.

Lemma repeat_width {A : Type} (v : A) (r c : nat) :
  Forall (fun row => length row = c) (repeat (repeat v c) r).
Proof.
  apply Forall_forall. intros row Hrow. apply repeat_spec in Hrow. subst.
  apply repeat_length.
Qed.

End FullMasks.

(** ** noise_lut_azi without azimuth noise records *)

Section NoAziNoise.

Context {F : Type} {ops : FloatOps F}.

Lemma no_azi_block_geometry :
  geometry (@no_azi_block F ops) = mkbox 0 0 65535 65535.
Proof. reflexivity. Qed.

(** On one axis, an increasing in-image query lies within the integer
    bounds of the intersection of its asked box with the sentinel box. *)
Lemma axis_interval_nonempty (a0 a1 : Z) :
  (0 <= a0 <= a1)%Z -> (a1 <= 65535)%Z ->
  Qle_bool (qmax 0 (qmin (qmax 0 (inject_Z a0 - half)) (inject_Z a1 + half)))
           (qmin 65535 (qmax (qmax 0 (inject_Z a0 - half)) (inject_Z a1 + half)))
  = true.
Proof.
  intros H0 H1. apply Qle_bool_iff.
  destruct (@axis_lower a0 a1 ltac:(lia)) as [_ Hlo].
  eapply Qle_trans; [exact Hlo|].
  eapply Qle_trans; [|apply (axis_upper a0 H1)].
  rewrite <- Zle_Qle. lia.
Qed.

Lemma axis_between_all (coords : list Z) :
  coords <> [] -> strictly_increasing coords -> Forall in_image coords ->
  let a0 := hd 0%Z coords in
  let a1 := last coords 0%Z in
  (0 <= a0 <= a1)%Z /\ (a1 <= 65535)%Z
  /\ between
       (Qtrunc (qmax 0 (qmin (qmax 0 (inject_Z a0 - half)) (inject_Z a1 + half))))
       (Qtrunc (qmin 65535 (qmax (qmax 0 (inject_Z a0 - half)) (inject_Z a1 + half))))
       coords
     = repeat true (length coords).
Proof.
  intros Hne Hinc Himg a0 a1.
  assert (Hin0 : In a0 coords) by (destruct coords; [congruence | now left]).
  assert (Hin1 : In a1 coords).
  { subst a1. destruct coords as [|c coords]; [congruence|].
    apply (@exists_last _ (c :: coords)) in Hne. destruct Hne as [l' [a E]].
    rewrite E, last_last. apply in_or_app. right. now left. }
  pose proof (proj1 (Forall_forall _ _) Himg) as Himg'.
  pose proof (Himg' _ Hin0) as [H00 H01].
  pose proof (Himg' _ Hin1) as [H10 H11].
  pose proof (@strictly_increasing_span coords a1 Hinc Hin1) as [H01' _].
  fold a0 in H01'.
  split; [lia|]. split; [lia|].
  apply between_all. apply Forall_forall. intros v Hv.
  pose proof (@strictly_increasing_span coords v Hinc Hv) as [Hv0 Hv1].
  fold a0 in Hv0. fold a1 in Hv1.
  destruct (@axis_lower a0 a1 H00) as [Hlo0 Hlo].
  split.
  - apply Z.le_trans with a0; [|exact Hv0]. now apply Qtrunc_le.
  - apply Z.le_trans with a1; [exact Hv1|].
    apply Qtrunc_ge; [lia|]. now apply axis_upper.
Qed.

(** C5. With no azimuth-noise record, [noise_lut_azi] returns a table of
    exactly one block, whose geometry is the rectangle (0,0)-(65535,65535)
    and whose interpolant returns 1 for every query; its evaluation on
    increasing in-image coordinates is 1 everywhere. *)
Theorem noise_lut_azi_no_record (S : Type) :
  noise_lut_azi (S := S) [] [] [] [] [] [] [] = Ok (mkNoiseLut [no_azi_block])
  /\ geometry (@no_azi_block F ops) = mkbox 0 0 65535 65535
  /\ (forall a x, lut_f no_azi_block a x = Ok (Scalar (of_Z 1)))
  /\ forall atracks xtracks,
       atracks <> [] -> xtracks <> [] ->
       strictly_increasing atracks -> strictly_increasing xtracks ->
       Forall in_image atracks -> Forall in_image xtracks ->
       NoiseLut_call (mkNoiseLut [no_azi_block]) atracks xtracks
       = Ok (Values (repeat (repeat (of_Z 1) (length xtracks)) (length atracks))).
Proof.
  split; [reflexivity|]. split; [reflexivity|]. split; [reflexivity|].
  intros atracks xtracks Ha Hx Ia Ix Ma Mx.
  destruct (axis_between_all Ha Ia Ma) as [Ha0 [Ha1 Hba]].
  destruct (axis_between_all Hx Ix Mx) as [Hx0 [Hx1 Hbx]].
  unfold NoiseLut_call. cbn [blocks length Nat.eqb].
  rewrite (asked_box_total Ha Hx). cbn [bind].
  unfold match_blocks. cbn [flat_map]. rewrite no_azi_block_geometry.
  unfold intersection, shapely_box. cbn [minx miny maxx maxy].
  rewrite (axis_interval_nonempty Ha0 Ha1), (axis_interval_nonempty Hx0 Hx1).
  cbn [andb app eval_blocks]. unfold eval_block, int_bounds.
  cbn [fst snd minx miny maxx maxy].
  rewrite Hba, Hbx, !select_all. cbn [lut_f no_azi_block bind].
  unfold loc_assign.
  rewrite (strictly_increasing_unique Ia), (strictly_increasing_unique Ix).
  cbn [andb negb]. rewrite !select_all. cbn [broadcast_to bind].
  do 2 f_equal.
  rewrite <- (repeat_length (repeat (@nan F ops) (length xtracks)) (length atracks)) at 1.
  apply write_rows_all.
  - now rewrite !repeat_length.
  - apply repeat_width.
  - apply repeat_width.
Qed.

End NoAziNoise.

(** ** noise_lut_azi: the interpolant of a block *)

Section AziProfile.

Context {F : Type} {ops : FloatOps F}.

Local Open Scope Z_scope.

(** [searchsorted] returns the first position whose sample is not below
    the query. *)
Lemma searchsorted_spec (x : list Z) (q : Z) :
  (searchsorted x q <= length x)%nat
  /\ (forall i, (i < searchsorted x q)%nat -> nth i x 0 < q)
  /\ ((searchsorted x q < length x)%nat -> q <= nth (searchsorted x q) x 0).
Proof.
  induction x as [|v x [IH1 [IH2 IH3]]]; simpl.
  - split; [lia|]. split; intros; lia.
  - destruct (Z.ltb_spec v q) as [Hlt|Hge].
    + split; [lia|]. split.
      * intros [|i] Hi; [exact Hlt|]. apply IH2. lia.
      * intros Hs. apply IH3. lia.
    + split; [lia|]. split; [intros; lia|]. intros _. exact Hge.
Qed.

(** The segment [call_linear] evaluates: the bracketing one inside the
    profile, the first one below it, the last one above it. *)
Lemma call_linear_segment (x : list Z) (y : list F) (q : Z) :
  (2 <= length x)%nat ->
  exists k,
    (1 <= k < length x)%nat
    /\ call_linear x y q
       = line_through (nth (k - 1) x 0) (nth (k - 1) y nan) (nth k x 0) (nth k y nan) q
    /\ ((nth (k - 1) x 0 < q <= nth k x 0)
        \/ (k = 1%nat /\ q <= nth 0 x 0)
        \/ (k = (length x - 1)%nat /\ nth (length x - 1) x 0 < q)).
Proof.
  intros Hn. destruct (searchsorted_spec x q) as [S1 [S2 S3]].
  exists (clip (searchsorted x q) 1 (length x - 1)).
  unfold call_linear, clip.
  split; [lia|]. split; [reflexivity|].
  destruct (Nat.eq_dec (searchsorted x q) 0) as [E0|N0].
  - right; left. rewrite E0 in *. split; [lia|]. apply S3. lia.
  - destruct (Nat.eq_dec (searchsorted x q) (length x)) as [En|Nn].
    + right; right. rewrite En.
      replace (Nat.min (Nat.max (length x) 1) (length x - 1)) with (length x - 1)%nat
        by lia.
      split; [reflexivity|]. apply S2. lia.
    + left.
      replace (Nat.min (Nat.max (searchsorted x q) 1) (length x - 1))
        with (searchsorted x q) by lia.
      split; [apply S2; lia | apply S3; lia].
Qed.

Lemma broadcast_single_row (v : F) (ka kx : nat) :
  broadcast_to ka kx (Array2 [repeat v kx]) = Ok (repeat (repeat v kx) ka).
Proof.
  unfold broadcast_to. cbn [mapM]. unfold broadcast_row.
  rewrite repeat_length, Nat.eqb_refl. cbn [bind length].
  destruct (Nat.eqb_spec 1 ka) as [<-|_]; reflexivity.
Qed.


End AziProfile.

(** ** The interpolant in exact arithmetic *)

Section InterpolationQ.

Local Open Scope Z_scope.

(** With exact rationals, the line through two samples passes through
    both of them. *)
Lemma line_through_ends (x_lo x_hi : Z) (y_lo y_hi : Q) :
  x_lo < x_hi ->
  (exists v, line_through x_lo (Some y_lo) x_hi (Some y_hi) x_lo = Some v
             /\ (v == y_lo)%Q)
  /\ (exists v, line_through x_lo (Some y_lo) x_hi (Some y_hi) x_hi = Some v
                /\ (v == y_hi)%Q).
Proof.
  intros Hlt.
  assert (Hne : ~ (inject_Z (x_hi - x_lo) == 0)%Q).
  { intros E. unfold Qeq in E. simpl in E. lia. }
  assert (Hb : Qeq_bool (inject_Z (x_hi - x_lo)) 0 = false).
  { destruct (Qeq_bool _ 0) eqn:E; [|reflexivity].
    apply Qeq_bool_eq in E. contradiction. }
  unfold line_through. cbn [fdiv fsub fmul fadd of_Z Q_FloatOps Qlift].
  rewrite Hb. cbn [Qlift]. split; eexists; (split; [reflexivity|]).
  - rewrite Z.sub_diag. change (inject_Z 0) with 0%Q. ring.
  - field. exact Hne.
Qed.

(** The interpolant of a profile with increasing positions returns each
    sample at its own position. *)
Lemma call_linear_at_sample (a : list Z) (lut : list Q) (k : nat) :
  strictly_increasing a -> length a = length lut -> (2 <= length a)%nat ->
  (k < length a)%nat ->
  exists v, call_linear a (map Some lut) (nth k a 0) = Some v
            /\ (v == nth k lut 0%Q)%Q.
Proof.
  intros Hinc Hlen Hn Hk.
  assert (Hmono : forall i j, (i < length a)%nat -> (j < length a)%nat ->
            nth i a 0 <= nth j a 0 -> (i <= j)%nat).
  { intros i j Hi Hj Hle. destruct (Nat.le_gt_cases i j) as [H|H]; [exact H|].
    pose proof (strictly_increasing_lt Hinc (j := i) (i := j)). lia. }
  assert (Hnth : forall i, nth i (map Some lut) (@nan _ Q_FloatOps)
                           = if (i <? length lut)%nat then Some (nth i lut 0%Q) else None).
  { intros i. destruct (Nat.ltb_spec i (length lut)) as [Hi|Hi].
    - rewrite (nth_indep _ nan (Some 0%Q)) by (now rewrite length_map).
      apply map_nth.
    - apply nth_overflow. now rewrite length_map. }
  destruct (@call_linear_segment _ Q_FloatOps a (map Some lut) (nth k a 0) Hn)
    as [k' [Hk' [Hv Hseg]]].
  rewrite Hv, !Hnth.
  rewrite (proj2 (Nat.ltb_lt (k' - 1) (length lut))) by lia.
  rewrite (proj2 (Nat.ltb_lt k' (length lut))) by lia.
  assert (Hstep : nth (k' - 1) a 0 < nth k' a 0).
  { specialize (Hinc (k' - 1)%nat). replace (S (k' - 1)) with k' in Hinc by lia.
    apply Hinc. lia. }
  destruct (line_through_ends (nth (k' - 1) lut 0%Q) (nth k' lut 0%Q) Hstep)
    as [Hlo Hhi].
  destruct Hseg as [[H1 H2]|[[-> H2]|[-> H2]]].
  - assert (k = k').
    { pose proof (Hmono k k' Hk ltac:(lia) H2).
      destruct (Nat.eq_dec k k') as [E|N]; [exact E|].
      pose proof (Hmono k' k ltac:(lia) Hk) as Hc.
      assert (nth k a 0 <= nth (k' - 1) a 0); [|lia].
      destruct (Nat.eq_dec k (k' - 1)) as [->|N']; [lia|].
      pose proof (strictly_increasing_lt Hinc (j := (k' - 1)%nat) (i := k)). lia. }
    subst k'. exact Hhi.
  - assert (k = 0%nat) by (pose proof (Hmono k 0%nat Hk ltac:(lia) H2); lia).
    subst k. exact Hlo.
  - exfalso.
    destruct (Nat.eq_dec k (length a - 1)) as [->|N]; [lia|].
    pose proof (strictly_increasing_lt Hinc (j := (length a - 1)%nat) (i := k)). lia.
Qed.

End InterpolationQ.

(** ** bursts *)

Section BurstsProps.

Context {TimeT AnxT OffT : Type}.
Variable nan_to_int32 : result Z.
Variable overflow_to_int32 : Z -> result Z.


Lemma item_nth {A : Type} (l : list A) (i : nat) (d : A) :
  (i < length l)%nat -> item l i = Ok (nth i l d).
Proof.
  intros Hi. unfold item.
  now rewrite (nth_error_nth' l d Hi).
Qed.

Lemma where_from_sound (mask : list bool) (i k : nat) :
  In k (where_from i mask) ->
  (i <= k < i + length mask)%nat /\ nth (k - i) mask false = true.
Proof.
  revert i; induction mask as [|b mask IH]; intros i Hin; [contradiction|].
  simpl in Hin. destruct b.
  - destruct Hin as [<-|Hin].
    + simpl. rewrite Nat.sub_diag. split; [lia | reflexivity].
    + destruct (IH _ Hin) as [Hk Hn]. simpl. split; [lia|].
      replace (k - i)%nat with (S (k - S i)) by lia. exact Hn.
  - destruct (IH _ Hin) as [Hk Hn]. simpl. split; [lia|].
    replace (k - i)%nat with (S (k - S i)) by lia. exact Hn.
Qed.

Lemma where_from_complete (mask : list bool) (i j : nat) :
  nth j mask false = true -> In (i + j)%nat (where_from i mask).
Proof.
  revert i j; induction mask as [|b mask IH]; intros i j Hj.
  - now destruct j.
  - destruct j as [|j]; simpl in Hj.
    + subst b. simpl. left. lia.
    + specialize (IH (S i) j Hj). replace (i + S j)%nat with (S i + j)%nat by lia.
      simpl. destruct b; [now right | assumption].
Qed.

Lemma take_total {A : Type} (a : list A) (idx : list nat) (d : A) :
  Forall (fun k => (k < length a)%nat) idx ->
  take a idx = Ok (map (fun k => nth k a d) idx).
Proof.
  intros H. unfold take. apply mapM_Ok_map.
  eapply Forall_impl; [|exact H]. intros k Hk. now apply item_nth.
Qed.

Lemma reduce_total {A : Type} (f : A -> A -> A) (l : list A) :
  l <> [] -> exists v, reduce f l = Ok v.
Proof. destruct l; [congruence | simpl; eauto]. Qed.

Lemma map2_orb_nth (l1 l2 : list bool) (j : nat) :
  length l1 = length l2 ->
  nth j (map2 orb l1 l2) false = nth j l1 false || nth j l2 false.
Proof.
  revert l2 j; induction l1 as [|a l1 IH]; intros [|b l2] [|j] Hlen;
    simpl in *; try discriminate; try reflexivity.
  apply IH. lia.
Qed.

Lemma isfinite_mask_missing (row : list Z) (j : nat) :
  isfinite (nth j (mask_missing row) None)
  = (j <? length row)%nat && negb (nth j row 0 =? -1)%Z.
Proof.
  revert j; induction row as [|v row IH]; intros [|j]; simpl; try reflexivity.
  - now destruct (v =? -1)%Z.
  - apply IH.
Qed.

(** A fold with an operation that selects one of its operands, below both
    for some preorder, returns a least element. *)
Lemma fold_left_select {A : Type} (f : A -> A -> A) (le : A -> A -> Prop) :
  (forall x, le x x) -> (forall x y z, le x y -> le y z -> le x z) ->
  (forall x y, f x y = x \/ f x y = y) ->
  (forall x y, le (f x y) x) -> (forall x y, le (f x y) y) ->
  forall l a, In (fold_left f l a) (a :: l)
              /\ forall z, In z (a :: l) -> le (fold_left f l a) z.
Proof.
  intros Hrefl Htrans Hsel Hl Hr. induction l as [|b l IH]; intros a.
  - simpl. split; [now left|]. intros z [<-|[]]. apply Hrefl.
  - cbn [fold_left]. destruct (IH (f a b)) as [Hin Hle]. split.
    + destruct Hin as [E|Hin]; [|now right; right].
      rewrite <- E. destruct (Hsel a b) as [->| ->]; [now left | now right; left].
    + intros z [<-|[<-|Hz]].
      * apply Htrans with (f a b); [apply Hle; now left | apply Hl].
      * apply Htrans with (f a b); [apply Hle; now left | apply Hr].
      * apply Hle. now right.
Qed.

Lemma reduce_select {A : Type} (f : A -> A -> A) (le : A -> A -> Prop) (l : list A) :
  (forall x, le x x) -> (forall x y z, le x y -> le y z -> le x z) ->
  (forall x y, f x y = x \/ f x y = y) ->
  (forall x y, le (f x y) x) -> (forall x y, le (f x y) y) ->
  l <> [] ->
  exists m, reduce f l = Ok m /\ In m l /\ forall z, In z l -> le m z.
Proof.
  intros Hrefl Htrans Hsel Hl Hr Hne. destruct l as [|a l]; [congruence|].
  exists (fold_left f l a). split; [reflexivity|].
  now apply fold_left_select.
Qed.

Lemma fold_left_lift_nan (f : Z -> Z -> Z) (l : list Z) (a : Z) :
  fold_left (lift_nan f) (map Some l) (Some a) = Some (fold_left f l a).
Proof. revert a; induction l as [|b l IH]; intros a; simpl; [reflexivity | apply IH]. Qed.

Lemma reduce_lift_nan (f : Z -> Z -> Z) (l : list Z) (m : Z) :
  reduce f l = Ok m -> reduce (lift_nan f) (map Some l) = Ok (Some m).
Proof.
  destruct l as [|a l]; simpl; intros H; [discriminate|].
  inv_Ok H. now rewrite fold_left_lift_nan.
Qed.

Lemma nth_mask_missing (row : list Z) (j : nat) :
  (j < length row)%nat -> nth j row 0%Z <> (-1)%Z ->
  nth j (mask_missing row) None = Some (nth j row 0%Z).
Proof.
  revert j; induction row as [|v row IH]; intros [|j] Hj Hv; simpl in *; try lia.
  - apply Z.eqb_neq in Hv. now rewrite Hv.
  - apply IH; [lia | assumption].
Qed.

(** The valid indices are the ones [np.where] returns. *)
Lemma np_where_valid (frow lrow : list Z) (k : nat) :
  length frow = length lrow ->
  In k (np_where (map2 orb (map isfinite (mask_missing frow))
                           (map isfinite (mask_missing lrow))))
  <-> valid_index frow lrow k.
Proof.
  intros Hlen. unfold np_where, valid_index.
  assert (Hnth : forall j,
            nth j (map2 orb (map isfinite (mask_missing frow))
                            (map isfinite (mask_missing lrow))) false = true
            <-> (j < length frow)%nat
                /\ (nth j frow 0%Z <> (-1)%Z \/ nth j lrow 0%Z <> (-1)%Z)).
  { intros j.
    rewrite map2_orb_nth
      by (unfold mask_missing; now rewrite !length_map).
    change false with (isfinite None). rewrite !map_nth, !isfinite_mask_missing.
    rewrite <- Hlen.
    destruct (Nat.ltb_spec j (length frow)) as [Hj|Hj]; cbn [andb orb].
    - destruct (Z.eqb_spec (nth j frow 0%Z) (-1)), (Z.eqb_spec (nth j lrow 0%Z) (-1));
        cbn; intuition congruence.
    - split; [discriminate | lia]. }
  split.
  - intros Hin. apply where_from_sound in Hin. destruct Hin as [_ Hin].
    rewrite Nat.sub_0_r in Hin. now apply Hnth.
  - intros Hv. apply (where_from_complete _ 0 k). now apply Hnth.
Qed.

(** When the two rows of a burst are missing on the same columns, the box
    is the one the specification describes: the first and last valid index,
    offset by the burst's first line, the least first-valid sample and the
    greatest last-valid sample over the valid indices. *)
Lemma valloc_exact_when_aligned (lines_per_burst : Z) (fvs lvs : list (list Z))
    (ibur : nat) (frow lrow : list Z) :
  nth_error fvs ibur = Some frow -> nth_error lvs ibur = Some lrow ->
  length frow = length lrow ->
  (forall j, (j < length frow)%nat ->
             (nth j frow 0 = -1 <-> nth j lrow 0 = -1)%Z) ->
  (exists j, valid_index frow lrow j) ->
  exists (jmin jmax : nat) (fmin lmax : Z),
    valloc nan_to_int32 overflow_to_int32 lines_per_burst
      (map mask_missing fvs) (map mask_missing lvs) ibur
    = mapM (to_int32 nan_to_int32 overflow_to_int32)
        [Some (Z.of_nat ibur * lines_per_burst + Z.of_nat jmin)%Z; Some fmin;
         Some (Z.of_nat ibur * lines_per_burst + Z.of_nat jmax)%Z; Some lmax]
    /\ least_over (valid_index frow lrow) Z.of_nat (Z.of_nat jmin)
    /\ greatest_over (valid_index frow lrow) Z.of_nat (Z.of_nat jmax)
    /\ least_over (valid_index frow lrow) (fun j => nth j frow 0%Z) fmin
    /\ greatest_over (valid_index frow lrow) (fun j => nth j lrow 0%Z) lmax.
Proof.
  intros Hf Hl Hlen Haligned [j0 Hj0].
  set (mask := map2 orb (map isfinite (mask_missing frow))
                        (map isfinite (mask_missing lrow))).
  set (valind := np_where mask).
  assert (Hvalid : forall k, In k valind <-> valid_index frow lrow k)
    by (intros k; now apply np_where_valid).
  assert (Hne : valind <> []).
  { intros E. apply Hvalid in Hj0. rewrite E in Hj0. contradiction. }
  assert (Hboth : forall k, valid_index frow lrow k ->
            (k < length frow)%nat /\ nth k frow 0%Z <> (-1)%Z
            /\ nth k lrow 0%Z <> (-1)%Z).
  { intros k [Hk Hv]. specialize (Haligned k Hk). intuition. }
  destruct (@reduce_select nat Nat.min le valind) as [jmin [Hjmin [Ijmin Ljmin]]];
    try assumption; try (intros; lia).
  destruct (@reduce_select nat Nat.max ge valind) as [jmax [Hjmax [Ijmax Ljmax]]];
    try assumption; try (intros; lia).
  set (fsel := map (fun k => nth k frow 0%Z) valind).
  set (lsel := map (fun k => nth k lrow 0%Z) valind).
  assert (Hfne : fsel <> []) by (intros E; apply map_eq_nil in E; contradiction).
  assert (Hlne : lsel <> []) by (intros E; apply map_eq_nil in E; contradiction).
  destruct (@reduce_select Z Z.min Z.le fsel) as [fmin [Hfmin [Ifmin Lfmin]]];
    try assumption; try (intros; lia).
  destruct (@reduce_select Z Z.max Z.ge lsel) as [lmax [Hlmax [Ilmax Llmax]]];
    try assumption; try (intros; lia).
  exists jmin, jmax, fmin, lmax. split; [|repeat split].
  - unfold valloc, item. rewrite !nth_error_map, Hf, Hl. cbn [option_map bind].
    unfold np_broadcast2.
    assert (Hmlen : length (map isfinite (mask_missing frow))
                    = length (map isfinite (mask_missing lrow)))
      by (unfold mask_missing; now rewrite !length_map).
    rewrite Hmlen, Nat.eqb_refl. cbn [bind]. fold mask. fold valind.
    unfold np_min_nat, np_max_nat. rewrite Hjmin, Hjmax. cbn [bind].
    assert (Hidx : forall row : list Z, length row = length frow ->
              Forall (fun k => (k < length (mask_missing row))%nat) valind).
    { intros row Hrow. apply Forall_forall. intros k Hk. apply Hvalid in Hk.
      unfold mask_missing. rewrite length_map, Hrow. apply Hk. }
    rewrite (@take_total sample (mask_missing frow) valind None (Hidx frow eq_refl)).
    rewrite (@take_total sample (mask_missing lrow) valind None
               (Hidx lrow (eq_sym Hlen))).
    cbn [bind].
    assert (Hfs : map (fun k => nth k (mask_missing frow) None) valind = map Some fsel).
    { unfold fsel. rewrite map_map. apply map_ext_in. intros k Hk.
      apply Hvalid, Hboth in Hk. now apply nth_mask_missing. }
    assert (Hls : map (fun k => nth k (mask_missing lrow) None) valind = map Some lsel).
    { unfold lsel. rewrite map_map. apply map_ext_in. intros k Hk.
      apply Hvalid, Hboth in Hk. apply nth_mask_missing; [lia | tauto]. }
    rewrite Hfs, Hls. unfold np_min_float, np_max_float.
    rewrite (reduce_lift_nan _ _ Hfmin), (reduce_lift_nan _ _ Hlmax). reflexivity.
  - exists jmin. split; [now apply Hvalid | reflexivity].
  - intros k Hk. apply Hvalid in Hk. specialize (Ljmin k Hk). lia.
  - exists jmax. split; [now apply Hvalid | reflexivity].
  - intros k Hk. apply Hvalid in Hk. specialize (Ljmax k Hk). lia.
  - unfold fsel in Ifmin. apply in_map_iff in Ifmin. destruct Ifmin as [k [E Hk]].
    exists k. split; [now apply Hvalid | exact E].
  - intros k Hk. apply Lfmin. unfold fsel.
    apply (in_map (fun k => nth k frow 0%Z)). now apply Hvalid.
  - unfold lsel in Ilmax. apply in_map_iff in Ilmax. destruct Ilmax as [k [E Hk]].
    exists k. split; [now apply Hvalid | exact E].
  - intros k Hk. assert (H : (lmax >= nth k lrow 0)%Z); [|lia].
    apply Llmax. unfold lsel.
    apply (in_map (fun k => nth k lrow 0%Z)). now apply Hvalid.
Qed.

(** In the [int32] range the conversion keeps the value. *)
Lemma to_int32_in_range (z : Z) :
  in_int32 z -> to_int32 nan_to_int32 overflow_to_int32 (Some z) = Ok z.
Proof.
  intros [H1 H2]. unfold to_int32.
  now rewrite (proj2 (Z.leb_le _ _) H1), (proj2 (Z.leb_le _ _) H2).
Qed.

(** The same, for lines and samples that fit in [int32]: the box is
    returned as it is. *)
Lemma valloc_aligned_in_range (lines_per_burst : Z) (fvs lvs : list (list Z))
    (ibur : nat) (frow lrow : list Z) :
  nth_error fvs ibur = Some frow -> nth_error lvs ibur = Some lrow ->
  length frow = length lrow ->
  (forall j, (j < length frow)%nat ->
             (nth j frow 0 = -1 <-> nth j lrow 0 = -1)%Z) ->
  (exists j, valid_index frow lrow j) ->
  (forall j, (j < length frow)%nat ->
             in_int32 (Z.of_nat ibur * lines_per_burst + Z.of_nat j)
             /\ in_int32 (nth j frow 0%Z) /\ in_int32 (nth j lrow 0%Z)) ->
  exists (jmin jmax : nat) (fmin lmax : Z),
    valloc nan_to_int32 overflow_to_int32 lines_per_burst
      (map mask_missing fvs) (map mask_missing lvs) ibur
    = Ok [(Z.of_nat ibur * lines_per_burst + Z.of_nat jmin)%Z; fmin;
          (Z.of_nat ibur * lines_per_burst + Z.of_nat jmax)%Z; lmax]
    /\ least_over (valid_index frow lrow) Z.of_nat (Z.of_nat jmin)
    /\ greatest_over (valid_index frow lrow) Z.of_nat (Z.of_nat jmax)
    /\ least_over (valid_index frow lrow) (fun j => nth j frow 0%Z) fmin
    /\ greatest_over (valid_index frow lrow) (fun j => nth j lrow 0%Z) lmax.
Proof.
  intros Hf Hl Hlen Haligned Hvalid Hrange.
  destruct (valloc_exact_when_aligned lines_per_burst fvs lvs ibur Hf Hl Hlen
              Haligned Hvalid)
    as [jmin [jmax [fmin [lmax [Hv [S1 [S2 [S3 S4]]]]]]]].
  exists jmin, jmax, fmin, lmax.
  split; [|exact (conj S1 (conj S2 (conj S3 S4)))].
  rewrite Hv. cbn [mapM].
  destruct S1 as [[j1 [[Hj1 _] E1]] _]. apply Nat2Z.inj in E1. subst j1.
  destruct S2 as [[j2 [[Hj2 _] E2]] _]. apply Nat2Z.inj in E2. subst j2.
  destruct S3 as [[j3 [[Hj3 _] E3]] _]. destruct S4 as [[j4 [[Hj4 _] E4]] _].
  rewrite (to_int32_in_range (proj1 (Hrange _ Hj1))).
  rewrite (to_int32_in_range (proj1 (Hrange _ Hj2))).
  rewrite <- E3, <- E4.
  rewrite (to_int32_in_range (proj1 (proj2 (Hrange _ Hj3)))).
  rewrite (to_int32_in_range (proj2 (proj2 (Hrange _ Hj4)))).
  reflexivity.
Qed.

Lemma mapM_seq_total {B : Type} (f : nat -> result B) (n : nat) :
  (forall i, (i < n)%nat -> exists b, f i = Ok b) ->
  exists bs, mapM f (seq 0 n) = Ok bs /\ length bs = n.
Proof.
  intros H.
  destruct (@mapM_total _ _ f (seq 0 n)) as [bs Hbs].
  - apply Forall_forall. intros i Hi. apply in_seq in Hi. apply H. lia.
  - exists bs. split; [exact Hbs|].
    now rewrite (mapM_length _ _ Hbs), length_seq.
Qed.

(** C10. [bursts] returns [None] when [lines_per_burst] and
    [samples_per_burst] are both 0, whatever the other inputs; with any
    other pair it never returns [None]: it builds the burst table, and
    returns it, with one bounding box per burst, whenever the table can be
    built (the columns have one length; the two rows of each burst have
    one length, are missing on the same columns and not on all of them;
    lines and samples fit in [int32]). *)
Theorem bursts_none_only_when_both_zero (lines_per_burst samples_per_burst : Z)
    (azt : list TimeT) (anx : list AnxT) (sens : list TimeT) (off : list OffT)
    (fvs lvs : list (list Z)) :
  (lines_per_burst = 0%Z /\ samples_per_burst = 0%Z ->
   bursts nan_to_int32 overflow_to_int32 lines_per_burst samples_per_burst
     azt anx sens off fvs lvs = Ok None)
  /\ (~ (lines_per_burst = 0%Z /\ samples_per_burst = 0%Z) ->
      bursts nan_to_int32 overflow_to_int32 lines_per_burst samples_per_burst
        azt anx sens off fvs lvs <> Ok None
      /\ (forall ds,
            bursts nan_to_int32 overflow_to_int32 lines_per_burst samples_per_burst
              azt anx sens off fvs lvs = Ok (Some ds) ->
            length (valid_location ds) = length azt
            /\ azimuthTime ds = azt
            /\ attrs_lines_per_burst ds = lines_per_burst)
      /\ (length anx = length azt -> length sens = length azt ->
          length off = length azt -> length fvs = length azt ->
          length lvs = length azt ->
          (forall i, (i < length azt)%nat ->
             length (nth i fvs []) = length (nth i lvs [])
             /\ (exists j, valid_index (nth i fvs []) (nth i lvs []) j)
             /\ forall j, (j < length (nth i fvs []))%nat ->
                   (nth j (nth i fvs []) 0 = -1 <-> nth j (nth i lvs []) 0 = -1)%Z
                   /\ in_int32 (Z.of_nat i * lines_per_burst + Z.of_nat j)
                   /\ in_int32 (nth j (nth i fvs []) 0%Z)
                   /\ in_int32 (nth j (nth i lvs []) 0%Z)) ->
          exists ds,
            bursts nan_to_int32 overflow_to_int32 lines_per_burst samples_per_burst
              azt anx sens off fvs lvs = Ok (Some ds))).
Proof.
  split.
  - intros [-> ->]. reflexivity.
  - intros Hnz. unfold bursts.
    assert (Hguard : ((lines_per_burst =? 0) && (samples_per_burst =? 0))%Z = false).
    { destruct (Z.eqb_spec lines_per_burst 0); [|reflexivity].
      destruct (Z.eqb_spec samples_per_burst 0); [|reflexivity].
      exfalso. now apply Hnz. }
    rewrite Hguard. cbv zeta. split; [|split].
    + intros H. inv_bind H. inv_bind H. discriminate.
    + intros ds H. inv_bind H. inv_bind H. inv_Ok H.
      unfold new_BurstDataset in Hv0.
      match type of Hv0 with
      | (if ?c then _ else _) = _ => destruct c; [|discriminate]
      end.
      inv_Ok Hv0. cbn.
      split; [|split; reflexivity].
      now rewrite (mapM_length _ _ Hv), length_seq.
    + intros Hanx Hsens Hoff Hfvs Hlvs Hrows.
      destruct (@mapM_seq_total _
                  (valloc nan_to_int32 overflow_to_int32 lines_per_burst
                     (map mask_missing fvs) (map mask_missing lvs))
                  (length azt)) as [vl [Hvl Hvlen]].
      { intros i Hi. destruct (Hrows i Hi) as [Hlen [Hvalid Hcols]].
        destruct (@valloc_aligned_in_range lines_per_burst fvs lvs i
                    (nth i fvs []) (nth i lvs []))
          as [jmin [jmax [fmin [lmax [Hv _]]]]];
          try assumption.
        - apply nth_error_nth'. now rewrite Hfvs.
        - apply nth_error_nth'. now rewrite Hlvs.
        - intros j Hj. apply (Hcols j Hj).
        - intros j Hj. apply (Hcols j Hj).
        - eauto. }
      rewrite Hvl. cbn [bind]. unfold new_BurstDataset.
      rewrite !length_map, Hanx, Hsens, Hoff, Hfvs, Hlvs, Hvlen, !Nat.eqb_refl.
      cbn [andb].
      assert (Hcols : ncols (map mask_missing fvs) = ncols (map mask_missing lvs)).
      { destruct azt as [|t azt'].
        - destruct fvs; [|simpl in Hfvs; discriminate].
          destruct lvs; [|simpl in Hlvs; discriminate]. reflexivity.
        - destruct (Hrows 0%nat ltac:(simpl; lia)) as [Hlen _].
          destruct fvs as [|f0 fvs']; [discriminate|].
          destruct lvs as [|l0 lvs']; [discriminate|].
          simpl in *. unfold mask_missing. now rewrite !length_map. }
      rewrite Hcols, Nat.eqb_refl. cbn [bind]. eauto.
Qed.

(** C8 at a burst whose first-valid sample is missing on a line where the
    last-valid one is not.  The line is a valid index, the minimum of the
    first-valid samples taken over the valid indices is NaN, and what the
    box gets for its start sample is the conversion of NaN to [int32] (an
    integer that does not depend on the samples, or an exception),
    whatever the first-valid samples of the other lines are (5 or 7 here):
    not the least of them. *)
Theorem bursts_valid_location_nan (t : TimeT) (x : AnxT) (o : OffT) :
  bursts nan_to_int32 overflow_to_int32 3 50 [t] [x] [t] [o]
    [[-1; 5; 5]]%Z [[40; 40; 40]]%Z
  = match nan_to_int32 with
    | Ok v =>
        Ok (Some (mkBurstDataset [t] [x] [t] [o]
                    [[None; Some 5; Some 5]]%Z [[Some 40; Some 40; Some 40]]%Z
                    [[0; v; 2; 40]]%Z 3))
    | Raise e => Raise e
    end
  /\ bursts nan_to_int32 overflow_to_int32 3 50 [t] [x] [t] [o]
       [[-1; 7; 7]]%Z [[40; 40; 40]]%Z
     = match nan_to_int32 with
       | Ok v =>
           Ok (Some (mkBurstDataset [t] [x] [t] [o]
                       [[None; Some 7; Some 7]]%Z [[Some 40; Some 40; Some 40]]%Z
                       [[0; v; 2; 40]]%Z 3))
       | Raise e => Raise e
       end
  /\ valid_index [-1; 5; 5]%Z [40; 40; 40]%Z 0
  /\ least_over (fun j => valid_index [-1; 5; 5]%Z [40; 40; 40]%Z j
                          /\ nth j [-1; 5; 5]%Z 0%Z <> (-1)%Z)
                (fun j => nth j [-1; 5; 5]%Z 0%Z) 5.
Proof.
  split; [destruct nan_to_int32; reflexivity|].
  split; [destruct nan_to_int32; reflexivity|].
  split; [split; [simpl; lia | right; simpl; lia]|].
  split.
  - exists 1%nat. split; [|reflexivity].
    split; [split; [simpl; lia | left; simpl; lia] | simpl; lia].
  - intros j [[Hj _] Hv]. simpl in Hj.
    destruct j as [|[|[|j]]]; simpl in *; lia.
Qed.

End BurstsProps.

(** ** df_files: dataset ids *)

Section FilesProps.

Local Open Scope string_scope.



(** X14. Whenever [df_files] returns, it returns as many distinct dataset ids
    as there are sub-datasets (files per polarization). *)
Lemma df_files_unique_ids (ann meas noi cal : list string) (df : FilesFrame) :
  df_files ann meas noi cal = Ok df ->
  (count_distinct (dsid df)
   = length ann / count_distinct (polarization df))%nat.
Proof.
  unfold df_files. intros H.
  inv_bind H. inv_bind H. inv_bind H. inv_bind H. inv_bind H.
  unfold new_FilesFrame in H.
  match type of H with
  | (if ?c then _ else _) = _ => destruct c; [|discriminate]
  end.
  inv_Ok H. cbn [dsid polarization].
  unfold floordiv in Hv2.
  destruct (count_distinct v) as [|pc] eqn:Epc; [discriminate|]. inv_Ok Hv2.
  destruct (negb _) eqn:Eneq in Hv3.
  - inv_bind Hv3.
    match type of Hv3 with
    | (if ?c then _ else _) = _ => destruct c eqn:Ec; [|discriminate]
    end.
    inv_Ok Hv3. now apply Nat.eqb_eq.
  - inv_Ok Hv3. apply Bool.negb_false_iff in Eneq. now apply Nat.eqb_eq.
Qed.



(** With the sequence numbers 1 to 6, one per file, the ids re-synthesized
    are six and the assertion fails. *)
Lemma df_files_distinct_numbers_assertion :
  df_files
    ["s1a-wv1-slc-vv-20190101t000000-20190101t000003-025000-02c000-001.xml";
     "s1a-wv1-slc-vv-20190101t000015-20190101t000018-025000-02c000-002.xml";
     "s1a-wv1-slc-vv-20190101t000030-20190101t000033-025000-02c000-003.xml";
     "s1a-wv1-slc-vh-20190101t000000-20190101t000003-025000-02c000-004.xml";
     "s1a-wv1-slc-vh-20190101t000015-20190101t000018-025000-02c000-005.xml";
     "s1a-wv1-slc-vh-20190101t000030-20190101t000033-025000-02c000-006.xml"]
    [] [] [] = Raise AssertionError.
Proof. reflexivity. Qed.

(** Three distinct raw ids (here with two polarizations) are kept. *)
Lemma df_files_distinct_raw_ids_kept :
  exists df,
    df_files
      ["s1a-iw1-slc-vh-20190101t000000-20190101t000025-025000-02c000-001.xml";
       "s1a-iw2-slc-vh-20190101t000001-20190101t000026-025000-02c000-002.xml";
       "s1a-iw3-slc-vh-20190101t000002-20190101t000027-025000-02c000-003.xml";
       "s1a-iw1-slc-vv-20190101t000000-20190101t000025-025000-02c000-004.xml";
       "s1a-iw2-slc-vv-20190101t000001-20190101t000026-025000-02c000-005.xml";
       "s1a-iw3-slc-vv-20190101t000002-20190101t000027-025000-02c000-006.xml"]
      ["m1"; "m2"; "m3"; "m4"; "m5"; "m6"] ["n1"; "n2"; "n3"; "n4"; "n5"; "n6"]
      ["c1"; "c2"; "c3"; "c4"; "c5"; "c6"] = Ok df
    /\ dsid df = ["IW1"; "IW2"; "IW3"; "IW1"; "IW2"; "IW3"]
    /\ files_index df = [1; 2; 3; 4; 5; 6]%Z.
Proof. eexists. split; [reflexivity|]. split; reflexivity. Qed.

End FilesProps.

(** ** The blocks the two builders produce behave well *)

Section BuiltBlocks.

Context {F : Type} {ops : FloatOps F}.

Lemma broadcast_rows_fit (rows : list (list F)) (kx : nat) :
  Forall (fun row => length row = kx) rows ->
  mapM (broadcast_row kx) rows = Ok rows.
Proof.
  induction 1 as [|row rows Hrow _ IH]; [reflexivity|].
  cbn [mapM]. unfold broadcast_row at 1.
  rewrite Hrow, Nat.eqb_refl. cbn [bind]. now rewrite IH.
Qed.

Lemma broadcast_fitting_array (rows : list (list F)) (ka kx : nat) :
  length rows = ka -> Forall (fun row => length row = kx) rows ->
  broadcast_to ka kx (Array2 rows) = Ok rows.
Proof.
  intros Hka Hkx. unfold broadcast_to.
  rewrite (broadcast_rows_fit Hkx). cbn [bind].
  now rewrite Hka, Nat.eqb_refl.
Qed.

Lemma range_block_well_behaved (p : Z * Z * list Z * list F) (b : block F) :
  range_block p = Ok b -> well_behaved b.
Proof.
  destruct p as [[[a_start a_stop] x] l]. unfold range_block.
  intros H. inv_bind H. inv_Ok H.
  intros sub_a sub_x. cbn [lut_f]. eexists. eexists. split; [reflexivity|].
  unfold Lut_box_range_call. apply broadcast_fitting_array.
  - apply repeat_length.
  - apply Forall_forall. intros row Hrow. apply repeat_spec in Hrow. subst.
    apply length_map.
Qed.

Lemma azi_block_well_behaved (S : Type)
    (p : S * list Z * Z * Z * Z * Z * list F) (b : block F) :
  snd p <> [] -> azi_block p = Ok b -> well_behaved b.
Proof.
  destruct p as [[[[[[sw a] a_start] a_stop] x_start] x_stop] lut].
  cbn [snd]. intros Hlut. unfold azi_block, new_Lut_box_azi.
  intros H. inv_bind H. inv_bind Hv. inv_Ok Hv. inv_Ok H.
  intros sub_a sub_x. cbn [lut_f]. unfold Lut_box_azi_call. cbn [lba_lut_f].
  destruct (Nat.ltb_spec 1 (length lut)) as [Hlong|Hshort].
  - inv_bind Hv0. inv_Ok Hv0. cbn [azi_lut_f_call].
    eexists. eexists. split; [reflexivity|].
    apply broadcast_fitting_array.
    + now rewrite !length_map.
    + apply Forall_forall. intros row Hrow. apply in_map_iff in Hrow.
      destruct Hrow as [y [<- _]]. apply repeat_length.
  - inv_Ok Hv0. cbn [azi_lut_f_call].
    destruct lut as [|y [|y' lut]]; [congruence| |simpl in Hshort; lia].
    eexists. eexists. split; [reflexivity|]. apply broadcast_single_row.
Qed.

Lemma no_azi_block_well_behaved : well_behaved (@no_azi_block F ops).
Proof.
  intros sub_a sub_x. eexists. eexists. split; reflexivity.
Qed.

Lemma mapM_Forall {A B : Type} (f : A -> result B) (P : B -> Prop)
    (l : list A) (bs : list B) :
  (forall a b, In a l -> f a = Ok b -> P b) -> mapM f l = Ok bs -> Forall P bs.
Proof.
  revert bs; induction l as [|a l IH]; intros bs HP H; cbn [mapM] in H.
  - inv_Ok H. constructor.
  - inv_bind H. inv_bind H. inv_Ok H. constructor.
    + apply (HP a); [now left | assumption].
    + apply IH; [|assumption]. intros a' b' Hin. apply HP. now right.
Qed.

Lemma noise_lut_range_well_behaved (atracks : list Z) (xtracks : list (list Z))
    (noiseLuts : list (list F)) (lut : NoiseLut F) :
  noise_lut_range atracks xtracks noiseLuts = Ok lut ->
  blocks lut <> [] /\ Forall well_behaved (blocks lut).
Proof.
  unfold noise_lut_range. intros H. inv_bind H. inv_bind H. inv_bind H. inv_Ok H.
  cbn [blocks]. unfold blocks_frame in Hv1.
  destruct v0 as [|b bs]; [discriminate|]. inv_Ok Hv1.
  split; [discriminate|].
  eapply mapM_Forall; [|exact Hv0].
  intros p b' _. apply range_block_well_behaved.
Qed.

Lemma zip7_last_In (S : Type) (sw : list S) (a : list (list Z))
    (a_start a_stop x_start x_stop : list Z) (luts : list (list F))
    (p : S * list Z * Z * Z * Z * Z * list F) :
  In p (zip7 sw a a_start a_stop x_start x_stop luts) -> In (snd p) luts.
Proof.
  revert a a_start a_stop x_start x_stop luts.
  induction sw as [|s sw IH];
    intros [|a0 a] [|b0 a_start] [|c0 a_stop] [|d0 x_start] [|e0 x_stop] [|l0 luts];
    cbn [zip7]; try contradiction.
  intros [<-|Hin]; [now left | right; eapply IH; eassumption].
Qed.

Lemma noise_lut_azi_well_behaved (S : Type) (atrack_azi : list (list Z))
    (atrack_azi_start atrack_azi_stop xtrack_azi_start xtrack_azi_stop : list Z)
    (noise_azi_lut : list (list F)) (swath : list S) (lut : NoiseLut F) :
  Forall (fun l => l <> []) noise_azi_lut ->
  noise_lut_azi atrack_azi atrack_azi_start atrack_azi_stop xtrack_azi_start
    xtrack_azi_stop noise_azi_lut swath = Ok lut ->
  blocks lut <> [] /\ Forall well_behaved (blocks lut).
Proof.
  intros Hluts. unfold noise_lut_azi. intros H. inv_bind H. inv_bind H. inv_Ok H.
  cbn [blocks].
  assert (Hwb : Forall well_behaved v).
  { eapply mapM_Forall; [|exact Hv].
    intros p b Hin. apply azi_block_well_behaved.
    apply zip7_last_In in Hin.
    exact (proj1 (Forall_forall _ _) Hluts _ Hin). }
  destruct v as [|b bs]; cbn [length Nat.eqb app] in Hv0.
  - inv_Ok Hv0. split; [discriminate|].
    constructor; [apply no_azi_block_well_behaved | constructor].
  - inv_Ok Hv0. split; [discriminate | exact Hwb].
Qed.

Lemma match_blocks_In (bs : list (block F)) (asked : box) (bg : block F * box) :
  In bg (match_blocks bs asked) ->
  In (fst bg) bs /\ intersection (geometry (fst bg)) asked = Some (snd bg).
Proof.
  unfold match_blocks. rewrite in_flat_map. intros [b [Hb Hin]].
  destruct (intersection (geometry b) asked) as [g|] eqn:E; [|contradiction].
  destruct Hin as [<-|[]]. now split.
Qed.

(** A table of well-behaved blocks evaluates, on non-empty arrays of
    distinct coordinates, to an array of the queried shape. *)
Lemma NoiseLut_call_total (self : NoiseLut F) (atracks xtracks : list Z) :
  blocks self <> [] -> Forall well_behaved (blocks self) ->
  atracks <> [] -> xtracks <> [] ->
  unique atracks = true -> unique xtracks = true ->
  exists noise,
    NoiseLut_call self atracks xtracks = Ok (Values noise)
    /\ has_shape noise (length atracks) (length xtracks).
Proof.
  intros Hb Hwb Ha Hx Ua Ux.
  destruct (NoiseLut_call_loop self Hb Ha Hx) as [asked [_ Hcall]].
  destruct (eval_blocks_total atracks xtracks (match_blocks (blocks self) asked)
              (repeat (repeat nan (length xtracks)) (length atracks)) Ua Ux)
    as [noise Hn].
  - intros bg Hin. apply match_blocks_In in Hin.
    exact (proj1 (Forall_forall _ _) Hwb _ (proj1 Hin)).
  - exists noise. rewrite Hcall, Hn. split; [reflexivity|].
    destruct (eval_blocks_frame _ _ _ _ (length xtracks) Hn) as [L [W _]].
    destruct (repeat_nan_shape (length atracks) (length xtracks)) as [S1 S2].
    split; [congruence | auto].
Qed.

End BuiltBlocks.

(** ** What the covered positions are, geometrically *)

Section Coverage.

Context {F : Type}.

Local Open Scope Q_scope.

Lemma Qtrunc_floor_or_ceiling (q : Q) :
  Qtrunc q = Qfloor q \/ Qtrunc q = Qceiling q.
Proof.
  destruct (Qlt_le_dec q 0) as [Hneg|Hpos].
  - right. unfold Qtrunc, Qceiling, Qfloor. destruct q as [n d].
    unfold Qlt in Hneg. cbn -[Z.mul Z.quot Z.div Z.opp] in *.
    replace n with (- (- n))%Z at 1 by lia.
    rewrite Z.quot_opp_l by discriminate.
    f_equal. apply Z.quot_div_nonneg; lia.
  - left. now apply Qtrunc_nonneg.
Qed.

Lemma Qtrunc_below (q : Q) (a : Z) : q <= inject_Z a -> (Qtrunc q <= a)%Z.
Proof.
  intros H. destruct (Qtrunc_floor_or_ceiling q) as [-> | ->].
  - rewrite <- (Qfloor_Z a). now apply Qfloor_resp_le.
  - rewrite <- (Qceiling_Z a). now apply Qceiling_resp_le.
Qed.

Lemma Qtrunc_above (q : Q) (a : Z) : inject_Z a <= q -> (a <= Qtrunc q)%Z.
Proof.
  intros H. destruct (Qtrunc_floor_or_ceiling q) as [-> | ->].
  - rewrite <- (Qfloor_Z a). now apply Qfloor_resp_le.
  - rewrite <- (Qceiling_Z a). now apply Qceiling_resp_le.
Qed.

Lemma Qtrunc_slack_below (q : Q) (a : Z) : (Qtrunc q <= a)%Z -> q - 1 < inject_Z a.
Proof.
  intros H.
  assert (Hf : (Qfloor q <= a)%Z).
  { destruct (Qtrunc_floor_or_ceiling q) as [E|E]; rewrite E in H; [exact H|].
    pose proof (Qle_floor_ceiling q) as Hfc. rewrite <- Zle_Qle in Hfc. lia. }
  pose proof (Qlt_floor q) as Hlt.
  assert (Hle : inject_Z (Qfloor q) <= inject_Z a) by (now rewrite <- Zle_Qle).
  rewrite inject_Z_plus in Hlt. change (inject_Z 1) with 1 in Hlt. lra.
Qed.

Lemma Qtrunc_slack_above (q : Q) (a : Z) : (a <= Qtrunc q)%Z -> inject_Z a <= qmax 0 q.
Proof.
  intros H. destruct (Qlt_le_dec q 0) as [Hneg|Hpos].
  - eapply Qle_trans; [|apply qmax_l].
    change 0 with (inject_Z 0). rewrite <- Zle_Qle.
    assert (Hc : (Qceiling q <= 0)%Z).
    { rewrite <- (Qceiling_Z 0). apply Qceiling_resp_le. now apply Qlt_le_weak. }
    destruct (Qtrunc_floor_or_ceiling q) as [E|E]; rewrite E in H; [|lia].
    pose proof (Qle_floor_ceiling q) as Hfc. rewrite <- Zle_Qle in Hfc. lia.
  - eapply Qle_trans; [|apply qmax_r].
    rewrite (Qtrunc_nonneg Hpos) in H.
    eapply Qle_trans; [|apply Qfloor_le]. now rewrite <- Zle_Qle.
Qed.

Lemma intersection_bounds (g h r : box) :
  intersection g h = Some r ->
  minx g <= minx r /\ maxx r <= maxx g /\ miny g <= miny r /\ maxy r <= maxy g.
Proof.
  unfold intersection. destruct (_ && _)%bool; [|discriminate].
  intros H. inv_Ok H. cbn [minx miny maxx maxy].
  repeat split; first [apply qmax_l | apply qmin_l].
Qed.

(** X26. A covered position is within the truncation slack of the rectangle
    of some block. *)
Lemma covered_near_block (bs : list (block F)) (asked : box) (a x : Z) :
  covered bs asked a x -> exists b, In b bs /\ near_box (geometry b) a x.
Proof.
  intros [b [g [Hin [[Ha1 Ha2] [Hx1 Hx2]]]]].
  unfold match_blocks in Hin. apply in_flat_map in Hin.
  destruct Hin as [b' [Hb' Hin]].
  destruct (intersection (geometry b') asked) as [g'|] eqn:E; [|contradiction].
  destruct Hin as [Hin|[]]. inv_Ok Hin.
  destruct (intersection_bounds _ _ E) as [B1 [B2 [B3 B4]]].
  exists b. split; [exact Hb'|].
  assert (Hmono : forall p q, p <= q -> qmax 0 p <= qmax 0 q).
  { intros p q Hpq. apply qmax_lub; [apply qmax_l|].
    eapply Qle_trans; [exact Hpq | apply qmax_r]. }
  assert (Hshift : forall p q, p <= q -> p - 1 <= q - 1)
    by (intros p q Hpq; lra).
  repeat split.
  - eapply Qle_lt_trans; [apply Hshift, B1 | apply Qtrunc_slack_below, Ha1].
  - eapply Qle_trans; [apply Qtrunc_slack_above, Ha2 | apply Hmono, B2].
  - eapply Qle_lt_trans; [apply Hshift, B3 | apply Qtrunc_slack_below, Hx1].
  - eapply Qle_trans; [apply Qtrunc_slack_above, Hx2 | apply Hmono, B4].
Qed.

(** X25. A queried pixel inside the rectangle of a block, and inside the asked
    box, is covered. *)
Lemma in_block_covered (bs : list (block F)) (asked : box) (b : block F) (a x : Z) :
  In b bs -> in_box (geometry b) a x -> in_box asked a x ->
  covered bs asked a x.
Proof.
  intros Hb [G1 [G2 [G3 G4]]] [A1 [A2 [A3 A4]]].
  set (r := mkbox (qmax (minx (geometry b)) (minx asked))
                  (qmax (miny (geometry b)) (miny asked))
                  (qmin (maxx (geometry b)) (maxx asked))
                  (qmin (maxy (geometry b)) (maxy asked))).
  assert (R1 : minx r <= inject_Z a) by (now apply qmax_lub).
  assert (R2 : inject_Z a <= maxx r) by (now apply qmin_glb).
  assert (R3 : miny r <= inject_Z x) by (now apply qmax_lub).
  assert (R4 : inject_Z x <= maxy r) by (now apply qmin_glb).
  assert (E : intersection (geometry b) asked = Some r).
  { unfold intersection. fold r.
    rewrite (proj2 (Qle_bool_iff _ _) (Qle_trans _ _ _ R1 R2)).
    now rewrite (proj2 (Qle_bool_iff _ _) (Qle_trans _ _ _ R3 R4)). }
  exists b, r. split.
  - unfold match_blocks. apply in_flat_map. exists b. split; [exact Hb|].
    rewrite E. now left.
  - unfold in_int_bounds.
    repeat split; first [now apply Qtrunc_below | now apply Qtrunc_above].
Qed.

End Coverage.

(** ** The properties at concrete inputs *)

Section Instances.

Local Open Scope Z_scope.


Lemma NoiseLut_call_no_block_witness :
  blocks (mkNoiseLut (@nil (block (option Q)))) = []
  /\ NoiseLut_call (mkNoiseLut (@nil (block (option Q)))) [3; 4] [7] = Ok (PyInt 1).
Proof.
  split; [reflexivity|].
  exact (proj1 (@NoiseLut_call_no_block (option Q) Q_FloatOps
                  (mkNoiseLut (@nil (block (option Q)))) [3; 4] [7] eq_refl)).
Defined.


Lemma strictly_increasing_3_4 : strictly_increasing [3; 4].
Proof. intros [|[|i]] Hi; simpl in *; lia. Defined.

Lemma strictly_increasing_7 : strictly_increasing [7].
Proof. intros [|i] Hi; simpl in *; lia. Defined.

Lemma strictly_increasing_0_10 : strictly_increasing [0; 10].
Proof. intros [|[|i]] Hi; simpl in *; lia. Defined.

Lemma in_image_3_4 : Forall in_image [3; 4].
Proof. repeat constructor; unfold in_image; lia. Defined.

Lemma in_image_7 : Forall in_image [7].
Proof. repeat constructor; unfold in_image; lia. Defined.

Lemma noise_lut_azi_no_record_witness :
  [3; 4] <> [] /\ [7] <> []
  /\ strictly_increasing [3; 4] /\ strictly_increasing [7]
  /\ Forall in_image [3; 4] /\ Forall in_image [7]
  /\ noise_lut_azi (S := unit) [] [] [] [] [] [] []
     = Ok (mkNoiseLut [no_azi_block])
  /\ NoiseLut_call (mkNoiseLut [no_azi_block]) [3; 4] [7]
     = Ok (Values [[Some 1%Q]; [Some 1%Q]]).
Proof.
  split; [discriminate|]. split; [discriminate|].
  split; [exact strictly_increasing_3_4|]. split; [exact strictly_increasing_7|].
  split; [exact in_image_3_4|]. split; [exact in_image_7|].
  destruct (@noise_lut_azi_no_record (option Q) Q_FloatOps unit)
    as [Hlut [_ [_ Hcall]]].
  split; [exact Hlut|].
  exact (Hcall [3; 4] [7] ltac:(discriminate) ltac:(discriminate)
           strictly_increasing_3_4 strictly_increasing_7 in_image_3_4 in_image_7).
Defined.


Lemma bursts_none_only_when_both_zero_witness :
  (0 = 0 /\ 0 = 0)
  /\ bursts (TimeT := Z) (AnxT := Z) (OffT := Z) (Raise ValueError)
       (fun _ => Raise ValueError)
       0 0 [1] [2] [3] [4] [[-1; 5]] [[-1; 9]] = Ok None
  /\ ~ (3 = 0 /\ 50 = 0)
  /\ exists ds,
       bursts (TimeT := Z) (AnxT := Z) (OffT := Z) (Raise ValueError)
         (fun _ => Raise ValueError)
         3 50 [1] [2] [3] [4] [[-1; 5; 6]] [[-1; 9; 9]] = Ok (Some ds).
Proof.
  split; [split; reflexivity|].
  split.
  - exact (proj1 (@bursts_none_only_when_both_zero Z Z Z (Raise ValueError)
                    (fun _ => Raise ValueError)
                    0 0 [1] [2] [3] [4] [[-1; 5]] [[-1; 9]])
                 (conj eq_refl eq_refl)).
  - assert (Hnz : ~ (3 = 0 /\ 50 = 0)) by (intros [H _]; discriminate).
    split; [exact Hnz|].
    destruct (proj2 (@bursts_none_only_when_both_zero Z Z Z (Raise ValueError)
                       (fun _ => Raise ValueError) 3 50 [1] [2] [3] [4]
                       [[-1; 5; 6]] [[-1; 9; 9]]) Hnz) as [_ [_ Htotal]].
    apply Htotal; try reflexivity.
    intros [|i] Hi; [|simpl in Hi; lia].
    split; [reflexivity|]. split.
    + exists 1%nat. split; [simpl; lia | left; simpl; lia].
    + intros [|[|[|j]]] Hj; simpl in Hj; try lia;
        (split; [simpl; split; intros H; try lia; try discriminate
                | unfold in_int32; simpl; lia]).
Defined.

(** *** Remarks on the evaluator *)

(** The asked box is spanned by the first and the last query coordinate:
    a coordinate outside that span is not looked up, even in the image. *)
Lemma no_azi_block_decreasing_query :
  NoiseLut_call (mkNoiseLut [@no_azi_block (option Q) _]) [9; 3] [5]
  = Ok (Values [[None]; [Some 1%Q]]).
Proof. reflexivity. Qed.

(** The bounds of an intersection are truncated: the line just below a
    block (line 9 for a block of the lines 10 to 20) is written by it. *)
Lemma azi_block_line_below :
  exists lut,
    noise_lut_azi [[15]] [10] [20] [0] [10] [[Some 7%Q]] [tt] = Ok lut
    /\ NoiseLut_call lut [9] [5] = Ok (Values [[Some 7%Q]]).
Proof. eexists. split; reflexivity. Qed.

(** With two blocks abutting along-track (lines 0 to 9, then 10 to 20),
    the later block overwrites the last line of the earlier one. *)
Lemma azi_blocks_boundary_line :
  exists lut,
    noise_lut_azi [[5]; [15]] [0; 10] [9; 20] [0; 0] [10; 10]
      [[Some 3%Q]; [Some 7%Q]] [tt; tt] = Ok lut
    /\ NoiseLut_call lut [8; 9; 10] [5]
       = Ok (Values [[Some 3%Q]; [Some 7%Q]; [Some 7%Q]]).
Proof. eexists. split; reflexivity. Qed.

(** A block built on an empty profile cannot be written where it is
    selected. *)
Lemma azi_block_empty_profile :
  exists lut,
    noise_lut_azi [[15]] [10] [20] [0] [10] [@nil (option Q)] [tt] = Ok lut
    /\ NoiseLut_call lut [12] [5] = Raise ValueError.
Proof. eexists. split; reflexivity. Qed.

End Instances.
(** ** or_ipf28 *)

Lemma string_length_append (s1 s2 : string) :
  String.length (s1 ++ s2) = (String.length s1 + String.length s2)%nat.
Proof. induction s1 as [|c s1 IH]; simpl; [reflexivity | now rewrite IH]. Qed.

Lemma prefix_length (s1 s2 : string) :
  String.prefix s1 s2 = true -> (String.length s1 <= String.length s2)%nat.
Proof.
  revert s1; induction s2 as [|b s2 IH]; intros [|a s1] H; simpl in *;
    try lia; try discriminate.
  destruct (ascii_dec a b); [apply IH in H; lia | discriminate].
Qed.

Lemma contains_empty (s : string) : contains "" s = true.
Proof. destruct s; reflexivity. Qed.

(** Without an occurrence, nothing is replaced. *)
Lemma replace_from_absent (old new s : string) :
  contains old s = false -> replace_from 0 old new s = s.
Proof.
  induction s as [|c s IH]; intros H; [reflexivity|].
  cbn [contains] in H. apply orb_false_elim in H as [Hp Hc].
  cbn [replace_from]. rewrite Hp, (IH Hc). reflexivity.
Qed.

Lemma str_replace_absent (old new s : string) :
  contains old s = false -> str_replace old new s = s.
Proof.
  intros H. destruct old as [|a old].
  - now rewrite contains_empty in H.
  - now apply replace_from_absent.
Qed.

(** A replacement by a word that is not longer never lengthens. *)
Lemma replace_from_length (old new s : string) (k : nat) :
  (String.length new <= String.length old)%nat ->
  (String.length (replace_from k old new s) + Nat.min k (String.length s)
   <= String.length s)%nat.
Proof.
  intros Hlen. revert k; induction s as [|c s IH]; intros k; [simpl; lia|].
  cbn [replace_from]. destruct k as [|k].
  - destruct (String.prefix old (String c s)) eqn:Hp.
    + apply prefix_length in Hp. cbn [String.length] in *.
      rewrite string_length_append.
      specialize (IH (String.length old - 1)%nat). lia.
    + specialize (IH 0%nat). cbn [String.length]. lia.
  - specialize (IH k). cbn [String.length]. lia.
Qed.

(** A replacement by a shorter word shortens a string that has an
    occurrence. *)
Lemma replace_from_shorter (old new s : string) :
  (String.length new < String.length old)%nat ->
  contains old s = true ->
  (String.length (replace_from 0 old new s) < String.length s)%nat.
Proof.
  intros Hlen. induction s as [|c s IH]; intros H.
  - destruct old; [simpl in Hlen; lia | discriminate].
  - cbn [contains] in H. cbn [replace_from].
    destruct (String.prefix old (String c s)) eqn:Hp.
    + apply prefix_length in Hp. cbn [String.length] in *.
      rewrite string_length_append.
      pose proof (@replace_from_length old new s (String.length old - 1)) as Hr.
      lia.
    + simpl in H. apply IH in H. cbn [String.length]. lia.
Qed.

Lemma str_replace_length (old new s : string) :
  (String.length new < String.length old)%nat ->
  (String.length (str_replace old new s) <= String.length s)%nat.
Proof.
  intros Hlen. destruct old as [|a old]; [simpl in Hlen; lia|].
  pose proof (@replace_from_length (String a old) new s 0). unfold str_replace. lia.
Qed.

Lemma str_replace_shorter (old new s : string) :
  (String.length new < String.length old)%nat ->
  contains old s = true ->
  (String.length (str_replace old new s) < String.length s)%nat.
Proof.
  intros Hlen H. destruct old as [|a old]; [simpl in Hlen; lia|].
  now apply replace_from_shorter.
Qed.

Lemma append_longer (s t : string) :
  (0 < String.length t)%nat -> (s ++ t)%string <> s.
Proof.
  intros Ht He. apply (f_equal String.length) in He.
  rewrite string_length_append in He. lia.
Qed.

(** X1. The path comes back unchanged exactly when neither 'noiseRange' nor
    'noiseAzimuth' occurs in it. *)
Theorem or_ipf28_unchanged_iff (xpath : string) :
  or_ipf28 xpath = xpath <->
  contains "noiseRange" xpath = false /\ contains "noiseAzimuth" xpath = false.
Proof.
  unfold or_ipf28. split.
  - intros H.
    destruct (String.eqb_spec
                (str_replace "noiseAzimuth" "noise"
                   (str_replace "noiseRange" "noise" xpath)) xpath) as [He|Hne];
      cbn [negb] in H.
    + clear H.
      destruct (contains "noiseRange" xpath) eqn:Hr.
      * exfalso.
        pose proof (@str_replace_shorter "noiseRange" "noise" xpath
                      ltac:(simpl; lia) Hr) as H1.
        pose proof (@str_replace_length "noiseAzimuth" "noise"
                      (str_replace "noiseRange" "noise" xpath)
                      ltac:(simpl; lia)) as H2.
        rewrite He in H2. lia.
      * split; [reflexivity|].
        rewrite (@str_replace_absent "noiseRange" "noise" xpath Hr) in He.
        destruct (contains "noiseAzimuth" xpath) eqn:Ha; [exfalso|reflexivity].
        pose proof (@str_replace_shorter "noiseAzimuth" "noise" xpath
                      ltac:(simpl; lia) Ha) as H1.
        rewrite He in H1. lia.
    + exfalso. revert H. apply append_longer. simpl. lia.
  - intros [Hr Ha].
    rewrite (@str_replace_absent "noiseRange" "noise" xpath Hr), (@str_replace_absent "noiseAzimuth" "noise" xpath Ha).
    now rewrite String.eqb_refl.
Qed.

(** X2. When one of the two words occurs, the result is the path, the
    separator and a strictly shorter alternative; in every case the result
    begins with the path given. *)
Theorem or_ipf28_alternative (xpath : string) :
  contains "noiseRange" xpath || contains "noiseAzimuth" xpath = true ->
  exists xpath28,
    or_ipf28 xpath = (xpath ++ " | " ++ xpath28)%string /\
    xpath28 = str_replace "noiseAzimuth" "noise"
                (str_replace "noiseRange" "noise" xpath) /\
    (String.length xpath28 < String.length xpath)%nat.
Proof.
  intros H.
  assert (Hlen : (String.length (str_replace "noiseAzimuth" "noise"
                     (str_replace "noiseRange" "noise" xpath))
                  < String.length xpath)%nat).
  { pose proof (@str_replace_length "noiseAzimuth" "noise"
                  (str_replace "noiseRange" "noise" xpath)
                  ltac:(simpl; lia)) as H2.
    destruct (contains "noiseRange" xpath) eqn:Hr.
    - pose proof (@str_replace_shorter "noiseRange" "noise" xpath
                    ltac:(simpl; lia) Hr). lia.
    - simpl in H. rewrite (@str_replace_absent "noiseRange" "noise" xpath Hr).
      apply str_replace_shorter; [simpl; lia | exact H]. }
  eexists. split; [|split; [reflexivity | exact Hlen]].
  unfold or_ipf28.
  destruct (String.eqb_spec
              (str_replace "noiseAzimuth" "noise"
                 (str_replace "noiseRange" "noise" xpath)) xpath) as [He|Hne].
  - rewrite He in Hlen. lia.
  - reflexivity.
Qed.

Lemma or_ipf28_alternative_witness :
  exists xpath28,
    or_ipf28 "/noise/noiseRangeVectorList/noiseRangeVector/line"
    = ("/noise/noiseRangeVectorList/noiseRangeVector/line" ++ " | " ++ xpath28)%string /\
    xpath28 = str_replace "noiseAzimuth" "noise"
                (str_replace "noiseRange" "noise"
                   "/noise/noiseRangeVectorList/noiseRangeVector/line") /\
    (String.length xpath28
     < String.length "/noise/noiseRangeVectorList/noiseRangeVector/line")%nat.
Proof.
  apply (or_ipf28_alternative "/noise/noiseRangeVectorList/noiseRangeVector/line").
  reflexivity.
Defined.

(** ** uniq_sorted *)

Section UniqSortedProps.

Variable A : Type.
Variable A_eq_dec : forall x y : A, {x = y} + {x <> y}.
Variable ltb : A -> A -> bool.

(** The order is a strict total order. *)
Hypothesis ltb_irrefl : forall x, ltb x x = false.
Hypothesis ltb_trans : forall x y z, ltb x y = true -> ltb y z = true -> ltb x z = true.
Hypothesis ltb_total : forall x y, x <> y -> ltb x y = true \/ ltb y x = true.

Lemma In_insert_sorted (v x : A) (l : list A) :
  In v (insert_sorted ltb x l) <-> v = x \/ In v l.
Proof.
  induction l as [|y l IH]; simpl.
  - intuition congruence.
  - destruct (ltb x y); simpl; [intuition congruence|].
    rewrite IH. intuition congruence.
Qed.

Lemma In_sorted (v : A) (l : list A) : In v (sorted ltb l) <-> In v l.
Proof.
  induction l as [|y l IH]; simpl; [reflexivity|].
  rewrite In_insert_sorted, IH. intuition congruence.
Qed.

Lemma insert_sorted_increasing (x : A) (l : list A) :
  StronglySorted (fun a b => ltb a b = true) l -> ~ In x l ->
  StronglySorted (fun a b => ltb a b = true) (insert_sorted ltb x l).
Proof.
  induction 1 as [|y l Hs IH Hy]; intros Hx; simpl.
  - constructor; constructor.
  - destruct (ltb x y) eqn:Hxy.
    + constructor; [now constructor|].
      constructor; [exact Hxy|].
      rewrite Forall_forall in *. intros z Hz. eapply ltb_trans; eauto.
    + assert (Hne : y <> x) by (intros ->; apply Hx; now left).
      constructor.
      * apply IH. intros Hin; apply Hx; now right.
      * rewrite Forall_forall in *. intros z Hz.
        apply In_insert_sorted in Hz as [-> | Hz]; [|now apply Hy].
        destruct (ltb_total Hne) as [H|H]; [exact H | congruence].
Qed.

Lemma sorted_increasing (l : list A) :
  NoDup l -> StronglySorted (fun a b => ltb a b = true) (sorted ltb l).
Proof.
  induction 1 as [|x l Hx Hn IH]; simpl; [constructor|].
  apply insert_sorted_increasing; [exact IH|].
  now rewrite In_sorted.
Qed.

(** Two strictly increasing lists with the same members are equal. *)
Lemma increasing_unique (l1 l2 : list A) :
  StronglySorted (fun a b => ltb a b = true) l1 ->
  StronglySorted (fun a b => ltb a b = true) l2 ->
  (forall v, In v l1 <-> In v l2) -> l1 = l2.
Proof.
  intros H1; revert l2; induction H1 as [|a l1 Hs1 IH Ha]; intros l2 H2 Hm.
  - destruct l2 as [|b l2]; [reflexivity|].
    exfalso. apply (proj2 (Hm b)). now left.
  - destruct H2 as [|b l2 Hs2 Hb].
    + exfalso. apply (proj1 (Hm a)). now left.
    + rewrite Forall_forall in Ha, Hb.
      assert (Hab : a = b).
      { destruct (proj1 (Hm a) (or_introl eq_refl)) as [E|Hin]; [now symmetry|].
        destruct (proj2 (Hm b) (or_introl eq_refl)) as [E|Hin']; [exact E|].
        pose proof (ltb_trans (Ha _ Hin') (Hb _ Hin)) as Hc.
        rewrite ltb_irrefl in Hc. discriminate. }
      subst b. f_equal. apply IH; [exact Hs2|].
      intros v; split; intros Hv.
      * destruct (proj1 (Hm v) (or_intror Hv)) as [E|Hin]; [|exact Hin].
        subst v. pose proof (Ha _ Hv) as Hc. rewrite ltb_irrefl in Hc. discriminate.
      * destruct (proj2 (Hm v) (or_intror Hv)) as [E|Hin]; [|exact Hin].
        subst v. pose proof (Hb _ Hv) as Hc. rewrite ltb_irrefl in Hc. discriminate.
Qed.

(** X3. The result is strictly increasing (so without repetition) and has
    exactly the members of the argument. *)
Theorem uniq_sorted_increasing_members (x : list A) :
  StronglySorted (fun a b => ltb a b = true) (uniq_sorted A_eq_dec ltb x) /\
  forall v, In v (uniq_sorted A_eq_dec ltb x) <-> In v x.
Proof.
  unfold uniq_sorted. split.
  - apply sorted_increasing, NoDup_nodup.
  - intros v. now rewrite In_sorted, nodup_In.
Qed.

(** X4. The result depends only on which values occur in the argument, not on
    their order or on how often they occur. *)
Theorem uniq_sorted_members_only (x y : list A) :
  (forall v, In v x <-> In v y) ->
  uniq_sorted A_eq_dec ltb x = uniq_sorted A_eq_dec ltb y.
Proof.
  intros H. unfold uniq_sorted.
  apply increasing_unique; try apply sorted_increasing, NoDup_nodup.
  intros v. now rewrite !In_sorted, !nodup_In.
Qed.

End UniqSortedProps.

Lemma Z_ltb_irrefl (x : Z) : (x <? x)%Z = false.
Proof. apply Z.ltb_irrefl. Qed.

Lemma Z_ltb_trans (x y z : Z) :
  (x <? y)%Z = true -> (y <? z)%Z = true -> (x <? z)%Z = true.
Proof. rewrite !Z.ltb_lt. lia. Qed.

Lemma Z_ltb_total (x y : Z) : x <> y -> (x <? y)%Z = true \/ (y <? x)%Z = true.
Proof. rewrite !Z.ltb_lt. lia. Qed.

Lemma uniq_sorted_increasing_members_witness :
  StronglySorted (fun a b => (a <? b)%Z = true)
    (uniq_sorted Z.eq_dec Z.ltb [3; 1; 3; 2]%Z) /\
  forall v, In v (uniq_sorted Z.eq_dec Z.ltb [3; 1; 3; 2]%Z) <-> In v [3; 1; 3; 2]%Z.
Proof.
  apply (@uniq_sorted_increasing_members Z Z.eq_dec Z.ltb Z_ltb_trans Z_ltb_total
           [3; 1; 3; 2]%Z).
Defined.

Lemma uniq_sorted_members_only_witness :
  uniq_sorted Z.eq_dec Z.ltb [3; 1; 3; 2]%Z = uniq_sorted Z.eq_dec Z.ltb [2; 3; 1]%Z.
Proof.
  apply (@uniq_sorted_members_only Z Z.eq_dec Z.ltb Z_ltb_irrefl Z_ltb_trans
           Z_ltb_total [3; 1; 3; 2]%Z [2; 3; 1]%Z).
  intros v; simpl; intuition lia.
Defined.

(** ** orbit *)

Lemma columns_length {A : Type} (n : nat) (arrays : list (list A)) :
  length (columns n arrays) = n.
Proof.
  revert arrays; induction n as [|n IH]; intros arrays; simpl;
    [reflexivity | now rewrite IH].
Qed.

(** Row [i] of three stacked arrays, transposed. *)
Lemma columns3_nth_error {A : Type} (n : nat) (a b c : list A) (i : nat) (x y z : A) :
  (i < n)%nat ->
  nth_error a i = Some x -> nth_error b i = Some y -> nth_error c i = Some z ->
  nth_error (columns n [a; b; c]) i = Some [x; y; z].
Proof.
  revert a b c i; induction n as [|n IH]; intros a b c i Hi Ha Hb Hc; [lia|].
  destruct a as [|a0 a]; [now destruct i|].
  destruct b as [|b0 b]; [now destruct i|].
  destruct c as [|c0 c]; [now destruct i|].
  destruct i as [|i]; cbn in Ha, Hb, Hc |- *.
  - now inv_Ok Ha; inv_Ok Hb; inv_Ok Hc.
  - apply IH; [lia | assumption..].
Qed.

Section OrbitProps.

Variables TimeT FrameT Fl PassT HeadT : Type.

Lemma along_time_Ok {A : Type} (time : list TimeT) (data out : list A) :
  along_time time data = Ok out -> out = data /\ length data = length time.
Proof.
  unfold along_time. destruct (Nat.eqb_spec (length data) (length time));
    intros H; [now inv_Ok H | discriminate].
Qed.

Lemma along_time_same {A : Type} (time : list TimeT) (data : list A) :
  length data = length time -> along_time time data = Ok data.
Proof. unfold along_time. intros ->. now rewrite Nat.eqb_refl. Qed.

Lemma along_time_differ {A : Type} (B : Type) (time : list TimeT) (data : list A)
    (k : list A -> result B) :
  length data <> length time ->
  bind (along_time time data) k = Raise ValueError.
Proof.
  unfold along_time. intros H.
  destruct (Nat.eqb_spec (length data) (length time)); [contradiction | reflexivity].
Qed.

(** X7. The dataset is built exactly when the seven arrays have the length of
    [time]; otherwise the call raises [ValueError]. *)
Theorem orbit_returns_iff (time : list TimeT) (frame : list FrameT)
    (pos_x pos_y pos_z vel_x vel_y vel_z : list Fl)
    (orbit_pass : PassT) (platform_heading : HeadT) :
  let same_length :=
    length frame = length time /\
    length pos_x = length time /\ length pos_y = length time /\
    length pos_z = length time /\
    length vel_x = length time /\ length vel_y = length time /\
    length vel_z = length time in
  ((exists ds, orbit time frame pos_x pos_y pos_z vel_x vel_y vel_z
                 orbit_pass platform_heading = Ok ds) <-> same_length) /\
  (orbit time frame pos_x pos_y pos_z vel_x vel_y vel_z
     orbit_pass platform_heading = Raise ValueError <-> ~ same_length).
Proof.
  cbv zeta. unfold orbit.
  destruct (Nat.eq_dec (length frame) (length time)) as [H1|H1];
    [rewrite (@along_time_same _ _ _ H1); cbn [bind]
    | rewrite (@along_time_differ _ _ _ _ _ H1);
      split; split; try tauto; try discriminate; intros [ds Hds]; discriminate].
  destruct (Nat.eq_dec (length pos_x) (length time)) as [H2|H2];
    [rewrite (@along_time_same _ _ _ H2); cbn [bind]
    | rewrite (@along_time_differ _ _ _ _ _ H2);
      split; split; try tauto; try discriminate; intros [ds Hds]; discriminate].
  destruct (Nat.eq_dec (length pos_y) (length time)) as [H3|H3];
    [rewrite (@along_time_same _ _ _ H3); cbn [bind]
    | rewrite (@along_time_differ _ _ _ _ _ H3);
      split; split; try tauto; try discriminate; intros [ds Hds]; discriminate].
  destruct (Nat.eq_dec (length pos_z) (length time)) as [H4|H4];
    [rewrite (@along_time_same _ _ _ H4); cbn [bind]
    | rewrite (@along_time_differ _ _ _ _ _ H4);
      split; split; try tauto; try discriminate; intros [ds Hds]; discriminate].
  destruct (Nat.eq_dec (length vel_x) (length time)) as [H5|H5];
    [rewrite (@along_time_same _ _ _ H5); cbn [bind]
    | rewrite (@along_time_differ _ _ _ _ _ H5);
      split; split; try tauto; try discriminate; intros [ds Hds]; discriminate].
  destruct (Nat.eq_dec (length vel_y) (length time)) as [H6|H6];
    [rewrite (@along_time_same _ _ _ H6); cbn [bind]
    | rewrite (@along_time_differ _ _ _ _ _ H6);
      split; split; try tauto; try discriminate; intros [ds Hds]; discriminate].
  destruct (Nat.eq_dec (length vel_z) (length time)) as [H7|H7];
    [rewrite (@along_time_same _ _ _ H7); cbn [bind]
    | rewrite (@along_time_differ _ _ _ _ _ H7);
      split; split; try tauto; try discriminate; intros [ds Hds]; discriminate].
  unfold np_vstack, np_transpose. cbn [forallb ncols].
  rewrite H2, H3, H4, H5, H6, H7, !Nat.eqb_refl. cbn [andb bind].
  rewrite !along_time_same by (rewrite columns_length; assumption).
  cbn [bind].
  split; split; try tauto; try discriminate; eauto.
Qed.

(** X8. In the dataset returned, the scalar components are the arrays given,
    and row [i] of 'velocity' (of 'position') is the triple of the [i]-th
    elements of vel_x, vel_y, vel_z (of pos_x, pos_y, pos_z). *)
Theorem orbit_vectors (time : list TimeT) (frame : list FrameT)
    (pos_x pos_y pos_z vel_x vel_y vel_z : list Fl)
    (orbit_pass : PassT) (platform_heading : HeadT)
    (ds : OrbitDataset TimeT FrameT Fl PassT HeadT) :
  orbit time frame pos_x pos_y pos_z vel_x vel_y vel_z
    orbit_pass platform_heading = Ok ds ->
  orb_time ds = time /\ orb_frame ds = frame /\
  orb_pos_x ds = pos_x /\ orb_pos_y ds = pos_y /\ orb_pos_z ds = pos_z /\
  orb_vel_x ds = vel_x /\ orb_vel_y ds = vel_y /\ orb_vel_z ds = vel_z /\
  length (orb_velocity ds) = length time /\
  length (orb_position ds) = length time /\
  (forall i x y z,
     nth_error vel_x i = Some x -> nth_error vel_y i = Some y ->
     nth_error vel_z i = Some z ->
     nth_error (orb_velocity ds) i = Some [x; y; z]) /\
  (forall i x y z,
     nth_error pos_x i = Some x -> nth_error pos_y i = Some y ->
     nth_error pos_z i = Some z ->
     nth_error (orb_position ds) i = Some [x; y; z]).
Proof.
  unfold orbit. intros H.
  inv_bind H. apply along_time_Ok in Hv as [-> _].
  inv_bind H. apply along_time_Ok in Hv as [-> _].
  inv_bind H. apply along_time_Ok in Hv as [-> _].
  inv_bind H. apply along_time_Ok in Hv as [-> _].
  inv_bind H. apply along_time_Ok in Hv as [-> _].
  inv_bind H. apply along_time_Ok in Hv as [-> _].
  inv_bind H. apply along_time_Ok in Hv as [-> _].
  inv_bind H. unfold np_vstack in Hv.
  destruct (forallb _ [vel_y; vel_z]); [inv_Ok Hv | discriminate].
  inv_bind H. apply along_time_Ok in Hv as [-> Hlv].
  inv_bind H. unfold np_vstack in Hv.
  destruct (forallb _ [pos_y; pos_z]); [inv_Ok Hv | discriminate].
  inv_bind H. apply along_time_Ok in Hv as [-> Hlp].
  inv_Ok H. cbn [orb_time orb_frame orb_pos_x orb_pos_y orb_pos_z orb_vel_x
                   orb_vel_y orb_vel_z orb_velocity orb_position].
  repeat (split; [reflexivity|]).
  split; [exact Hlv|]. split; [exact Hlp|].
  unfold np_transpose; cbn [ncols]. split; intros i x y z Hx Hy Hz.
  - apply columns3_nth_error; try assumption.
    apply nth_error_Some. congruence.
  - apply columns3_nth_error; try assumption.
    apply nth_error_Some. congruence.
Qed.

End OrbitProps.

Lemma orbit_vectors_witness :
  exists ds,
    orbit [10; 20]%Z ["a"; "b"]%string [1; 2]%Z [3; 4]%Z [5; 6]%Z
      [7; 8]%Z [9; 10]%Z [11; 12]%Z true 0%Z = Ok ds /\
    nth_error (orb_velocity ds) 1 = Some [8; 10; 12]%Z /\
    nth_error (orb_position ds) 0 = Some [1; 3; 5]%Z.
Proof.
  eexists. split; [reflexivity|].
  pose proof (@orbit_vectors Z string Z bool Z [10; 20]%Z ["a"; "b"]%string
                [1; 2]%Z [3; 4]%Z [5; 6]%Z [7; 8]%Z [9; 10]%Z [11; 12]%Z true 0%Z
                _ eq_refl) as H.
  split; apply H; reflexivity.
Defined.

(** ** doppler_centroid_estimates *)

Lemma mapM_Ok_Forall {A B : Type} (f : A -> result B) (l : list A) (bs : list B) :
  mapM f l = Ok bs -> Forall (fun a => exists b, f a = Ok b) l.
Proof.
  revert bs; induction l as [|a l IH]; intros bs H; cbn [mapM] in H;
    constructor.
  - inv_bind H. eauto.
  - inv_bind H. inv_bind H. eauto.
Qed.

Lemma mapM_seq_nth_error {B : Type} (f : nat -> result B) (n : nat)
    (bs : list B) (i : nat) :
  mapM f (seq 0 n) = Ok bs -> (i < n)%nat ->
  exists b, f i = Ok b /\ nth_error bs i = Some b.
Proof.
  intros H Hi.
  pose proof (mapM_length _ _ H) as Hl. rewrite length_seq in Hl.
  destruct (nth_error bs i) as [b|] eqn:Hb.
  - exists b. split; [|reflexivity].
    destruct (mapM_nth_error _ _ _ H Hb) as [a [Ha Hf]].
    apply nth_error_nth with (d := 0%nat) in Ha.
    rewrite seq_nth in Ha by assumption. simpl in Ha. now subst a.
  - apply nth_error_None in Hb. lia.
Qed.

Ltac inv_bind_as H a Ha :=
  apply bind_Ok_inv in H; destruct H as [a [Ha H]].

Section DopplerProps.

Variables T Fl : Type.
Variable strtime2numtime : string -> result T.
Variable to_float : string -> result Fl.

Lemma along_estimates_Ok {A : Type} (n : nat) (data out : list A) :
  along_estimates n data = Ok out -> out = data /\ length data = n.
Proof.
  unfold along_estimates. destruct (Nat.eqb_spec (length data) n);
    intros H; [now inv_Ok H | discriminate].
Qed.

Lemma along_estimates_same {A : Type} (n : nat) (data : list A) :
  length data = n -> along_estimates n data = Ok data.
Proof. unfold along_estimates. intros ->. now rewrite Nat.eqb_refl. Qed.

Lemma np_empty_dims_Ok (r c : Z) (dims : nat * nat) :
  np_empty_dims r c = Ok dims ->
  (0 <= r)%Z /\ (0 <= c)%Z /\ dims = (Z.to_nat r, Z.to_nat c).
Proof.
  unfold np_empty_dims.
  destruct (Z.ltb_spec r 0) as [Hr|Hr]; [discriminate|].
  destruct (Z.ltb_spec c 0) as [Hc|Hc]; [discriminate|].
  intros H. inv_Ok H. auto.
Qed.

Lemma np_reshape_Ok {A : Type} (values : list A) (r c : nat) (a : list (list A)) :
  np_reshape values (r, c) = Ok a ->
  a = rows_of r c values /\ length values = (r * c)%nat.
Proof.
  unfold np_reshape. destruct (Nat.eqb_spec (length values) (r * c));
    intros H; [now inv_Ok H | discriminate].
Qed.

Lemma estimate_times_Ok (c : nat) (az start stop : list string) (i : nat)
    (row : list T) (t1 t2 : T) :
  estimate_times strtime2numtime c az start stop i = Ok (row, t1, t2) ->
  (exists s t, nth_error az i = Some s /\ strtime2numtime s = Ok t
               /\ row = repeat t c) /\
  (exists s, nth_error start i = Some s /\ strtime2numtime s = Ok t1) /\
  (exists s, nth_error stop i = Some s /\ strtime2numtime s = Ok t2).
Proof.
  unfold estimate_times, item. intros H.
  inv_bind_as H s Hs.
  destruct (nth_error az i) as [s'|]; [inv_Ok Hs | discriminate].
  inv_bind_as H t Ht.
  inv_bind_as H s1 Hs1.
  destruct (nth_error start i) as [s1'|]; [inv_Ok Hs1 | discriminate].
  inv_bind_as H u1 Hu1.
  inv_bind_as H s2 Hs2.
  destruct (nth_error stop i) as [s2'|]; [inv_Ok Hs2 | discriminate].
  inv_bind_as H u2 Hu2. inv_Ok H.
  repeat split; eauto.
Qed.

(** X9. The dataset is built exactly when: the two counts are not negative;
    t0, the two polynomial tables, the rms values and the threshold flags
    have [nb_dcestimate] entries; the slant range times and the frequencies
    have [nb_dcestimate * nb_fineDce] entries; t0 and the rms values convert
    to floats; and the first [nb_dcestimate] entries of the three time lists
    exist and convert.  The time lists may be longer. *)
Theorem doppler_centroid_estimates_returns_iff
    (nb_dcestimate nb_geoDcPoly nb_dataDcPoly nb_fineDce : Z)
    (dc_azimuth_time dc_t0 : list string)
    (dc_geoDcPoly dc_dataDcPoly : list (list Fl))
    (dc_rmserr : list string) (dc_rmserrAboveThres : list bool)
    (dc_azstarttime dc_azstoptime : list string)
    (dc_slantRangeTime dc_frequency : list Fl) :
  (exists ds,
     doppler_centroid_estimates strtime2numtime to_float
       nb_dcestimate nb_geoDcPoly nb_dataDcPoly nb_fineDce dc_azimuth_time dc_t0
       dc_geoDcPoly dc_dataDcPoly dc_rmserr dc_rmserrAboveThres dc_azstarttime
       dc_azstoptime dc_slantRangeTime dc_frequency = Ok ds)
  <-> doppler_inputs_ok strtime2numtime to_float nb_dcestimate nb_fineDce dc_azimuth_time dc_t0
        dc_geoDcPoly dc_dataDcPoly dc_rmserr dc_rmserrAboveThres dc_azstarttime
        dc_azstoptime dc_slantRangeTime dc_frequency.
Proof.
  unfold doppler_inputs_ok, doppler_centroid_estimates. cbv zeta. split.
  - intros [ds H].
    inv_bind_as H t0 Et0. pose proof (mapM_length _ _ Et0) as Ht0.
    pose proof (mapM_Ok_Forall _ _ Et0) as Hf0.
    inv_bind_as H geo Egeo. apply along_estimates_Ok in Egeo as [-> Hgeo].
    inv_bind_as H data Edata. apply along_estimates_Ok in Edata as [-> Hdata].
    inv_bind_as H dims Edims. apply np_empty_dims_Ok in Edims as [Hr [Hc ->]].
    cbn [fst snd] in H.
    inv_bind_as H u Eu.
    destruct (Nat.eqb_spec (Z.to_nat nb_dcestimate) (length t0));
      [clear Eu | discriminate].
    inv_bind_as H rms Erms. pose proof (mapM_length _ _ Erms) as Hrms.
    pose proof (mapM_Ok_Forall _ _ Erms) as Hfr.
    inv_bind_as H rms' Erms'. apply along_estimates_Ok in Erms' as [-> Hrms'].
    inv_bind_as H srt Esrt. apply np_reshape_Ok in Esrt as [-> Hsrt].
    inv_bind_as H freq Efreq. apply np_reshape_Ok in Efreq as [-> Hfreq].
    inv_bind_as H thres Ethres. apply along_estimates_Ok in Ethres as [-> Hth].
    inv_bind_as H times Etimes.
    repeat (split; [first [assumption | congruence]|]).
    intros i Hi.
    destruct (mapM_seq_nth_error _ Etimes Hi) as [[[row t1] t2] [Hrow _]].
    apply estimate_times_Ok in Hrow as [[s [t [Hs [Ht _]]]] [[s1 [Hs1 Ht1]] [s2 [Hs2 Ht2]]]].
    repeat split; eauto.
  - intros (Hr & Hc & Ht0 & Hgeo & Hdata & Hrms & Hth & Hsrt & Hfreq & Hf0 & Hfr & Htimes).
    destruct (@mapM_total _ _ to_float dc_t0 Hf0) as [t0 Et0]. rewrite Et0. cbn [bind].
    pose proof (mapM_length _ _ Et0) as Lt0.
    rewrite !along_estimates_same by congruence. cbn [bind].
    unfold np_empty_dims.
    destruct (Z.ltb_spec nb_dcestimate 0); [lia|].
    destruct (Z.ltb_spec nb_fineDce 0); [lia|]. cbn [orb bind fst snd].
    replace (length t0) with (Z.to_nat nb_dcestimate) by congruence.
    rewrite Nat.eqb_refl. cbn [bind].
    destruct (@mapM_total _ _ to_float dc_rmserr Hfr) as [rms Erms]. rewrite Erms. cbn [bind].
    pose proof (mapM_length _ _ Erms) as Lrms.
    rewrite !along_estimates_same by congruence. cbn [bind].
    unfold np_reshape. rewrite Hsrt, Hfreq, !Nat.eqb_refl. cbn [bind].
    destruct (@mapM_seq_total _
                (estimate_times strtime2numtime (Z.to_nat nb_fineDce)
                   dc_azimuth_time dc_azstarttime dc_azstoptime)
                (Z.to_nat nb_dcestimate)) as [times [Etimes _]].
    { intros i Hi.
      destruct (Htimes i Hi) as [[s [t [Hs Ht]]] [[s1 [t1 [Hs1 Ht1]]] [s2 [t2 [Hs2 Ht2]]]]].
      unfold estimate_times, item.
      rewrite Hs; cbn [bind]; rewrite Ht; cbn [bind].
      rewrite Hs1; cbn [bind]; rewrite Ht1; cbn [bind].
      rewrite Hs2; cbn [bind]; rewrite Ht2; cbn [bind]. eauto. }
    rewrite Etimes. cbn [bind]. eauto.
Qed.

(** X10. In the dataset returned, 'slant_range_time' and 'frequency' have
    [nb_dcestimate] rows of [nb_fineDce] values and flatten to the arrays
    given, and row [i] of 'azimuth_time' repeats [nb_fineDce] times the
    numeric time of the [i]-th azimuth time, next to the numeric start and
    stop times of the estimate. *)
Theorem doppler_centroid_estimates_values
    (nb_dcestimate nb_geoDcPoly nb_dataDcPoly nb_fineDce : Z)
    (dc_azimuth_time dc_t0 : list string)
    (dc_geoDcPoly dc_dataDcPoly : list (list Fl))
    (dc_rmserr : list string) (dc_rmserrAboveThres : list bool)
    (dc_azstarttime dc_azstoptime : list string)
    (dc_slantRangeTime dc_frequency : list Fl) (ds : DopplerDataset T Fl) :
  doppler_centroid_estimates strtime2numtime to_float
    nb_dcestimate nb_geoDcPoly nb_dataDcPoly nb_fineDce dc_azimuth_time dc_t0
    dc_geoDcPoly dc_dataDcPoly dc_rmserr dc_rmserrAboveThres dc_azstarttime
    dc_azstoptime dc_slantRangeTime dc_frequency = Ok ds ->
  let r := Z.to_nat nb_dcestimate in
  let c := Z.to_nat nb_fineDce in
  ravel (dop_slant_range_time ds) = dc_slantRangeTime /\
  ravel (dop_frequency ds) = dc_frequency /\
  length (dop_slant_range_time ds) = r /\ length (dop_frequency ds) = r /\
  Forall (fun row => length row = c) (dop_slant_range_time ds) /\
  Forall (fun row => length row = c) (dop_frequency ds) /\
  length (dop_azimuth_time ds) = r /\
  length (dop_azimuth_time_start ds) = r /\
  length (dop_azimuth_time_stop ds) = r /\
  forall i, (i < r)%nat ->
    (exists s t, nth_error dc_azimuth_time i = Some s /\ strtime2numtime s = Ok t
                 /\ nth_error (dop_azimuth_time ds) i = Some (repeat t c)) /\
    (exists s t, nth_error dc_azstarttime i = Some s /\ strtime2numtime s = Ok t
                 /\ nth_error (dop_azimuth_time_start ds) i = Some t) /\
    (exists s t, nth_error dc_azstoptime i = Some s /\ strtime2numtime s = Ok t
                 /\ nth_error (dop_azimuth_time_stop ds) i = Some t).
Proof.
  unfold doppler_centroid_estimates. cbv zeta. intros H.
  inv_bind_as H t0 Et0. inv_bind_as H geo Egeo. inv_bind_as H data Edata.
  inv_bind_as H dims Edims. apply np_empty_dims_Ok in Edims as [Hr [Hc ->]].
  cbn [fst snd] in H.
  inv_bind_as H u Eu. inv_bind_as H rms Erms. inv_bind_as H rms' Erms'.
  inv_bind_as H srt Esrt. apply np_reshape_Ok in Esrt as [-> Hsrt].
  inv_bind_as H freq Efreq. apply np_reshape_Ok in Efreq as [-> Hfreq].
  inv_bind_as H thres Ethres. inv_bind_as H times Etimes. inv_Ok H.
  cbn [dop_slant_range_time dop_frequency dop_azimuth_time
       dop_azimuth_time_start dop_azimuth_time_stop].
  pose proof (mapM_length _ _ Etimes) as Ltimes. rewrite length_seq in Ltimes.
  rewrite !rows_of_ravel, !rows_of_length, !length_map by assumption.
  repeat (split; [first [reflexivity | assumption | now apply rows_of_width]|]).
  intros i Hi.
  destruct (mapM_seq_nth_error _ Etimes Hi) as [[[row t1] t2] [Hrow Hnth]].
  apply estimate_times_Ok in Hrow as [[s [t [Hs [Ht ->]]]] [[s1 [Hs1 Ht1]] [s2 [Hs2 Ht2]]]].
  rewrite !nth_error_map, Hnth. cbn [option_map fst snd].
  repeat split; eauto.
Qed.

End DopplerProps.

Lemma doppler_centroid_estimates_values_witness :
  exists ds,
    doppler_centroid_estimates (fun s => Ok (Z.of_nat (String.length s)))
      (fun s => Ok (Z.of_nat (String.length s)))
      2 0 0 2 ["a"; "bb"; "ccc"]%string ["x"; "y"]%string [[1]; [2]]%Z [[3]; [4]]%Z
      ["r"; "s"]%string [true; false] ["a"; "b"]%string ["c"; "d"]%string
      [10; 11; 12; 13]%Z [20; 21; 22; 23]%Z = Ok ds /\
    ravel (dop_slant_range_time ds) = [10; 11; 12; 13]%Z /\
    nth_error (dop_azimuth_time ds) 1 = Some [2; 2]%Z.
Proof.
  eexists. split; [reflexivity|].
  pose proof (@doppler_centroid_estimates_values Z Z
                (fun s => Ok (Z.of_nat (String.length s)))
                (fun s => Ok (Z.of_nat (String.length s)))
                2 0 0 2 ["a"; "bb"; "ccc"]%string ["x"; "y"]%string [[1]; [2]]%Z
                [[3]; [4]]%Z ["r"; "s"]%string [true; false] ["a"; "b"]%string
                ["c"; "d"]%string [10; 11; 12; 13]%Z [20; 21; 22; 23]%Z _ eq_refl) as H.
  cbv zeta in H. split; [apply H | reflexivity].
Defined.

(** ** list_poly_from_list_string_coords *)

Lemma mapM_Raise_inv {A B : Type} (f : A -> result B) (l : list A) (e : exn) :
  mapM f l = Raise e -> exists a, In a l /\ f a = Raise e.
Proof.
  induction l as [|a l IH]; cbn [mapM]; intros H; [discriminate|].
  destruct (f a) as [b|e'] eqn:Hf; cbn [bind] in H.
  - destruct (mapM f l) as [bs|e'']; cbn [bind] in H; [discriminate|].
    destruct (IH H) as [a' [Hin Ha']]. exists a'. split; [now right | assumption].
  - inv_Ok H. exists a. split; [now left | assumption].
Qed.

Lemma mapM_In_Raise {A B : Type} (f : A -> result B) (l : list A) (a : A) (e0 : exn) :
  In a l -> f a = Raise e0 -> exists e, mapM f l = Raise e.
Proof.
  induction l as [|a' l IH]; intros Hin Hf; [contradiction|].
  cbn [mapM]. destruct (f a') as [b|e'] eqn:Hf'; cbn [bind]; [|eauto].
  destruct Hin as [->|Hin]; [congruence|].
  destruct (IH Hin Hf) as [e He]. rewrite He. cbn [bind]. eauto.
Qed.

Lemma mapM_map_Ok {A B C : Type} (f : B -> result C) (h : A -> B) (g : A -> C)
    (l : list A) :
  Forall (fun a => f (h a) = Ok (g a)) l -> mapM f (map h l) = Ok (map g l).
Proof.
  induction 1 as [|a l Ha _ IH]; simpl; [reflexivity|].
  now rewrite Ha, IH.
Qed.

Lemma has_char_append (c : ascii) (s t : string) :
  has_char c (s ++ t) = has_char c s || has_char c t.
Proof.
  induction s as [|a s IH]; simpl; [reflexivity|].
  now rewrite IH, orb_assoc.
Qed.

Lemma split_on_absent (sep : ascii) (s : string) :
  has_char sep s = false -> split_on sep s = [s].
Proof.
  induction s as [|a s IH]; simpl; intros H; [reflexivity|].
  apply orb_false_elim in H as [Ha Hs]. rewrite Ha, (IH Hs). reflexivity.
Qed.

Lemma split_on_append_sep (sep : ascii) (s t : string) :
  has_char sep s = false ->
  split_on sep (s ++ String sep t) = s :: split_on sep t.
Proof.
  induction s as [|a s IH]; simpl; intros H.
  - now rewrite Ascii.eqb_refl.
  - apply orb_false_elim in H as [Ha Hs]. rewrite Ha, (IH Hs). reflexivity.
Qed.

(** Splitting inverts joining, for fields without the separator. *)
Lemma split_on_join (sep : ascii) (l : list string) :
  l <> [] -> Forall (fun s => has_char sep s = false) l ->
  split_on sep (join (String sep EmptyString) l) = l.
Proof.
  induction l as [|s l IH]; intros Hne Hl; [contradiction|].
  apply Forall_cons_iff in Hl as [Hs Hl].
  destruct l as [|s' l].
  - now apply split_on_absent.
  - change (join (String sep "") (s :: s' :: l))
      with (s ++ String sep (join (String sep "") (s' :: l)))%string.
    rewrite split_on_append_sep by exact Hs.
    rewrite IH; [reflexivity | discriminate | assumption].
Qed.

Section FootprintsProps.

Variable Fl : Type.
Variable py_float : string -> result Fl.
Variable polygon_ok : list (Fl * Fl) -> bool.

(** X6. For a text of 'lat,lon' tokens separated by single spaces, whose
    fields convert to floats, the polygon is built on the vertices
    [(lon, lat)], in the order of the text: the two coordinates of each
    token are swapped. *)
Theorem footprint_vertices (pairs : list (string * string)) (g : string -> Fl) :
  pairs <> [] ->
  Forall (fun p =>
            has_char " " (fst p) = false /\ has_char "," (fst p) = false /\
            has_char " " (snd p) = false /\ has_char "," (snd p) = false /\
            py_float (fst p) = Ok (g (fst p)) /\
            py_float (snd p) = Ok (g (snd p))) pairs ->
  footprint py_float polygon_ok
    (join " " (map (fun p => fst p ++ "," ++ snd p)%string pairs))
  = new_Polygon_xy polygon_ok (map (fun p => (g (snd p), g (fst p))) pairs).
Proof.
  intros Hne Hp. unfold footprint.
  rewrite split_on_join.
  - rewrite map_map.
    rewrite (@mapM_map_Ok _ _ _ (vertex py_float)
               (fun p => split_on "," (fst p ++ "," ++ snd p))
               (fun p => (g (snd p), g (fst p)))).
    + reflexivity.
    + eapply Forall_impl; [|exact Hp].
      intros [lat lon] (_ & Hlat & _ & Hlon & Flat & Flon). cbn [fst snd] in *.
      change (lat ++ "," ++ lon)%string with (lat ++ String "," lon)%string.
      rewrite split_on_append_sep by exact Hlat.
      rewrite split_on_absent by exact Hlon.
      unfold vertex. cbn [unpack2 bind fst snd]. now rewrite Flon, Flat.
  - destruct pairs; [contradiction | discriminate].
  - rewrite Forall_map. eapply Forall_impl; [|exact Hp].
    intros [lat lon] (Hlat & _ & Hlon & _). cbn [fst snd] in *.
    rewrite !has_char_append, Hlat, Hlon. reflexivity.
Qed.

(** X5. When [float] raises nothing but [ValueError], a footprint text with a
    token that does not have exactly two comma-separated fields (an empty
    text, a doubled or a trailing space, a third coordinate) makes the call
    raise [ValueError]. *)
Theorem list_poly_from_list_string_coords_bad_token
    (str_coords_list : list string) (gmlpoly tok : string) :
  (forall s e, py_float s = Raise e -> e = ValueError) ->
  In gmlpoly str_coords_list ->
  In tok (split_on " " gmlpoly) ->
  length (split_on "," tok) <> 2%nat ->
  list_poly_from_list_string_coords py_float polygon_ok str_coords_list
  = Raise ValueError.
Proof.
  intros Hfloat Hin Htok Hlen.
  assert (Hvertex : forall parts e, vertex py_float parts = Raise e -> e = ValueError).
  { intros parts e. unfold vertex.
    destruct (unpack2 parts) as [[lat lon]|e'] eqn:Hu; cbn [bind fst snd].
    - destruct (py_float lon) as [x|e1] eqn:H1; cbn [bind].
      + destruct (py_float lat) as [y|e2] eqn:H2; cbn [bind]; [discriminate|].
        intros H; inv_Ok H. eauto.
      + intros H; inv_Ok H. eauto.
    - intros H; inv_Ok H.
      destruct parts as [|a [|b [|c parts]]]; cbn in Hu; congruence. }
  assert (Hfoot : forall s e, footprint py_float polygon_ok s = Raise e -> e = ValueError).
  { intros s e. unfold footprint.
    destruct (mapM _ _) as [pts|e'] eqn:Hm; cbn [bind].
    - unfold new_Polygon_xy. destruct (polygon_ok pts); [discriminate|].
      intros H; now inv_Ok H.
    - intros H; inv_Ok H.
      apply mapM_Raise_inv in Hm as [parts [_ Hparts]]. eauto. }
  assert (Hbad : exists e, footprint py_float polygon_ok gmlpoly = Raise e).
  { unfold footprint.
    destruct (@mapM_In_Raise _ _ (vertex py_float)
                (map (split_on ",") (split_on " " gmlpoly))
                (split_on "," tok) ValueError) as [e He].
    - now apply in_map.
    - unfold vertex.
      destruct (split_on "," tok) as [|a [|b [|c parts]]]; cbn in Hlen |- *;
        try reflexivity. lia.
    - rewrite He. cbn [bind]. eauto. }
  destruct Hbad as [e0 He0].
  unfold list_poly_from_list_string_coords.
  destruct (@mapM_In_Raise _ _ _ _ _ _ Hin He0) as [e He].
  rewrite He. f_equal.
  apply mapM_Raise_inv in He as [s [_ Hs]]. eauto.
Qed.

End FootprintsProps.

Lemma footprint_vertices_witness :
  footprint (fun s => Ok (String.length s)) (fun pts => (3 <=? length pts)%nat)
    "1,22 333,4444 55555,666666 1,22"
  = Ok (mkPolygon_xy [(2, 1); (4, 3); (6, 5); (2, 1)]%nat).
Proof.
  apply (@footprint_vertices nat (fun s => Ok (String.length s))
           (fun pts => (3 <=? length pts)%nat)
           [("1", "22"); ("333", "4444"); ("55555", "666666"); ("1", "22")]%string
           String.length).
  - discriminate.
  - repeat constructor.
Defined.

Lemma list_poly_from_list_string_coords_bad_token_witness :
  list_poly_from_list_string_coords (fun s => Ok (String.length s))
    (fun pts => (3 <=? length pts)%nat) ["1,2 3,4 5,6 "; "1,2 3,4 5,6"]%string
  = Raise ValueError.
Proof.
  apply (@list_poly_from_list_string_coords_bad_token nat
           (fun s => Ok (String.length s)) (fun pts => (3 <=? length pts)%nat)
           ["1,2 3,4 5,6 "; "1,2 3,4 5,6"]%string "1,2 3,4 5,6 "%string ""%string).
  - intros s e H. discriminate H.
  - now left.
  - simpl. tauto.
  - simpl. lia.
Defined.

(** ** The evaluator: overlapping blocks *)

Section WritesAt.

Context {F : Type}.

Lemma write_row_written (mask : list bool) (row : list F) (xs : list Z)
    (f : Z -> F) (j : nat) (d : F) :
  length mask = length xs -> length row = length xs ->
  nth j mask false = true ->
  nth j (write_row mask row (map f (select mask xs))) d = f (nth j xs 0%Z).
Proof.
  revert row xs j; induction mask as [|b mask IH]; intros row xs j Hm Hr Hj.
  - destruct j; discriminate.
  - destruct xs as [|x xs]; [discriminate|].
    destruct row as [|r row]; [discriminate|].
    cbn in Hm, Hr. destruct b; cbn [select map write_row].
    + destruct j as [|j]; [reflexivity|]. cbn [nth] in *. apply IH; lia || assumption.
    + destruct j as [|j]; [discriminate|]. cbn [nth] in *. apply IH; lia || assumption.
Qed.

Lemma write_rows_written (mask_a mask_x : list bool) (noise : list (list F))
    (la xs : list Z) (g : Z -> Z -> F) (i j : nat) (d : F) :
  length mask_a = length la -> length noise = length la ->
  Forall (fun row => length row = length xs) noise ->
  length mask_x = length xs ->
  nth i mask_a false = true -> nth j mask_x false = true ->
  nth j (nth i (write_rows mask_a mask_x noise
                  (map (fun a => map (g a) (select mask_x xs)) (select mask_a la)))
            []) d
  = g (nth i la 0%Z) (nth j xs 0%Z).
Proof.
  revert noise la i; induction mask_a as [|b mask_a IH];
    intros noise la i Hm Hn Hw Hx Hi Hj.
  - destruct i; discriminate.
  - destruct la as [|a la]; [discriminate|].
    destruct noise as [|r noise]; [discriminate|].
    cbn in Hm, Hn. apply Forall_cons_iff in Hw as [Hr Hw].
    destruct b; cbn [select map write_rows].
    + destruct i as [|i]; cbn [nth] in *.
      * now apply write_row_written.
      * apply IH; lia || assumption.
    + destruct i as [|i]; [discriminate|]. cbn [nth] in *.
      apply IH; lia || assumption.
Qed.

End WritesAt.

Section Overlap.

Context {F : Type} {ops : FloatOps F}.

Lemma eval_blocks_app atracks xtracks (l1 l2 : list (block F * box)) noise :
  eval_blocks atracks xtracks noise (l1 ++ l2)
  = (noise1 <- eval_blocks atracks xtracks noise l1 ;;
     eval_blocks atracks xtracks noise1 l2).
Proof.
  revert noise; induction l1 as [|bg l1 IH]; intros noise; cbn [eval_blocks app bind].
  - reflexivity.
  - destruct (eval_block atracks xtracks noise bg) as [n1|e]; cbn [bind];
      [apply IH | reflexivity].
Qed.

(** A block writes its own values on the positions it selects. *)
Lemma eval_block_written atracks xtracks noise noise' (b : block F) (g : box)
    (gb : Z -> Z -> F) (i j : nat) (d : F) :
  eval_block atracks xtracks noise (b, g) = Ok noise' ->
  pointwise b gb ->
  has_shape noise (length atracks) (length xtracks) ->
  (i < length atracks)%nat -> (j < length xtracks)%nat ->
  in_int_bounds g (nth i atracks 0%Z) (nth j xtracks 0%Z) ->
  nth j (nth i noise' []) d = gb (nth i atracks 0%Z) (nth j xtracks 0%Z).
Proof.
  intros H Hp [Hrows Hcols] Hi Hj [[Ha1 Ha2] [Hx1 Hx2]].
  unfold eval_block, int_bounds in H. cbn [fst snd] in H.
  apply bind_Ok_inv in H as [value [Hvalue H]].
  unfold loc_assign in H.
  destruct (negb (unique atracks && unique xtracks)); [discriminate|].
  apply bind_Ok_inv in H as [vals [Hvals H]]. inv_Ok H.
  destruct (Hp (select (between (Qtrunc (minx g)) (Qtrunc (maxx g)) atracks) atracks)
               (select (between (Qtrunc (miny g)) (Qtrunc (maxy g)) xtracks) xtracks))
    as [v [Hv Hb]].
  rewrite Hv in Hvalue. inv_Ok Hvalue. rewrite Hb in Hvals. inv_Ok Hvals.
  apply write_rows_written; try assumption.
  - unfold between. now rewrite length_map.
  - unfold between. now rewrite length_map.
  - rewrite between_nth by assumption.
    apply andb_true_intro. split; apply Z.leb_le; assumption.
  - rewrite between_nth by assumption.
    apply andb_true_intro. split; apply Z.leb_le; assumption.
Qed.

(** X24. Last block wins: where the sub-ranges of several matching blocks
    overlap, the value returned at a position is the one of the last block,
    in the order of the table, whose sub-ranges contain it. *)
Theorem NoiseLut_call_last_block_wins (self : NoiseLut F) (atracks xtracks : list Z)
    (asked : box) (pre post : list (block F * box)) (b : block F) (g : box)
    (gb : Z -> Z -> F) (i j : nat) (noise : list (list F)) :
  asked_box atracks xtracks = Ok asked ->
  match_blocks (blocks self) asked = pre ++ (b, g) :: post ->
  pointwise b gb ->
  (i < length atracks)%nat -> (j < length xtracks)%nat ->
  in_int_bounds g (nth i atracks 0%Z) (nth j xtracks 0%Z) ->
  (forall bg, In bg post ->
     ~ in_int_bounds (snd bg) (nth i atracks 0%Z) (nth j xtracks 0%Z)) ->
  NoiseLut_call self atracks xtracks = Ok (Values noise) ->
  nth j (nth i noise []) nan = gb (nth i atracks 0%Z) (nth j xtracks 0%Z).
Proof.
  intros Hasked Hmatch Hp Hi Hj Hin Hpost Hcall.
  assert (Hbs : blocks self <> []).
  { intros E. rewrite E in Hmatch. cbn in Hmatch. now destruct pre. }
  assert (Ha : atracks <> []) by (intros ->; simpl in Hi; lia).
  assert (Hx : xtracks <> []) by (intros ->; simpl in Hj; lia).
  destruct (NoiseLut_call_loop self Hbs Ha Hx) as [asked' [Hasked' Hloop]].
  rewrite Hasked in Hasked'. inv_Ok Hasked'.
  rewrite Hloop, Hmatch in Hcall. clear Hloop.
  apply bind_Ok_inv in Hcall as [out [Hout Hcall]]. inv_Ok Hcall.
  rewrite eval_blocks_app in Hout.
  apply bind_Ok_inv in Hout as [noise1 [Hpre Hout]].
  cbn [eval_blocks] in Hout.
  apply bind_Ok_inv in Hout as [noise2 [Hb Hout]].
  destruct (eval_blocks_frame _ _ _ _ (length xtracks) Hpre) as [Hlen1 [Hw1 _]].
  destruct (@repeat_nan_shape F ops (length atracks) (length xtracks)) as [Hr0 Hc0].
  assert (Hshape1 : has_shape noise1 (length atracks) (length xtracks)).
  { split; [congruence | now apply Hw1]. }
  destruct (eval_blocks_frame _ _ _ _ (length xtracks) Hout) as [_ [_ Hkeep]].
  rewrite (Hkeep i j Hi Hj Hpost).
  now apply (@eval_block_written atracks xtracks noise1 noise2 b g gb i j nan Hb Hp Hshape1).
Qed.

End Overlap.
(** ** The tables built by noise_lut_range and noise_lut_azi *)

Lemma repeat_map_const {A B : Type} (v : B) (l : list A) :
  repeat v (length l) = map (fun _ => v) l.
Proof. induction l as [|a l IH]; simpl; [reflexivity | now rewrite IH]. Qed.


Section Tables.

Context {F : Type} {ops : FloatOps F}.

(** A block of [noise_lut_range] can be built exactly on a profile of
    two samples or more with as many positions as values. *)
Lemma range_block_returns_iff (s e : Z) (x : list Z) (l : list F) :
  (exists b, range_block (s, e, x, l) = Ok b)
  <-> length x = length l /\ (2 <= length x)%nat.
Proof.
  unfold range_block, new_Lut_box_range, new_interp1d. split.
  - intros [b H].
    destruct (first x); [|discriminate].
    destruct (last_item x); [|discriminate]. cbn [bind] in H.
    destruct (Nat.eqb_spec (length x) (length l)); [|discriminate].
    cbn [negb] in H.
    destruct (Nat.ltb_spec (length x) 2); [discriminate|]. auto.
  - intros [Hl H2].
    destruct x as [|x0 x]; [simpl in H2; lia|].
    rewrite (@last_item_last _ (x0 :: x) 0%Z) by discriminate.
    cbn [first bind]. rewrite Hl, Nat.eqb_refl. cbn [negb].
    rewrite <- Hl. rewrite (proj2 (Nat.ltb_ge _ _) H2). cbn [bind]. eauto.
Qed.

(** Its values do not depend on the line: at [(a, q)] it is the value at
    [q] of the interpolator of the profile, NaN outside the extent of the
    profile. *)
Lemma range_block_pointwise (s e : Z) (x : list Z) (l : list F) (b : block F) :
  range_block (s, e, x, l) = Ok b ->
  pointwise b (fun _ q => interp1d_call (mkinterp1d x l false) q).
Proof.
  unfold range_block, new_Lut_box_range, new_interp1d. intros H.
  destruct (first x); [|discriminate].
  destruct (last_item x); [|discriminate]. cbn [bind] in H.
  destruct (negb (length x =? length l)%nat); [discriminate|].
  destruct (length x <? 2)%nat; [discriminate|]. cbn [bind] in H. inv_Ok H.
  intros sub_a sub_x. cbn [lut_f]. eexists. split; [reflexivity|].
  unfold Lut_box_range_call. cbn [lbr_lut_f].
  rewrite <- repeat_map_const. apply broadcast_fitting_array.
  - apply repeat_length.
  - apply Forall_forall. intros row Hrow. apply repeat_spec in Hrow. subst.
    apply length_map.
Qed.



(** X22. The table built by [noise_lut_range] evaluates, on non-empty arrays
    of distinct coordinates, to an array of the queried shape. *)
Theorem noise_lut_range_evaluates (atracks : list Z) (xtracks : list (list Z))
    (noiseLuts : list (list F)) (lut : NoiseLut F) (qa qx : list Z) :
  noise_lut_range atracks xtracks noiseLuts = Ok lut ->
  qa <> [] -> qx <> [] -> unique qa = true -> unique qx = true ->
  exists noise,
    NoiseLut_call lut qa qx = Ok (Values noise)
    /\ has_shape noise (length qa) (length qx).
Proof.
  intros H Ha Hx Ua Ux.
  destruct (noise_lut_range_well_behaved _ _ _ H) as [Hne Hwb].
  now apply NoiseLut_call_total.
Qed.

(** X23. The same for the table built by [noise_lut_azi] on non-empty
    profiles; coordinates that repeat are refused with
    [InvalidIndexError] as soon as a block matches. *)
Theorem noise_lut_azi_evaluates (S : Type) (atrack_azi : list (list Z))
    (atrack_azi_start atrack_azi_stop xtrack_azi_start xtrack_azi_stop : list Z)
    (noise_azi_lut : list (list F)) (swath : list S) (lut : NoiseLut F)
    (qa qx : list Z) :
  Forall (fun l => l <> []) noise_azi_lut ->
  noise_lut_azi atrack_azi atrack_azi_start atrack_azi_stop xtrack_azi_start
    xtrack_azi_stop noise_azi_lut swath = Ok lut ->
  qa <> [] -> qx <> [] -> unique qa = true -> unique qx = true ->
  exists noise,
    NoiseLut_call lut qa qx = Ok (Values noise)
    /\ has_shape noise (length qa) (length qx).
Proof.
  intros Hl H Ha Hx Ua Ux.
  destruct (@noise_lut_azi_well_behaved F ops S _ _ _ _ _ _ _ _ Hl H) as [Hne Hwb].
  now apply NoiseLut_call_total.
Qed.

End Tables.
(** ** noise_lut_azi: when the table is built *)

Section AziTables.

Context {F : Type} {ops : FloatOps F}.

Lemma azi_block_returns_iff (S : Type) (sw : S) (a : list Z)
    (a_start a_stop x_start x_stop : Z) (lut : list F) :
  (exists b, azi_block (sw, a, a_start, a_stop, x_start, x_stop, lut) = Ok b)
  <-> ((1 < length lut)%nat -> length a = length lut).
Proof.
  unfold azi_block, new_Lut_box_azi, new_interp1d.
  destruct (Nat.ltb_spec 1 (length lut)) as [Hlong|Hshort].
  - destruct (Nat.eqb_spec (length a) (length lut)) as [E|E]; cbn [negb bind].
    + rewrite (proj2 (Nat.ltb_ge (length a) 2)) by lia. cbn [bind].
      split; [auto | eauto].
    + split; [intros [b H]; discriminate | intros H; now specialize (H Hlong)].
  - cbn [bind]. split; [intros _ H; lia | eauto].
Qed.

(** X21. [noise_lut_azi] returns a table unless one of the records zipped has
    two noise values or more and another number of lines; the table has one
    block per record, or the single synthetic block when there is no
    record. *)
Theorem noise_lut_azi_returns_iff (S : Type) (atrack_azi : list (list Z))
    (atrack_azi_start atrack_azi_stop xtrack_azi_start xtrack_azi_stop : list Z)
    (noise_azi_lut : list (list F)) (swath : list S) :
  let records := zip7 swath atrack_azi atrack_azi_start atrack_azi_stop
                   xtrack_azi_start xtrack_azi_stop noise_azi_lut in
  ((exists lut,
      noise_lut_azi atrack_azi atrack_azi_start atrack_azi_stop xtrack_azi_start
        xtrack_azi_stop noise_azi_lut swath = Ok lut)
   <-> Forall (fun '(sw, a, a_start, a_stop, x_start, x_stop, lut) =>
                 (1 < length lut)%nat -> length a = length lut) records)
  /\ forall lut,
       noise_lut_azi atrack_azi atrack_azi_start atrack_azi_stop xtrack_azi_start
         xtrack_azi_stop noise_azi_lut swath = Ok lut ->
       length (blocks lut) = Nat.max 1 (length records).
Proof.
  cbv zeta. unfold noise_lut_azi.
  set (records := zip7 swath atrack_azi atrack_azi_start atrack_azi_stop
                    xtrack_azi_start xtrack_azi_stop noise_azi_lut).
  assert (Hblock : forall p : S * list Z * Z * Z * Z * Z * list F,
             (exists b, azi_block p = Ok b)
             <-> (let '(sw, a, a_start, a_stop, x_start, x_stop, lut) := p in
                  (1 < length lut)%nat -> length a = length lut)).
  { intros [[[[[[sw a] a_start] a_stop] x_start] x_stop] lut].
    apply azi_block_returns_iff. }
  split; [split|].
  - intros [lut H]. apply bind_Ok_inv in H as [bs [Hbs _]].
    apply mapM_Ok_Forall in Hbs.
    eapply Forall_impl; [|exact Hbs]. intros p Hp. now apply Hblock.
  - intros Hall.
    destruct (@mapM_total _ _ azi_block records) as [bs Hbs].
    { eapply Forall_impl; [|exact Hall]. intros p Hp. now apply Hblock. }
    rewrite Hbs. cbn [bind].
    destruct bs as [|b bs]; cbn [length Nat.eqb app blocks_frame bind]; eauto.
  - intros lut H. apply bind_Ok_inv in H as [bs [Hbs H]].
    pose proof (mapM_length _ _ Hbs) as Hlen.
    destruct bs as [|b bs]; cbn [length Nat.eqb app blocks_frame bind] in H;
      inv_Ok H; cbn [blocks length] in *; rewrite <- Hlen; reflexivity.
Qed.

End AziTables.

(** ** noise_lut_range: a block at its own samples *)

(** X20. Round trip: a block of [noise_lut_range] built on a profile with
    increasing positions, evaluated at one of these positions, returns the
    noise value given there, on every line queried. *)
Theorem range_block_at_samples (s e : Z) (x : list Z) (lut : list Q)
    (b : block (option Q)) (k : nat) (sub_a : list Z) :
  range_block (s, e, x, map Some lut) = Ok b ->
  strictly_increasing x -> (k < length x)%nat ->
  exists v,
    lut_f b sub_a [nth k x 0%Z] = Ok (Array2 (repeat [Some v] (length sub_a)))
    /\ (v == nth k lut 0%Q)%Q.
Proof.
  intros Hb Hinc Hk.
  destruct (proj1 (range_block_returns_iff s e x (map Some lut)) (ex_intro _ b Hb))
    as [Hlen H2].
  rewrite length_map in Hlen.
  destruct (@call_linear_at_sample x lut k Hinc Hlen H2 Hk) as [v [Hv Hq]].
  exists v. split; [|exact Hq].
  unfold range_block, new_Lut_box_range, new_interp1d in Hb.
  destruct (first x); [|discriminate].
  destruct (last_item x); [|discriminate]. cbn [bind] in Hb.
  destruct (negb (length x =? length (map Some lut))%nat); [discriminate|].
  destruct (length x <? 2)%nat; [discriminate|]. cbn [bind] in Hb. inv_Ok Hb.
  cbn [lut_f]. unfold Lut_box_range_call, interp1d_call.
  cbn [lbr_lut_f extrapolate interp_x interp_y map].
  assert (Hin : In (nth k x 0%Z) x) by now apply nth_In.
  destruct (@strictly_increasing_span x (nth k x 0%Z) Hinc Hin) as [H0 H1].
  rewrite (proj2 (Z.ltb_ge _ _) H0), (proj2 (Z.ltb_ge _ _) H1). cbn [orb].
  now rewrite Hv.
Qed.

(** ** bursts *)

Section BurstsMore.

Context {TimeT AnxT OffT : Type}.
Variable nan_to_int32 : result Z.
Variable overflow_to_int32 : Z -> result Z.

Lemma where_from_none (mask : list bool) (k : nat) :
  Forall (fun b => b = false) mask -> where_from k mask = [].
Proof.
  intros H; revert k; induction H as [|b mask -> _ IH]; intros k; simpl; auto.
Qed.

Lemma isfinite_all_missing (row : list Z) :
  Forall (fun v => v = (-1)%Z) row ->
  Forall (fun b => b = false) (map isfinite (mask_missing row)).
Proof.
  induction 1 as [|v row -> _ IH]; simpl; constructor; auto.
Qed.

Lemma np_broadcast2_orb_none (m1 m2 mask : list bool) :
  Forall (fun b => b = false) m1 -> Forall (fun b => b = false) m2 ->
  np_broadcast2 orb m1 m2 = Ok mask -> Forall (fun b => b = false) mask.
Proof.
  intros H1 H2. unfold np_broadcast2.
  destruct (length m1 =? length m2)%nat.
  - intros H. inv_Ok H. clear -H1 H2.
    revert m2 H2; induction H1 as [|a m1 -> _ IH]; intros m2 H2; simpl;
      [constructor|].
    destruct H2 as [|b m2 -> H2]; constructor; [reflexivity | now apply IH].
  - destruct m1 as [|a [|a' m1]].
    + destruct m2 as [|b [|b' m2]]; try discriminate.
      intros H. inv_Ok H. constructor.
    + intros H. inv_Ok H. apply Forall_inv in H1. subst a.
      now rewrite map_id.
    + destruct m2 as [|b [|b' m2]]; try discriminate.
      intros H. inv_Ok H. apply Forall_inv in H2. subst b.
      change (Forall (fun b => b = false)
                (map (fun a => a || false) (a :: a' :: m1))).
      rewrite Forall_map. eapply Forall_impl; [|exact H1].
      intros c ->. reflexivity.
Qed.

(** X13. A burst without any valid sample (both rows missing everywhere) makes
    [bursts] raise: no table is returned. *)
Theorem bursts_no_valid_sample (lines_per_burst samples_per_burst : Z)
    (azt : list TimeT) (anx : list AnxT) (sens : list TimeT) (off : list OffT)
    (fvs lvs : list (list Z)) (i : nat) (frow lrow : list Z) :
  ~ (lines_per_burst = 0%Z /\ samples_per_burst = 0%Z) ->
  (i < length azt)%nat ->
  nth_error fvs i = Some frow -> nth_error lvs i = Some lrow ->
  Forall (fun v => v = (-1)%Z) frow -> Forall (fun v => v = (-1)%Z) lrow ->
  exists e,
    bursts nan_to_int32 overflow_to_int32 lines_per_burst samples_per_burst
      azt anx sens off fvs lvs = Raise e.
Proof.
  intros Hnz Hi Hf Hl Hfm Hlm. unfold bursts.
  assert (Hguard : ((lines_per_burst =? 0) && (samples_per_burst =? 0))%Z = false).
  { destruct (Z.eqb_spec lines_per_burst 0); [|reflexivity].
    destruct (Z.eqb_spec samples_per_burst 0); [|reflexivity].
    exfalso. now apply Hnz. }
  rewrite Hguard. cbv zeta.
  assert (Hrow : valloc nan_to_int32 overflow_to_int32 lines_per_burst
                   (map mask_missing fvs) (map mask_missing lvs) i
                 = Raise ValueError).
  { unfold valloc, item. rewrite !nth_error_map, Hf, Hl. cbn [option_map bind].
    destruct (np_broadcast2 orb (map isfinite (mask_missing frow))
                (map isfinite (mask_missing lrow))) as [mask|e] eqn:Hm.
    - cbn [bind]. unfold np_where.
      rewrite where_from_none; [reflexivity|].
      eapply np_broadcast2_orb_none; [| |exact Hm];
        now apply isfinite_all_missing.
    - cbn [bind]. clear -Hm. unfold np_broadcast2 in Hm.
      destruct (_ =? _)%nat; [discriminate|].
      destruct (map isfinite (mask_missing frow)) as [|a [|a' m1]];
        destruct (map isfinite (mask_missing lrow)) as [|b [|b' m2]];
        try discriminate; now inv_Ok Hm. }
  destruct (@mapM_In_Raise _ _
              (valloc nan_to_int32 overflow_to_int32 lines_per_burst
                 (map mask_missing fvs) (map mask_missing lvs))
              (seq 0 (length azt)) i ValueError) as [e He].
  - apply in_seq. lia.
  - exact Hrow.
  - rewrite He. cbn [bind]. eauto.
Qed.

(** X12. In the table returned, the box of a burst whose two rows are missing
    on the same columns, with lines and samples in [int32], is exact: the
    first and the last valid line, offset by the first line of the burst,
    the least first-valid sample and the greatest last-valid sample. *)
Theorem bursts_valid_location_box (lines_per_burst samples_per_burst : Z)
    (azt : list TimeT) (anx : list AnxT) (sens : list TimeT) (off : list OffT)
    (fvs lvs : list (list Z)) (ds : BurstDataset TimeT AnxT OffT)
    (i : nat) (frow lrow : list Z) :
  bursts nan_to_int32 overflow_to_int32 lines_per_burst samples_per_burst
    azt anx sens off fvs lvs = Ok (Some ds) ->
  (i < length azt)%nat ->
  nth_error fvs i = Some frow -> nth_error lvs i = Some lrow ->
  length frow = length lrow ->
  (forall j, (j < length frow)%nat ->
             (nth j frow 0 = -1 <-> nth j lrow 0 = -1)%Z) ->
  (exists j, valid_index frow lrow j) ->
  (forall j, (j < length frow)%nat ->
             in_int32 (Z.of_nat i * lines_per_burst + Z.of_nat j)
             /\ in_int32 (nth j frow 0%Z) /\ in_int32 (nth j lrow 0%Z)) ->
  exists (jmin jmax : nat) (fmin lmax : Z),
    nth_error (valid_location ds) i
    = Some [(Z.of_nat i * lines_per_burst + Z.of_nat jmin)%Z; fmin;
            (Z.of_nat i * lines_per_burst + Z.of_nat jmax)%Z; lmax]
    /\ least_over (valid_index frow lrow) Z.of_nat (Z.of_nat jmin)
    /\ greatest_over (valid_index frow lrow) Z.of_nat (Z.of_nat jmax)
    /\ least_over (valid_index frow lrow) (fun j => nth j frow 0%Z) fmin
    /\ greatest_over (valid_index frow lrow) (fun j => nth j lrow 0%Z) lmax.
Proof.
  intros H Hi Hf Hl Hlen Hal Hval Hrange. unfold bursts in H.
  destruct ((lines_per_burst =? 0) && (samples_per_burst =? 0))%Z; [discriminate|].
  cbv zeta in H.
  apply bind_Ok_inv in H as [vl [Hvl H]].
  apply bind_Ok_inv in H as [da [Hda H]]. inv_Ok H.
  unfold new_BurstDataset in Hda.
  match type of Hda with
  | (if ?c then _ else _) = _ => destruct c; [|discriminate]
  end.
  inv_Ok Hda. cbn [valid_location].
  destruct (mapM_seq_nth_error _ Hvl Hi) as [row [Hrow Hnth]].
  destruct (@valloc_aligned_in_range nan_to_int32 overflow_to_int32
              lines_per_burst fvs lvs i frow lrow Hf Hl Hlen Hal Hval Hrange)
    as [jmin [jmax [fmin [lmax [Hv Hrest]]]]].
  exists jmin, jmax, fmin, lmax. split; [|exact Hrest].
  rewrite Hv in Hrow. inv_Ok Hrow. exact Hnth.
Qed.

End BurstsMore.

(** ** df_files *)

Lemma py_int_raises (w : string) (e : exn) :
  py_int w = Raise e -> e = ValueError.
Proof.
  assert (Hu : forall s e', parse_unsigned s = Raise e' -> e' = ValueError).
  { intros s e'. unfold parse_unsigned.
    destruct s; [intros H; now inv_Ok H|].
    destruct (parse_digits _ _); [discriminate | intros H; now inv_Ok H]. }
  unfold py_int. destruct w as [|c w']; [apply Hu|].
  destruct c as [[] [] [] [] [] [] [] []]; try apply Hu.
  intros H. destruct (parse_unsigned w') as [v|e'] eqn:E; [discriminate|].
  cbn [bind] in H. inv_Ok H. now apply (Hu w').
Qed.

Lemma count_distinct_nonempty (l : list string) :
  l <> [] -> count_distinct l <> 0%nat.
Proof.
  destruct l as [|a l]; [congruence|]. intros _ H.
  unfold count_distinct in H. apply length_zero_iff_nil in H.
  assert (Hin : In a (nodup string_dec (a :: l))) by (apply nodup_In; now left).
  rewrite H in Hin. contradiction.
Qed.

(** X16. [df_files] raises [ZeroDivisionError] exactly when it is given no
    annotation file (there is then no polarization to divide by), whatever
    the other three lists are; no other input raises it. *)
Theorem df_files_zero_division_iff (ann meas noi cal : list string) :
  df_files ann meas noi cal = Raise ZeroDivisionError <-> ann = [].
Proof.
  split; [|intros ->; reflexivity].
  intros H. destruct ann as [|a ann]; [reflexivity|]. exfalso.
  unfold df_files in H.
  destruct (mapM file_pol (a :: ann)) as [pols|e] eqn:Hp; cbn [bind] in H.
  2: { inv_Ok H. apply mapM_Raise_inv in Hp as [f [_ Hf]].
       unfold file_pol, item in Hf. destruct (nth_error _ 3); discriminate. }
  destruct (mapM file_num (a :: ann)) as [num|e] eqn:Hn; cbn [bind] in H.
  2: { inv_Ok H. apply mapM_Raise_inv in Hn as [f [_ Hf]].
       unfold file_num, item in Hf.
       destruct (nth_error _ 8); cbn [bind] in Hf; [|discriminate].
       apply py_int_raises in Hf. discriminate. }
  destruct (mapM file_dsid (a :: ann)) as [raw|e] eqn:Hd; cbn [bind] in H.
  2: { inv_Ok H. apply mapM_Raise_inv in Hd as [f [_ Hf]].
       unfold file_dsid, item in Hf. destruct (nth_error _ 1); discriminate. }
  assert (Hc : count_distinct pols <> 0%nat).
  { apply count_distinct_nonempty. apply mapM_length in Hp.
    destruct pols; [discriminate | discriminate]. }
  unfold floordiv in H.
  destruct (count_distinct pols) as [|k]; [congruence|]. cbn [bind] in H.
  match type of H with
  | bind ?m _ = _ => destruct m as [ids|e] eqn:Hids
  end; cbn [bind] in H.
  - unfold new_FilesFrame in H.
    match type of H with
    | (if ?c then _ else _) = _ => destruct c; discriminate
    end.
  - inv_Ok H.
    match type of Hids with
    | (if ?c then _ else _) = _ => destruct c; [|discriminate]
    end.
    destruct (first raw) as [d0|e] eqn:Hf; cbn [bind] in Hids.
    + match type of Hids with
      | (if ?c then _ else _) = _ => destruct c; discriminate
      end.
    + destruct raw; [|discriminate]. apply mapM_length in Hd. discriminate.
Qed.


(** ** azimuth_fmrate: the combined polynomial *)

(** ** The properties at concrete inputs *)

Lemma NoiseLut_call_last_block_wins_witness :
  exists lut noise,
    noise_lut_range [0; 10]%Z [[0; 10]; [0; 10]]%Z
      [[Some 1%Q; Some 1%Q]; [Some 2%Q; Some 2%Q]] = Ok lut
    /\ NoiseLut_call lut [5]%Z [3]%Z = Ok (Values noise)
    /\ nth 0 (nth 0 noise []) nan
       = interp1d_call (mkinterp1d [0; 10]%Z [Some 2%Q; Some 2%Q] false) 3%Z.
Proof.
  eexists. eexists. split; [reflexivity|].
  match goal with |- NoiseLut_call ?l _ _ = _ /\ _ => set (lut := l) end.
  split; [reflexivity|].
  eapply (@NoiseLut_call_last_block_wins (option Q) Q_FloatOps lut [5]%Z [3]%Z _
            [_] [] _ _
            (fun _ q => interp1d_call (mkinterp1d [0; 10]%Z [Some 2%Q; Some 2%Q] false) q)
            0 0).
  - reflexivity.
  - reflexivity.
  - apply (@range_block_pointwise (option Q) Q_FloatOps 5 65535 [0; 10]%Z
             [Some 2%Q; Some 2%Q]).
    reflexivity.
  - simpl; lia.
  - simpl; lia.
  - vm_compute. intuition discriminate.
  - intros bg [].
  - reflexivity.
Defined.


Lemma noise_lut_range_evaluates_witness :
  exists lut,
    noise_lut_range [0; 10]%Z [[0; 10]; [0; 10]]%Z
      [[Some 1%Q; Some 1%Q]; [Some 2%Q; Some 2%Q]] = Ok lut
    /\ exists noise,
         NoiseLut_call lut [5; 6]%Z [3]%Z = Ok (Values noise)
         /\ has_shape noise 2 1.
Proof.
  eexists. split; [reflexivity|].
  eapply (@noise_lut_range_evaluates (option Q) Q_FloatOps [0; 10]%Z
            [[0; 10]; [0; 10]]%Z [[Some 1%Q; Some 1%Q]; [Some 2%Q; Some 2%Q]]
            _ [5; 6]%Z [3]%Z).
  - reflexivity.
  - discriminate.
  - discriminate.
  - reflexivity.
  - reflexivity.
Defined.

Lemma noise_lut_azi_evaluates_witness :
  exists lut,
    noise_lut_azi [[5]]%Z [0]%Z [10]%Z [0]%Z [10]%Z [[Some 7%Q]] [tt] = Ok lut
    /\ exists noise,
         NoiseLut_call lut [5; 6]%Z [3]%Z = Ok (Values noise)
         /\ has_shape noise 2 1.
Proof.
  eexists. split; [reflexivity|].
  eapply (@noise_lut_azi_evaluates (option Q) Q_FloatOps unit [[5]]%Z [0]%Z [10]%Z
            [0]%Z [10]%Z [[Some 7%Q]] [tt] _ [5; 6]%Z [3]%Z).
  - repeat constructor. discriminate.
  - reflexivity.
  - discriminate.
  - discriminate.
  - reflexivity.
  - reflexivity.
Defined.

Lemma range_block_at_samples_witness :
  exists b v,
    range_block (0, 5, [0; 10], map Some [1%Q; 2%Q])%Z = Ok b
    /\ lut_f b [7; 8]%Z [10]%Z = Ok (Array2 (repeat [Some v] 2))
    /\ (v == 2)%Q.
Proof.
  eexists.
  destruct (@range_block_at_samples 0 5 [0; 10]%Z [1%Q; 2%Q]
              (mkblock
                 (fun a x =>
                    Ok (Lut_box_range_call
                          (mkLut_box_range 0 5 [0; 10]%Z
                             (shapely_box (inject_Z 0) (inject_Z 0)
                                (inject_Z 5) (inject_Z 10))
                             (mkinterp1d [0; 10]%Z [Some 1%Q; Some 2%Q] false))
                          a x))
                 (shapely_box (inject_Z 0) (inject_Z 0) (inject_Z 5) (inject_Z 10)))
              1 [7; 8]%Z eq_refl strictly_increasing_0_10 ltac:(simpl; lia))
    as [v [Hv Hq]].
  exists v. split; [reflexivity|]. split; [exact Hv | exact Hq].
Defined.

Lemma bursts_no_valid_sample_witness :
  exists e,
    bursts (Ok 0%Z) (fun z => Ok z) 3 50 [0%nat] [0%nat] [0%nat] [0%nat]
      [[-1; -1]]%Z [[-1; -1]]%Z = Raise e.
Proof.
  apply (@bursts_no_valid_sample nat nat nat (Ok 0%Z) (fun z => Ok z) 3 50
           [0%nat] [0%nat] [0%nat] [0%nat] [[-1; -1]]%Z [[-1; -1]]%Z 0
           [-1; -1]%Z [-1; -1]%Z).
  - intros [H _]. discriminate H.
  - simpl; lia.
  - reflexivity.
  - reflexivity.
  - repeat constructor.
  - repeat constructor.
Defined.

Lemma bursts_valid_location_box_witness :
  exists ds,
    bursts (Ok 0%Z) (fun z => Ok z) 3 50 [0%nat] [0%nat] [0%nat] [0%nat]
      [[-1; 5; 6]]%Z [[-1; 40; 41]]%Z = Ok (Some ds)
    /\ valid_location ds = [[1; 5; 2; 41]]%Z
    /\ exists (jmin jmax : nat) (fmin lmax : Z),
         nth_error (valid_location ds) 0
         = Some [(Z.of_nat 0 * 3 + Z.of_nat jmin)%Z; fmin;
                 (Z.of_nat 0 * 3 + Z.of_nat jmax)%Z; lmax]
         /\ least_over (valid_index [-1; 5; 6]%Z [-1; 40; 41]%Z) Z.of_nat
              (Z.of_nat jmin)
         /\ greatest_over (valid_index [-1; 5; 6]%Z [-1; 40; 41]%Z) Z.of_nat
              (Z.of_nat jmax)
         /\ least_over (valid_index [-1; 5; 6]%Z [-1; 40; 41]%Z)
              (fun j => nth j [-1; 5; 6]%Z 0%Z) fmin
         /\ greatest_over (valid_index [-1; 5; 6]%Z [-1; 40; 41]%Z)
              (fun j => nth j [-1; 40; 41]%Z 0%Z) lmax.
Proof.
  eexists. split; [reflexivity|]. split; [reflexivity|].
  eapply (@bursts_valid_location_box nat nat nat (Ok 0%Z) (fun z => Ok z) 3 50
            [0%nat] [0%nat] [0%nat] [0%nat] [[-1; 5; 6]]%Z [[-1; 40; 41]]%Z _ 0
            [-1; 5; 6]%Z [-1; 40; 41]%Z).
  - reflexivity.
  - simpl; lia.
  - reflexivity.
  - reflexivity.
  - reflexivity.
  - intros [|[|[|j]]] Hj; simpl in *; lia.
  - exists 1%nat. split; [simpl; lia | left; simpl; lia].
  - intros [|[|[|j]]] Hj; unfold in_int32; simpl in *; lia.
Defined.


Lemma df_files_unique_ids_witness :
  exists df,
    df_files
      ["a/s1a-iw1-slc-vv-20190101t000000-20190101t000025-025000-02c000-004.xml"]%string
      ["m"]%string ["n"]%string ["c"]%string = Ok df
    /\ (count_distinct (dsid df)
        = 1 / count_distinct (polarization df))%nat.
Proof.
  eexists. split; [reflexivity|].
  apply (@df_files_unique_ids
           ["a/s1a-iw1-slc-vv-20190101t000000-20190101t000025-025000-02c000-004.xml"]%string
           ["m"]%string ["n"]%string ["c"]%string _ eq_refl).
Defined.


Lemma noise_lut_range_geometry_witness :
  exists lut,
    noise_lut_range [0; 10]%Z [[0; 10]; [0; 10]]%Z
      [[Some 1%Q; Some 1%Q]; [Some 2%Q; Some 2%Q]] = Ok lut
    /\ exists stops,
         atracks_stop [0; 10]%Z = Ok stops
         /\ forall i b, nth_error (blocks lut) i = Some b ->
              exists s e x,
                nth_error (atracks_start [0; 10]%Z) i = Some s
                /\ nth_error stops i = Some e
                /\ nth_error [[0; 10]; [0; 10]]%Z i = Some x
                /\ geometry b
                   = shapely_box (inject_Z s) (inject_Z (hd 0%Z x))
                       (inject_Z e) (inject_Z (last x 0%Z)).
Proof.
  eexists. split; [reflexivity|].
  eapply (@noise_lut_range_geometry (option Q) Q_FloatOps [0; 10]%Z
            [[0; 10]; [0; 10]]%Z [[Some 1%Q; Some 1%Q]; [Some 2%Q; Some 2%Q]]).
  reflexivity.
Defined.

Lemma in_block_covered_witness :
  covered [@no_azi_block (option Q) Q_FloatOps]
    (shapely_box (9 # 2) (5 # 2) (11 # 2) (7 # 2)) 5 3.
Proof.
  apply (@in_block_covered (option Q) [@no_azi_block (option Q) Q_FloatOps]
           (shapely_box (9 # 2) (5 # 2) (11 # 2) (7 # 2))
           (@no_azi_block (option Q) Q_FloatOps) 5 3).
  - now left.
  - unfold in_box. vm_compute. intuition discriminate.
  - unfold in_box. vm_compute. intuition discriminate.
Defined.

Lemma covered_near_block_witness :
  exists b,
    In b [@no_azi_block (option Q) Q_FloatOps]
    /\ near_box (geometry b) 5 3.
Proof.
  apply (@covered_near_block (option Q) [@no_azi_block (option Q) Q_FloatOps]
           (shapely_box (9 # 2) (5 # 2) (11 # 2) (7 # 2)) 5 3).
  unfold covered. eexists. eexists. split.
  - left. reflexivity.
  - vm_compute. intuition discriminate.
Defined.
